(** * Circular-statistics periodicity engine: a shallow embedding

    This development embeds the core of the earthquake-periodicity analysis
    scripts (cluster-robust Schuster test, MFPA scan, elevated-interval
    detection and baseline classification) and proves the properties the
    specification states about them.

    Conventions of the embedding.
    - A Python [float] / NumPy [float64] is a real number of [R]; rounding is
      not modelled, overflow is modelled where it decides whether a call
      raises ([int] of a quotient).  Ranges are stated where rounding cannot
      reach an excluded end point: remainders are taken of operands that are
      not negative.  Operations that yield NaN on finite operands
      ([np.mean] of an empty array, [%] with a zero modulus) and operations
      that raise ([ZeroDivisionError], [OverflowError], [IndexError]) return
      [None].
    - A Python [int] is a [Z]; a count that NumPy requires to be non-negative
      (an array size) is a [nat].
    - A NumPy array or Python list is a [list]; a dict with fixed keys is a
      [Record]. *)

From Stdlib Require Import String DecimalString.
From Stdlib Require Import Reals Lra Lia ZArith Bool Arith List Sorted.
Import ListNotations.
Open Scope string_scope.
Open Scope list_scope.

Open Scope R_scope.

(* ================================================================== *)
(** * Part I.  Definitions                                             *)
(* ================================================================== *)

(** ** The option monad: [None] is a raised exception or a NaN result. *)

Definition bind {A B : Type} (m : option A) (f : A -> option B) : option B :=
  match m with
  | Some a => f a
  | None => None
  end.

Notation "x <- m ;; k" := (bind m (fun x => k))
  (at level 61, m at next level, right associativity).

Fixpoint mapM {A B : Type} (f : A -> option B) (l : list A) : option (list B) :=
  match l with
  | [] => Some []
  | a :: l' => b <- f a ;; bs <- mapM f l' ;; Some (b :: bs)
  end.

(** ** Python and NumPy primitives used by the scripts *)

Module Np.

(** [range(lo, hi)] over Python ints. *)
Definition range (lo hi : Z) : list Z :=
  map (fun i => (lo + Z.of_nat i)%Z) (seq 0 (Z.to_nat (hi - lo))).

(** [str(i)] for a Python int. *)
Definition str (i : Z) : string := NilZero.string_of_int (Z.to_int i).

(** [np.sum]. *)
Definition sum (xs : list R) : R := fold_right Rplus 0 xs.

(** [np.mean]: NaN (with a warning) on an empty array. *)
Definition mean (xs : list R) : option R :=
  match xs with
  | [] => None
  | _ :: _ => Some (sum xs / INR (length xs))
  end.

(** Floored remainder [x - y * floor (x / y)], the value of [x % y] for a
    non-zero modulus.  For operands of the same sign the float remainder is
    exact, and below the modulus in magnitude; for operands of opposite
    signs it is rounded and can be the modulus itself, so that range
    statements are made for operands that are not negative. *)
Definition fmod (x y : R) : R := x - y * IZR (Zfloor (x / y)).

(** [x % y] on floats: NaN for a zero modulus. *)
Definition mod_ (x y : R) : option R :=
  if Req_dec_T y 0 then None else Some (fmod x y).

(** [np.arctan2 (y, x)], by quadrant. *)
Definition arctan2 (y x : R) : R :=
  if Rlt_dec 0 x then atan (y / x)
  else if Rlt_dec x 0 then
         (if Rle_dec 0 y then atan (y / x) + PI else atan (y / x) - PI)
  else if Rlt_dec 0 y then PI / 2
  else if Rlt_dec y 0 then - (PI / 2)
  else 0.

(** The magnitude from which the real quotient of two floats is rounded to
    an infinity: the largest finite float64 plus half a unit in its last
    place. *)
Definition FLOAT_OVERFLOW : R := (2 - / 2 ^ 53) * 2 ^ 1023.

(** [int(x)] of a float: truncation toward zero, and [OverflowError] for an
    infinity, which is what [x] is once its magnitude has overflowed. *)
Definition int (x : R) : option Z :=
  if Rle_dec FLOAT_OVERFLOW (Rabs x) then None
  else Some (if Rle_dec 0 x then Zfloor x else Zceil x).

(** Boolean comparisons, as they appear in masks and conditions. *)
Definition gtb (x y : R) : bool := if Rgt_dec x y then true else false.
Definition geb (x y : R) : bool := if Rge_dec x y then true else false.
Definition leb (x y : R) : bool := if Rle_dec x y then true else false.

(** [round(x, ndigits)]: to the nearest multiple of [10^-ndigits], ties to
    the even one. *)
Definition round_half_even (y : R) : Z :=
  let f := Zfloor y in
  let d := y - IZR f in
  if Rlt_dec d (1 / 2) then f
  else if Rlt_dec (1 / 2) d then (f + 1)%Z
  else if Z.even f then f else (f + 1)%Z.

Definition round (x : R) (ndigits : nat) : R :=
  IZR (round_half_even (x * 10 ^ ndigits)) / 10 ^ ndigits.

(** [np.log10] (of a positive number) and [np.logspace]. *)
Definition log10 (x : R) : R := ln x / ln 10.

Definition linspace (start stop : R) (num : nat) : list R :=
  match num with
  | O => []
  | S O => [start]
  | _ =>
      let step := (stop - start) / INR (num - 1) in
      map (fun i => if (i =? num - 1)%nat then stop else start + INR i * step)
          (seq 0 num)
  end.

Definition logspace (start stop : R) (num : nat) : list R :=
  map (fun y => Rpower 10 y) (linspace start stop num).

(** [l[idx] = v] on a Python list: [IndexError] past the end. *)
Definition set_item {A : Type} (l : list A) (idx : nat) (v : A)
  : option (list A) :=
  if (idx <? length l)%nat
  then Some (firstn idx l ++ v :: skipn (S idx) l)
  else None.

(** [l1 == l2] on lists of ints. *)
Fixpoint list_eqb (l1 l2 : list Z) : bool :=
  match l1, l2 with
  | [], [] => true
  | x :: l1', y :: l2' => (x =? y)%Z && list_eqb l1' l2'
  | _, _ => false
  end.

(** Boolean indexing [xs[mask]]. *)
Fixpoint select {A : Type} (mask : list bool) (xs : list A) : list A :=
  match mask, xs with
  | b :: mask', x :: xs' => if b then x :: select mask' xs' else select mask' xs'
  | _, _ => []
  end.

End Np.

(* ------------------------------------------------------------------ *)
(** ** case-a1-schuster.py: standard and cluster-robust Schuster tests *)

Module Schuster.

Definition DEFAULT_DT_CLUSTER_DAYS : R := 1.0.

Definition _compute_d2 (cos_sum sin_sum : R) (n : Z) : R :=
  if (n =? 0)%Z then 0.0
  else (cos_sum ^ 2 + sin_sum ^ 2) / IZR n.

(** [exp (- d2)]; the float underflows to 0.0 for a large [d2], so that the
    value the program returns lies in [0, 1]. *)
Definition _standard_p_from_d2 (d2 : R) : R := exp (- d2).

(** The [for i in range(1, n)] sweep of [assign_clusters]: [prev] is
    [event_time_days[i - 1]], the result lists [cluster_ids[i:]]. *)
Fixpoint assign_loop (prev : R) (rest : list R) (dt_cluster : R)
         (current_id : Z) : list Z :=
  match rest with
  | [] => []
  | t :: rest' =>
      let iet := t - prev in
      let current_id' :=
        if Rge_dec iet dt_cluster then (current_id + 1)%Z else current_id in
      current_id' :: assign_loop t rest' dt_cluster current_id'
  end.

Definition assign_clusters (event_time_days : list R) (dt_cluster : R)
  : list Z :=
  match event_time_days with
  | [] => []
  | t0 :: rest => 0%Z :: assign_loop t0 rest dt_cluster 0
  end.

Definition compute_phases (event_time_days : list R) (period_days : R)
  : option (list R) :=
  mapM (fun t =>
          m <- Np.mod_ t period_days ;;
          let fractional_phase := m / period_days in
          Some (2.0 * PI * fractional_phase))
       event_time_days.

Record Result := mkResult
  { n_events : Z;
    n_clusters : Z;
    D2 : R;
    p_standard : R;
    p_cluster_robust : R }.

(** Body of the [for cid in range(n_clusters)] loop: the unit vector of one
    cluster. *)
Definition cluster_unit (cluster_ids : list Z) (phases : list R) (cid : Z)
  : option (R * R) :=
  let mask := map (Z.eqb cid) cluster_ids in
  let cluster_phases := Np.select mask phases in
  mc <- Np.mean (map cos cluster_phases) ;;
  ms <- Np.mean (map sin cluster_phases) ;;
  let angle := Np.arctan2 ms mc in
  Some (cos angle, sin angle).

(** [schuster_single_period].  For a zero period the source still returns
    a record, with the two counts and NaN statistics; the model has [None]
    for it, so that nothing is said of that record. *)
Definition schuster_single_period
           (event_time_days : list R) (period_days dt_cluster : R)
  : option Result :=
  let n_events := Z.of_nat (length event_time_days) in
  if (n_events =? 0)%Z then Some (mkResult 0 0 0.0 1.0 1.0)
  else
    phases <- compute_phases event_time_days period_days ;;
    let cos_sum := Np.sum (map cos phases) in
    let sin_sum := Np.sum (map sin phases) in
    let d2_standard := _compute_d2 cos_sum sin_sum n_events in
    let p_standard := _standard_p_from_d2 d2_standard in
    let cluster_ids := assign_clusters event_time_days dt_cluster in
    let n_clusters :=
      if (n_events >? 0)%Z then (last cluster_ids 0 + 1)%Z else 0%Z in
    units <- mapM (cluster_unit cluster_ids phases) (Np.range 0 n_clusters) ;;
    let cos_sum_c := Np.sum (map fst units) in
    let sin_sum_c := Np.sum (map snd units) in
    let d2_cluster := _compute_d2 cos_sum_c sin_sum_c n_clusters in
    let p_cluster_robust := _standard_p_from_d2 d2_cluster in
    Some (mkResult n_events n_clusters d2_standard p_standard p_cluster_robust).

End Schuster.

(* ------------------------------------------------------------------ *)
(** ** case-a4-sub-b.py: elevated bins, merging, baseline classification *)

Module SubB.

Record Baseline := mkBaseline
  { id : Z; phase_start : R; phase_end : R; calendar : string }.

Definition A1B_BASELINE_INTERVALS : list Baseline :=
  [ mkBaseline 1 0.1875 0.25 "~Mar 10 - Apr 1";
    mkBaseline 2 0.625 0.656 "~Aug 16 - Aug 28";
    mkBaseline 3 0.875 0.917 "~Nov 16 - Dec 1" ].

(** [identify_elevated_bins]: indices whose count exceeds [E + sqrt E].
    For a negative [E] NumPy's square root is NaN and every comparison with
    the threshold is false. *)
Definition identify_elevated_bins (obs : list R) (expected_per_bin : R) : list Z :=
  if Rlt_dec expected_per_bin 0 then []
  else
    let threshold := expected_per_bin + sqrt expected_per_bin in
    filter (fun i => Np.gtb (nth (Z.to_nat i) obs 0) threshold)
           (Np.range 0 (Z.of_nat (length obs))).

(** The [for idx in elevated[1:]] loop of [merge_adjacent_bins], with its
    three variables [merged], [start] and [prev]. *)
Fixpoint merge_loop (rest : list Z) (start prev : Z) (merged : list (Z * Z))
  : list (Z * Z) :=
  match rest with
  | [] => merged ++ [(start, prev)]
  | idx :: rest' =>
      if (idx =? prev + 1)%Z
      then merge_loop rest' start idx merged
      else merge_loop rest' idx idx (merged ++ [(start, prev)])
  end.

(** [merge_adjacent_bins]: inclusive [(start_bin, end_bin)] ranges. *)
Definition merge_adjacent_bins (elevated : list Z) (k : Z) : list (Z * Z) :=
  match elevated with
  | [] => []
  | e0 :: rest => merge_loop rest e0 e0 []
  end.

(** [bins_to_phase_interval]; [k = 0] raises. *)
Definition bins_to_phase_interval (start_bin end_bin k : Z) : option (R * R) :=
  if (k =? 0)%Z then None
  else Some (IZR start_bin / IZR k, IZR (end_bin + 1) / IZR k).

Definition overlap_fraction (a_start a_end b_start b_end : R) : R :=
  let a_width := a_end - a_start in
  if Rle_dec a_width 0 then 0
  else
    let overlap := Rmax 0 (Rmin a_end b_end - Rmax a_start b_start) in
    overlap / a_width.

(** The [for baseline in ...] loop of [classify_interval]. *)
Fixpoint classify_loop (baselines : list Baseline) (phase_start' phase_end' : R)
  : string :=
  match baselines with
  | [] => "new interval"
  | baseline :: more =>
      let frac := overlap_fraction phase_start' phase_end'
                    (phase_start baseline) (phase_end baseline) in
      if Rgt_dec frac 0.5
      then "matches interval " ++ Np.str (id baseline)
      else classify_loop more phase_start' phase_end'
  end.

Definition classify_interval (phase_start' phase_end' : R) : string :=
  classify_loop A1B_BASELINE_INTERVALS phase_start' phase_end'.

End SubB.

(* ------------------------------------------------------------------ *)
(** ** case-b1-analysis.py: Rayleigh test and elevated intervals *)

Module B1.

(** [compute_rayleigh]: (R, p_rayleigh, mean_phase). *)
Definition compute_rayleigh (phases : list R) : option (R * R * R) :=
  let n := length phases in
  let angles := map (fun ph => 2.0 * PI * ph) phases in
  mean_cos <- Np.mean (map cos angles) ;;
  mean_sin <- Np.mean (map sin angles) ;;
  let R_ := sqrt (mean_cos ^ 2 + mean_sin ^ 2) in
  let p_rayleigh := exp (- INR n * R_ ^ 2) in
  let mean_angle_rad := Np.arctan2 mean_sin mean_cos in
  let mean_phase := Np.fmod (mean_angle_rad / (2.0 * PI)) 1.0 in
  Some (R_, p_rayleigh, mean_phase).

Record Interval := mkInterval
  { phase_start : R; phase_end : R; mean_phase : R }.

(** [bin_counts > threshold] with [threshold = E + sqrt E]; for a negative
    [E] the threshold is NaN and the mask is all false. *)
Definition elevated_mask (bin_counts : list R) (expected : R) : list bool :=
  let threshold := expected + sqrt expected in
  map (fun c => if Rlt_dec expected 0 then false else Np.gtb c threshold)
      bin_counts.

(** The inner [while i < k and elevated_mask[i]: i += 1]; the result is
    the value of [i] when it exits.  [fuel] bounds the number of iterations:
    [k - i] are enough. *)
Fixpoint extend_run (fuel : nat) (mask : list bool) (k i : Z) : option Z :=
  match fuel with
  | O => Some i
  | S fuel' =>
      if (i <? k)%Z then
        match nth_error mask (Z.to_nat i) with
        | None => None
        | Some true => extend_run fuel' mask k (i + 1)
        | Some false => Some i
        end
      else Some i
  end.

Definition interval_of_run (bin_width : R) (start_bin end_bin : Z) : Interval :=
  let phase_start := IZR start_bin * bin_width in
  let phase_end := IZR end_bin * bin_width in
  let mean_phase := (phase_start + phase_end) / 2.0 in
  mkInterval (Np.round phase_start 6) (Np.round phase_end 6)
             (Np.round mean_phase 6).

(** The outer [while i < k] loop.  Every iteration advances [i], so
    [k - i] iterations are enough. *)
Fixpoint scan_bins (fuel : nat) (mask : list bool) (k : Z) (bin_width : R)
         (i : Z) (intervals : list Interval) : option (list Interval) :=
  match fuel with
  | O => Some intervals
  | S fuel' =>
      if (i <? k)%Z then
        match nth_error mask (Z.to_nat i) with
        | None => None
        | Some true =>
            let start_bin := i in
            end_bin <- extend_run fuel mask k i ;;
            scan_bins fuel' mask k bin_width end_bin
                      (intervals ++ [interval_of_run bin_width start_bin end_bin])
        | Some false => scan_bins fuel' mask k bin_width (i + 1) intervals
        end
      else Some intervals
  end.

Definition find_elevated_intervals (bin_counts : list R) (k n : Z)
  : option (list Interval) :=
  if (k =? 0)%Z then None
  else
    let expected := IZR n / IZR k in
    let mask := elevated_mask bin_counts expected in
    let bin_width := 1.0 / IZR k in
    scan_bins (Z.to_nat k) mask k bin_width 0 [].

End B1.

(* ------------------------------------------------------------------ *)
(** ** case-a1-mfpa.py: MFPA power, bootstrap null, harmonic labels, scan *)

Module Mfpa.

Definition MFPA_N_PERIODS : nat := 300.
Definition MFPA_MIN_DAYS : R := 0.25.
Definition MFPA_MAX_DAYS : R := 548.0.
Definition N_BOOTSTRAP : nat := 1000.
Definition RNG_SEED : Z := 42.

Definition A1B_INTERVALS : list (R * R) :=
  [ (0.1875, 0.25); (0.625, 0.656); (0.875, 0.917) ].

(** [mfpa_power]: the complex sum of [exp (i * phi)] is kept as its real
    part (the sum of cosines) and imaginary part (the sum of sines). *)
Definition mfpa_power (phases : list R) : R :=
  let n := length phases in
  if (n =? 0)%nat then 0.0
  else
    let f_real := Np.sum (map cos phases) in
    let f_imag := Np.sum (map sin phases) in
    (f_real ^ 2 + f_imag ^ 2) / INR n.

Definition _phase_in_interval (phase_frac : R) (intervals : list (R * R))
  : list bool :=
  map (fun iv => Np.leb (fst iv) phase_frac && Np.leb phase_frac (snd iv))
      intervals.

(** The inner [for idx, (lo, hi) in enumerate(intervals)] loop. *)
Fixpoint mark_hits (phase_frac : R) (intervals : list (R * R)) (idx : nat)
         (hits : list bool) : option (list bool) :=
  match intervals with
  | [] => Some hits
  | (lo, hi) :: more =>
      hits' <- (if Np.leb lo phase_frac && Np.leb phase_frac hi
                then Np.set_item hits idx true
                else Some hits) ;;
      mark_hits phase_frac more (S idx) hits'
  end.

(** The outer [for phase_frac in predicted_phases] loop. *)
Fixpoint mark_all (predicted_phases : list R) (intervals : list (R * R))
         (hits : list bool) : option (list bool) :=
  match predicted_phases with
  | [] => Some hits
  | phase_frac :: more =>
      hits' <- mark_hits phase_frac intervals 0 hits ;;
      mark_all more intervals hits'
  end.

(** [[i + 1 for i, h in enumerate(hits) if h]], counting from [i]. *)
Fixpoint hit_indices_from (i : Z) (hits : list bool) : list Z :=
  match hits with
  | [] => []
  | h :: more =>
      if h then (i + 1)%Z :: hit_indices_from (i + 1) more
      else hit_indices_from (i + 1) more
  end.

(** The predicted peak positions; [int] raises when the quotient has
    overflowed. *)
Definition predicted_phases (period_days : R) : option (list R) :=
  let year_days := 365.25 in
  q <- Np.int (year_days / period_days) ;;
  let n_harmonics := Z.max 1 q in
  Some (map (fun k => Np.fmod (IZR k * period_days / year_days) 1.0)
            (Np.range 0 (n_harmonics + 1))).

Definition label_of_hits (hits : list bool) : string :=
  let hit_count := count_occ bool_dec hits true in
  let hit_indices := hit_indices_from 0 hits in
  if (hit_count =? 0)%nat then
    "inconsistent with all A1b intervals"
  else if (hit_count =? 1)%nat && Np.list_eqb hit_indices [1%Z] then
    "consistent with interval 1 only"
  else if (hit_count =? 2)%nat && Np.list_eqb hit_indices [1%Z; 2%Z] then
    "consistent with intervals 1+2"
  else if (hit_count =? 2)%nat && Np.list_eqb hit_indices [1%Z; 3%Z] then
    "consistent with intervals 1+3 (6-month)"
  else if (hit_count =? 2)%nat && Np.list_eqb hit_indices [2%Z; 3%Z] then
    "consistent with intervals 2+3"
  else if (hit_count =? 3)%nat then
    "consistent with all three intervals (4-month if applicable)"
  else
    let labels := String.concat "+" (map Np.str hit_indices) in
    "consistent with intervals " ++ labels.

(** [a1b_consistency_label]; a zero period raises at the division, a
    period so small that the quotient overflows at [int], a hit on an
    interval past the third at the assignment. *)
Definition a1b_consistency_label (period_days : R)
           (intervals : option (list (R * R))) : option string :=
  let intervals :=
    match intervals with None => A1B_INTERVALS | Some ivs => ivs end in
  if Req_dec_T period_days 0 then None
  else
    predicted <- predicted_phases period_days ;;
    hits <- mark_all predicted intervals [false; false; false] ;;
    Some (label_of_hits hits).

Record Entry := mkEntry
  { period_days : R;
    power : R;
    p95_threshold : R;
    p99_threshold : R;
    p_mfpa : R;
    a1b_consistency : string }.

Record Significant := mkSignificant
  { sig_period_days : R;
    sig_power : R;
    sig_p_mfpa : R;
    sig_a1b_consistency : string }.

Record ScanResult := mkScanResult
  { spectrum : list Entry;
    significant_periods : list Significant }.

Section Scan.

(** NumPy's random module and [np.percentile] are library code and stay
    abstract.  A [Generator] is the state of a bit generator,
    [default_rng seed] the state that seeding with [seed] produces, and
    [uniform g low high size] the [size] draws that a generator in state
    [g] gives for [uniform(low, high, size)], with the state it is left
    in. *)
Variable Generator : Type.
Variable default_rng : Z -> Generator.
Variable uniform : Generator -> R -> R -> nat -> list R * Generator.
Variable percentile : list R -> R -> R.

(** [percentile] stands for [np.percentile] of an array that is not empty;
    of an empty one the result is NaN. *)

(** The process state a call can read or change: the state behind the
    legacy functions of [np.random], the generator objects alive (an
    object is named by its position), and the records sent to the module
    logger. *)
Record World := mkWorld
  { global_random_state : Generator;
    generators : list Generator;
    log_records : list (string * list Z) }.

(** Computations in the world; [None] is a raised exception or a NaN. *)
Definition M (A : Type) : Type := World -> option A * World.

Definition ret {A : Type} (a : A) : M A := fun w => (Some a, w).

Definition bindM {A B : Type} (m : M A) (f : A -> M B) : M B :=
  fun w =>
    match m w with
    | (Some a, w') => f a w'
    | (None, w') => (None, w')
    end.

Definition lift {A : Type} (o : option A) : M A := fun w => (o, w).

Definition logger_info (fmt : string) (args : list Z) : M unit :=
  fun w =>
    (Some tt,
     mkWorld (global_random_state w) (generators w)
             (log_records w ++ [(fmt, args)])).

(** [np.random.default_rng(seed)]: a new generator object, seeded. *)
Definition np_random_default_rng (seed : Z) : M nat :=
  fun w =>
    (Some (length (generators w)),
     mkWorld (global_random_state w) (generators w ++ [default_rng seed])
             (log_records w)).

(** [rng.uniform(low, high, size)]: the draws of the object [rng], which
    is advanced. *)
Definition rng_uniform (rng : nat) (low high : R) (size : nat)
  : M (list R) :=
  fun w =>
    match nth_error (generators w) rng with
    | Some g =>
        let (draws, g') := uniform g low high size in
        match Np.set_item (generators w) rng g' with
        | Some gens =>
            (Some draws,
             mkWorld (global_random_state w) gens (log_records w))
        | None => (None, w)
        end
    | None => (None, w)
    end.

(** [np.random.uniform(low, high, size)], the legacy function: the draws
    of the global state, which is advanced.  The module does not call
    it. *)
Definition np_random_uniform (low high : R) (size : nat) : M (list R) :=
  fun w =>
    let (draws, g') := uniform (global_random_state w) low high size in
    (Some draws, mkWorld g' (generators w) (log_records w)).

(** The [for k in range(n_bootstrap)] loop of
    [bootstrap_null_percentiles]: the entries of [null_powers]. *)
Fixpoint null_powers_loop (n_bootstrap : nat) (rng : nat) (n : nat)
  : M (list R) :=
  match n_bootstrap with
  | O => ret []
  | S more =>
      bindM (rng_uniform rng 0 (2 * PI) n) (fun random_phases =>
      bindM (null_powers_loop more rng n) (fun null_powers =>
      ret (mfpa_power random_phases :: null_powers)))
  end.

Definition bootstrap_null_percentiles (n n_bootstrap : nat) (rng_seed : Z)
  : M (R * R) :=
  bindM (np_random_default_rng rng_seed) (fun rng =>
  bindM (null_powers_loop n_bootstrap rng n) (fun null_powers =>
  ret (percentile null_powers 95, percentile null_powers 99))).

(** The bootstrap loop of [mfpa_scan]: the rows of
    [null_powers_matrix], each the same power at every period. *)
Fixpoint null_matrix_loop (n_bootstrap : nat) (rng : nat)
         (n n_periods : nat) : M (list (list R)) :=
  match n_bootstrap with
  | O => ret []
  | S more =>
      bindM (rng_uniform rng 0 (2 * PI) n) (fun random_phases =>
      bindM (null_matrix_loop more rng n n_periods) (fun rows =>
      ret (repeat (mfpa_power random_phases) n_periods :: rows)))
  end.

(** [matrix[:, j]]. *)
Definition column (j : nat) (matrix : list (list R)) : list R :=
  map (fun row => nth j row 0) matrix.

(** [np.percentile(matrix, q, axis=0)]. *)
Definition percentile_axis0 (matrix : list (list R)) (q : R)
           (n_periods : nat) : list R :=
  map (fun j => percentile (column j matrix) q) (seq 0 n_periods).

(** The [for j, T in enumerate(periods)] loop of [mfpa_scan]. *)
Fixpoint scan_loop (periods : list R) (j : nat) (event_time_days : list R)
         (null_powers_matrix : list (list R))
         (p95_thresholds p99_thresholds : list R)
         (spectrum : list Entry) (significant_periods : list Significant)
  : option (list Entry * list Significant) :=
  match periods with
  | [] => Some (spectrum, significant_periods)
  | T :: more =>
      phases <- mapM (fun t => m <- Np.mod_ t T ;;
                               Some (2.0 * PI * (m / T)))
                     event_time_days ;;
      let power := mfpa_power phases in
      let p95 := nth j p95_thresholds 0 in
      let p99 := nth j p99_thresholds 0 in
      p_mfpa <- Np.mean (map (fun x => if Np.geb x power then 1 else 0)
                             (column j null_powers_matrix)) ;;
      a1b_label <- a1b_consistency_label T None ;;
      let entry := mkEntry T power p95 p99 p_mfpa a1b_label in
      let significant_periods' :=
        if Np.gtb power p95
        then significant_periods ++ [mkSignificant T power p_mfpa a1b_label]
        else significant_periods in
      scan_loop more (S j) event_time_days null_powers_matrix
                p95_thresholds p99_thresholds
                (spectrum ++ [entry]) significant_periods'
  end.

Definition mfpa_scan (event_time_days : list R) (n_periods : nat)
           (min_period_days max_period_days : R) (n_bootstrap : nat)
           (rng_seed : Z) : M ScanResult :=
  let n := length event_time_days in
  let periods :=
    Np.logspace (Np.log10 min_period_days) (Np.log10 max_period_days)
                n_periods in
  bindM (logger_info
           "MFPA scan: n=%d events, %d periods, %d bootstrap replicates"
           [Z.of_nat n; Z.of_nat n_periods; Z.of_nat n_bootstrap])
    (fun _ =>
  bindM (np_random_default_rng rng_seed) (fun rng =>
  bindM (null_matrix_loop n_bootstrap rng n n_periods)
    (fun null_powers_matrix =>
  let p95_thresholds := percentile_axis0 null_powers_matrix 95 n_periods in
  let p99_thresholds := percentile_axis0 null_powers_matrix 99 n_periods in
  bindM (lift (scan_loop periods 0 event_time_days null_powers_matrix
                         p95_thresholds p99_thresholds [] []))
    (fun out =>
  bindM (logger_info
           "MFPA scan complete: %d significant periods found (>p95)"
           [Z.of_nat (length (snd out))])
    (fun _ => ret (mkScanResult (fst out) (snd out))))))).

(** The bootstrap draws, replicate by replicate, that a generator in
    state [g] yields: what both bootstrap loops feed to [mfpa_power]. *)
Fixpoint bootstrap_draws (n_bootstrap : nat) (g : Generator) (n : nat)
  : list (list R) :=
  match n_bootstrap with
  | O => []
  | S more =>
      let (random_phases, g') := uniform g 0 (2 * PI) n in
      random_phases :: bootstrap_draws more g' n
  end.

End Scan.

End Mfpa.

(** The bin indices covered by inclusive ranges: each [(s, e)] stands for
    [s, s+1, ..., e].  This is how merged ranges are read back as
    elevated-bin indicators. *)
Definition expand_ranges (ranges : list (Z * Z)) : list Z :=
  flat_map (fun r => Np.range (fst r) (snd r + 1)) ranges.

(** The overlap length of [[s, e]] with a baseline, divided by the width of
    [[s, e]].  (For a zero width the overlap length is zero too, and the
    quotient is read as zero.) *)
Definition overlap_ratio (s e : R) (b : SubB.Baseline) : R :=
  Rmax 0 (Rmin e (SubB.phase_end b) - Rmax s (SubB.phase_start b)) / (e - s).

Definition baseline_1 := SubB.mkBaseline 1 0.1875 0.25 "~Mar 10 - Apr 1".
Definition baseline_2 := SubB.mkBaseline 2 0.625 0.656 "~Aug 16 - Aug 28".
Definition baseline_3 := SubB.mkBaseline 3 0.875 0.917 "~Nov 16 - Dec 1".

(** Bin [i] of [obs] is elevated: it exists and its count exceeds
    [E + sqrt E]. *)
Definition elevated (obs : list R) (expected : R) (i : Z) : Prop :=
  (0 <= i < Z.of_nat (length obs))%Z
  /\ nth (Z.to_nat i) obs 0 > expected + sqrt expected.

(** [runs] lists, in ascending order, the maximal runs of consecutive bins
    satisfying [P] among bins [0 .. k-1], each as [(start, end)] with the end
    exclusive.  A run lies inside [0 .. k]: it never continues from bin
    [k - 1] to bin [0]. *)
Definition maximal_runs (P : Z -> Prop) (k : Z) (runs : list (Z * Z)) : Prop :=
  (forall s e, In (s, e) runs ->
     (0 <= s < e)%Z /\ (e <= k)%Z
     /\ (forall j, (s <= j < e)%Z -> P j)
     /\ ~ P (s - 1)%Z /\ ~ P e)
  /\ (forall j, P j -> exists s e, In (s, e) runs /\ (s <= j < e)%Z)
  /\ StronglySorted (fun r1 r2 => (snd r1 < fst r2)%Z) runs.

(** Bin [j] is marked in a boolean mask. *)
Definition marked (mask : list bool) (j : Z) : Prop :=
  (0 <= j < Z.of_nat (length mask))%Z /\ nth (Z.to_nat j) mask false = true.

(** [runs] lists, in ascending order, the maximal runs of consecutive
    integers satisfying [Q], each as an inclusive [(start, end)]; no run
    starts before [lo]. *)
Definition inclusive_runs (lo : Z) (Q : Z -> Prop) (runs : list (Z * Z)) : Prop :=
  (forall s e, In (s, e) runs ->
     (lo <= s <= e)%Z
     /\ (forall j, (s <= j <= e)%Z -> Q j)
     /\ ~ Q (s - 1)%Z /\ ~ Q (e + 1)%Z)
  /\ (forall j, Q j -> exists s e, In (s, e) runs /\ (s <= j <= e)%Z)
  /\ StronglySorted (fun r1 r2 => (snd r1 + 1 < fst r2)%Z) runs.

(** The [k]-th predicted harmonic peak phase of a period. *)
Definition harmonic_phase (period_days : R) (k : Z) : R :=
  Np.fmod (IZR k * period_days / 365.25) 1.

(** Membership test of the hit loops. *)
Definition in_interval (x : R) (iv : R * R) : bool :=
  Np.leb (fst iv) x && Np.leb x (snd iv).

(** The unit vector of a cluster that has at least one event. *)
Definition unit_of (cluster_ids : list Z) (phases : list R) (cid : Z) : R * R :=
  let cluster_phases := Np.select (map (Z.eqb cid) cluster_ids) phases in
  let mc := Np.sum (map cos cluster_phases) / INR (length cluster_phases) in
  let ms := Np.sum (map sin cluster_phases) / INR (length cluster_phases) in
  (cos (Np.arctan2 ms mc), sin (Np.arctan2 ms mc)).

(** The phase angle [compute_phases] gives an event time. *)
Definition event_phase (period_days t : R) : R :=
  2.0 * PI * (Np.fmod t period_days / period_days).

(** All events of each temporal cluster have the same phase. *)
Definition clusters_phase_identical (times : list R) (period_days dt : R) : Prop :=
  let ids := Schuster.assign_clusters times dt in
  forall i j, (i < length times)%nat -> (j < length times)%nat ->
              nth i ids 0%Z = nth j ids 0%Z ->
              event_phase period_days (nth i times 0)
              = event_phase period_days (nth j times 0).

(** Every temporal cluster has [m] events. *)
Definition clusters_of_size (times : list R) (dt : R) (m : nat) : Prop :=
  let ids := Schuster.assign_clusters times dt in
  forall cid, In cid ids -> count_occ Z.eq_dec ids cid = m.

(** The maximal runs of marked bins found from bin [i] on, among bins
    [0 .. k-1]. *)
Definition runs_from (mask : list bool) (k i : Z) (runs : list (Z * Z)) : Prop :=
  (forall s e, In (s, e) runs ->
     (i <= s < e)%Z /\ (e <= k)%Z
     /\ (forall j, (s <= j < e)%Z -> marked mask j)
     /\ ~ marked mask (s - 1)%Z /\ ~ marked mask e)
  /\ (forall j, (i <= j)%Z -> marked mask j ->
                exists s e, In (s, e) runs /\ (s <= j < e)%Z)
  /\ StronglySorted (fun r1 r2 => (snd r1 < fst r2)%Z) runs.

(** Sample inputs. *)
Definition sample_bin_counts : list R := [4; 0; 0; 4].
Definition sample_times : list R := [0; 2].
Definition sample_phases : list R := [0.25].

(* ------------------------------------------------------------------ *)
(** ** case-a1-schuster.py, continued: the spectrum over a period grid *)

Module SchusterGrid.

Definition SPECTRUM_N_PERIODS : nat := 200.
Definition SPECTRUM_MIN_DAYS : R := 0.25.
Definition SPECTRUM_MAX_DAYS : R := 548.0.

Record Entry := mkEntry
  { period_days : R;
    D2 : R;
    p_standard : R;
    p_cluster_robust : R }.

(** The [for T in periods] loop of [schuster_spectrum]; the cluster IDs and
    counts are computed once, before the loop. *)
Fixpoint spectrum_loop (periods : list R) (event_time_days : list R)
         (cluster_ids : list Z) (n_events n_clusters : Z)
         (spectrum : list Entry) : option (list Entry) :=
  match periods with
  | [] => Some spectrum
  | T :: more =>
      phases <- Schuster.compute_phases event_time_days T ;;
      let cos_sum := Np.sum (map cos phases) in
      let sin_sum := Np.sum (map sin phases) in
      let d2_std := Schuster._compute_d2 cos_sum sin_sum n_events in
      let p_std := Schuster._standard_p_from_d2 d2_std in
      units <- mapM (Schuster.cluster_unit cluster_ids phases)
                    (Np.range 0 n_clusters) ;;
      let cos_sum_c := Np.sum (map fst units) in
      let sin_sum_c := Np.sum (map snd units) in
      let d2_cr := Schuster._compute_d2 cos_sum_c sin_sum_c n_clusters in
      let p_cr := Schuster._standard_p_from_d2 d2_cr in
      spectrum_loop more event_time_days cluster_ids n_events n_clusters
                    (spectrum ++ [mkEntry T d2_std p_std p_cr])
  end.

(** [schuster_spectrum]: the spectrum, and the record it sends to the
    logger. *)
Definition schuster_spectrum (event_time_days : list R) (dt_cluster : R)
           (n_periods : nat) (min_period_days max_period_days : R)
  : option (list Entry) * list (string * list Z) :=
  let periods :=
    Np.logspace (Np.log10 min_period_days) (Np.log10 max_period_days)
                n_periods in
  let cluster_ids := Schuster.assign_clusters event_time_days dt_cluster in
  let n_events := Z.of_nat (length event_time_days) in
  let n_clusters :=
    if (n_events >? 0)%Z then (last cluster_ids 0 + 1)%Z else 0%Z in
  (spectrum_loop periods event_time_days cluster_ids n_events n_clusters [],
   [("Schuster spectrum computed over %d periods", [Z.of_nat n_periods])]).

End SchusterGrid.

(** What one pass of the spectrum loop appends for a period [T]: the
    statistics [schuster_single_period] returns for [T]. *)
Definition entry_matches (times : list R) (dt : R) (e : SchusterGrid.Entry) : Prop :=
  exists r,
    Schuster.schuster_single_period times (SchusterGrid.period_days e) dt = Some r
    /\ SchusterGrid.D2 e = Schuster.D2 r
    /\ SchusterGrid.p_standard e = Schuster.p_standard r
    /\ SchusterGrid.p_cluster_robust e = Schuster.p_cluster_robust r.

(** The record [mfpa_scan] appends to [significant_periods] for a spectrum
    entry, and the test that decides it. *)
Definition significant_of_entry (e : Mfpa.Entry) : Mfpa.Significant :=
  Mfpa.mkSignificant (Mfpa.period_days e) (Mfpa.power e) (Mfpa.p_mfpa e)
                     (Mfpa.a1b_consistency e).

Definition above_p95 (e : Mfpa.Entry) : bool :=
  Np.gtb (Mfpa.power e) (Mfpa.p95_threshold e).

(** ** More Python and NumPy primitives *)

Module NpMore.

(** [x < y] as a boolean. *)
Definition ltb (x y : R) : bool := if Rlt_dec x y then true else false.

(** [abs(x)] and the two-argument [min] on floats. *)
Definition abs (x : R) : R := Rabs x.
Definition min (x y : R) : R := Rmin x y.

End NpMore.

(* ------------------------------------------------------------------ *)
(** ** case-a4-sub-b.py, continued: phases and interval coherence *)

Module SubBPhase.

Definition SOLAR_YEAR_SECS : R := 31557600.0.

(** [compute_phase]: [(solar_secs / year_secs) % 1.0], element by element;
    a zero [year_secs] gives NaN. *)
Definition compute_phase (solar_secs : list R) (year_secs : R)
  : option (list R) :=
  mapM (fun s =>
          if Req_dec_T year_secs 0 then None
          else Some (Np.fmod (s / year_secs) 1.0))
       solar_secs.

(** [compute_interval_coherence]: the modulus of the mean of
    [exp (i * angles)], kept as the means of the cosines and of the sines. *)
Definition compute_interval_coherence (phase : list R)
           (phase_start phase_end : R) : option R :=
  let mask :=
    map (fun p => Np.geb p phase_start && NpMore.ltb p phase_end) phase in
  let sub := Np.select mask phase in
  if (length sub =? 0)%nat then Some 0.0
  else
    let angles := map (fun p => 2.0 * PI * p) sub in
    mean_re <- Np.mean (map cos angles) ;;
    mean_im <- Np.mean (map sin angles) ;;
    Some (sqrt (mean_re ^ 2 + mean_im ^ 2)).

End SubBPhase.

(* ------------------------------------------------------------------ *)
(** ** case-a4-sub-c.py: aftershock intervals and their classification *)

Module SubC.

Record Baseline := mkBaseline
  { id : Z; phase_start : R; phase_end : R }.

Definition A1B_BASELINE_INTERVALS : list Baseline :=
  [ mkBaseline 1 0.1875 0.25;
    mkBaseline 2 0.625 0.656;
    mkBaseline 3 0.875 0.917 ].

Definition overlap_fraction (a_start a_end b_start b_end : R) : R :=
  let a_width := a_end - a_start in
  if Rle_dec a_width 0 then 0
  else
    let overlap := Rmax 0 (Rmin a_end b_end - Rmax a_start b_start) in
    overlap / a_width.

(** [[i for i in range(k) if obs[i] > threshold]]: [obs[i]] raises
    [IndexError] past the end of [obs]; a NaN threshold (negative expected
    count) makes every comparison false. *)
Definition elevated_indices (obs : list R) (k : Z) (expected_per_bin : R)
  : option (list Z) :=
  let threshold := expected_per_bin + sqrt expected_per_bin in
  hits <- mapM (fun i =>
                  c <- nth_error obs (Z.to_nat i) ;;
                  Some (if Rlt_dec expected_per_bin 0 then false
                        else Np.gtb c threshold))
               (Np.range 0 k) ;;
  Some (Np.select hits (Np.range 0 k)).

(** The dict appended for a run of bins; the divisions raise for [k = 0]. *)
Definition interval_dict (start prev k : Z) : option (R * R) :=
  if (k =? 0)%Z then None
  else Some (IZR start / IZR k, IZR (prev + 1) / IZR k).

(** The [for idx in elevated[1:]] loop and the final [append]. *)
Fixpoint merge_loop (rest : list Z) (k start prev : Z) (merged : list (R * R))
  : option (list (R * R)) :=
  match rest with
  | [] => d <- interval_dict start prev k ;; Some (merged ++ [d])
  | idx :: rest' =>
      if (idx =? prev + 1)%Z
      then merge_loop rest' k start idx merged
      else d <- interval_dict start prev k ;;
           merge_loop rest' k idx idx (merged ++ [d])
  end.

(** [get_elevated_intervals]: pairs [(phase_start, phase_end)]. *)
Definition get_elevated_intervals (obs : list R) (k : Z) (expected_per_bin : R)
  : option (list (R * R)) :=
  elevated <- elevated_indices obs k expected_per_bin ;;
  match elevated with
  | [] => Some []
  | e0 :: rest => merge_loop rest k e0 e0 []
  end.

(** The inner loop of the two overlap searches: it sets the flag and
    breaks at the first interval of [others] that covers more than half of
    [ae]. *)
Fixpoint overlap_inner (ae : R * R) (others : list (R * R)) (flag : bool)
  : bool :=
  match others with
  | [] => flag
  | other :: more =>
      let frac := overlap_fraction (fst ae) (snd ae) (fst other) (snd other) in
      if Rgt_dec frac 0.5 then true
      else overlap_inner ae more flag
  end.

(** The outer [for ae in aftershock_elevated] loop. *)
Fixpoint overlap_outer (aftershock_elevated others : list (R * R))
         (flag : bool) : bool :=
  match aftershock_elevated with
  | [] => flag
  | ae :: more => overlap_outer more others (overlap_inner ae others flag)
  end.

Definition classify_aftershock_preference
           (aftershock_elevated mainshock_elevated : list (R * R))
           (p_values_all_k : list R) : string :=
  let any_significant := existsb (fun p => NpMore.ltb p 0.05) p_values_all_k in
  if negb any_significant then "no preference"
  else
    let overlap_with_mainshocks :=
      overlap_outer aftershock_elevated mainshock_elevated false in
    let overlap_with_a1b :=
      overlap_outer aftershock_elevated
        (map (fun b => (phase_start b, phase_end b)) A1B_BASELINE_INTERVALS)
        false in
    if overlap_with_a1b then "significant, intervals match A1b baseline"
    else if overlap_with_mainshocks then "same intervals as mainshocks"
    else "different intervals from mainshocks".

End SubC.

(* ------------------------------------------------------------------ *)
(** ** case-b1-analysis.py, continued: symmetry tests and predictions *)

Module B1Tests.

Definition A1B_INTERVALS : list (R * R) :=
  [ (0.1875, 0.25); (0.625, 0.656); (0.875, 0.917) ].

Definition BIN_WIDTH_K24 : R := 1.0 / 24.

Definition intervals_overlap (s1 e1 s2 e2 : R) : R :=
  let width := e1 - s1 in
  if Rle_dec width 0 then 0.0
  else
    let overlap := Rmax 0.0 (Rmin e1 e2 - Rmax s1 s2) in
    overlap / width.

Fixpoint interval_in_elevated (baseline_start baseline_end : R)
         (elevated_intervals : list B1.Interval) (overlap_threshold : R)
  : bool :=
  match elevated_intervals with
  | [] => false
  | ei :: more =>
      let frac := intervals_overlap baseline_start baseline_end
                    (B1.phase_start ei) (B1.phase_end ei) in
      if Rgt_dec frac overlap_threshold then true
      else interval_in_elevated baseline_start baseline_end more
                                overlap_threshold
  end.

Record Presence := mkPresence
  { in_nh : bool; in_sh : bool; symmetric : bool }.

Record Test1 := mkTest1
  { interval_1 : Presence;
    interval_2 : Presence;
    interval_3 : Presence;
    classification : string }.

(** One pass of the [for idx, (ps, pe) in enumerate(A1B_INTERVALS)] loop. *)
Definition presence (elevated_nh elevated_sh : list B1.Interval)
           (iv : R * R) : Presence :=
  let in_nh := interval_in_elevated (fst iv) (snd iv) elevated_nh 0.5 in
  let in_sh := interval_in_elevated (fst iv) (snd iv) elevated_sh 0.5 in
  let symmetric := in_nh && in_sh in
  mkPresence in_nh in_sh symmetric.

(** [test_1_global_symmetry]; the three keys it reads back exist because
    [A1B_INTERVALS] has three entries. *)
Definition test_1_global_symmetry (elevated_nh elevated_sh : list B1.Interval)
  : option Test1 :=
  let interval_results := map (presence elevated_nh elevated_sh) A1B_INTERVALS in
  let all_symmetric := forallb symmetric interval_results in
  let any_symmetric := existsb symmetric interval_results in
  let classification :=
    if all_symmetric then "fully symmetric"
    else if any_symmetric then "partially symmetric"
    else "asymmetric" in
  r1 <- nth_error interval_results 0 ;;
  r2 <- nth_error interval_results 1 ;;
  r3 <- nth_error interval_results 2 ;;
  Some (mkTest1 r1 r2 r3 classification).

(** The loop of the local [get_interval_mean_phase]. *)
Fixpoint mean_phase_loop (ps pe : R) (elevated : list B1.Interval)
         (best_overlap : R) (best_mean : option R) : option R :=
  match elevated with
  | [] => best_mean
  | ei :: more =>
      let frac := intervals_overlap ps pe (B1.phase_start ei) (B1.phase_end ei) in
      if Np.gtb frac 0.5 && Np.gtb frac best_overlap
      then mean_phase_loop ps pe more frac (Some (B1.mean_phase ei))
      else mean_phase_loop ps pe more best_overlap best_mean
  end.

Definition get_interval_mean_phase (ps pe : R) (elevated : list B1.Interval)
  : option R :=
  mean_phase_loop ps pe elevated 0.0 None.

Record Test2 := mkTest2
  { interval_1_nh : bool;
    interval_1_sh : bool;
    phase_offset : option R }.

Definition test_2_interval_1_symmetry
           (elevated_nh elevated_sh : list B1.Interval) : option Test2 :=
  iv <- nth_error A1B_INTERVALS 0 ;;
  let ps := fst iv in
  let pe := snd iv in
  let in_nh := interval_in_elevated ps pe elevated_nh 0.5 in
  let in_sh := interval_in_elevated ps pe elevated_sh 0.5 in
  let nh_mean :=
    if in_nh then get_interval_mean_phase ps pe elevated_nh else None in
  let sh_mean :=
    if in_sh then get_interval_mean_phase ps pe elevated_sh else None in
  let phase_offset :=
    match nh_mean, sh_mean with
    | Some a, Some b => Some (a - b)
    | _, _ => None
    end in
  Some (mkTest2 in_nh in_sh phase_offset).

Record Test3 := mkTest3
  { interval_2_hemisphere : string;
    interval_3_hemisphere : string }.

(** The local [classify] of [test_3_interval_23_specificity]. *)
Definition classify (elevated_nh elevated_sh : list B1.Interval)
           (ps pe : R) : string :=
  let in_nh := interval_in_elevated ps pe elevated_nh 0.5 in
  let in_sh := interval_in_elevated ps pe elevated_sh 0.5 in
  if in_nh && in_sh then "both"
  else if in_nh then "nh_only"
  else if in_sh then "sh_only"
  else "neither".

Definition test_3_interval_23_specificity
           (elevated_nh elevated_sh : list B1.Interval) : option Test3 :=
  iv2 <- nth_error A1B_INTERVALS 1 ;;
  iv3 <- nth_error A1B_INTERVALS 2 ;;
  Some (mkTest3 (classify elevated_nh elevated_sh (fst iv2) (snd iv2))
                (classify elevated_nh elevated_sh (fst iv3) (snd iv3))).

Record Detail := mkDetail
  { nh_interval_center : R;
    expected_sh_counterpart : R;
    sh_interval_center : R;
    offset : R;
    within_tolerance : bool }.

Record Test4 := mkTest4
  { any_half_cycle_offset_found : bool;
    details : list Detail }.

(** The inner [for ei_sh in elevated_sh] loop, threading [any_found] and
    [details]. *)
Fixpoint half_cycle_inner (nh_center counterpart tolerance : R)
         (elevated_sh : list B1.Interval) (any_found : bool)
         (details : list Detail) : bool * list Detail :=
  match elevated_sh with
  | [] => (any_found, details)
  | ei_sh :: more =>
      let sh_center := B1.mean_phase ei_sh in
      let offset := NpMore.abs (sh_center - counterpart) in
      let offset := NpMore.min offset (1.0 - offset) in
      let within_tolerance := Np.leb offset tolerance in
      let any_found := if within_tolerance then true else any_found in
      half_cycle_inner nh_center counterpart tolerance more any_found
        (details ++ [mkDetail (Np.round nh_center 6) (Np.round counterpart 6)
                              (Np.round sh_center 6) (Np.round offset 6)
                              within_tolerance])
  end.

(** The outer [for ei_nh in elevated_nh] loop. *)
Fixpoint half_cycle_outer (tolerance : R)
         (elevated_nh elevated_sh : list B1.Interval) (any_found : bool)
         (details : list Detail) : bool * list Detail :=
  match elevated_nh with
  | [] => (any_found, details)
  | ei_nh :: more =>
      let nh_center := B1.mean_phase ei_nh in
      let counterpart := Np.fmod (nh_center + 0.5) 1.0 in
      let st := half_cycle_inner nh_center counterpart tolerance elevated_sh
                                 any_found details in
      half_cycle_outer tolerance more elevated_sh (fst st) (snd st)
  end.

Definition compute_half_cycle_offset
           (elevated_nh elevated_sh : list B1.Interval) : Test4 :=
  let tolerance := BIN_WIDTH_K24 in
  let st := half_cycle_outer tolerance elevated_nh elevated_sh false [] in
  mkTest4 (fst st) (snd st).

Record SymmetryTests := mkSymmetryTests
  { test_1_global : Test1;
    test_2_interval_1 : Test2;
    test_3_interval_23 : Test3;
    test_4_half_cycle_offset : Test4 }.

(** [run_symmetry_tests], from the two lists it reads out of [hemi_stats]
    (the elevated intervals of each hemisphere at k = 24); what it sends to
    the logger is left out. *)
Definition run_symmetry_tests (elevated_nh_k24 elevated_sh_k24 : list B1.Interval)
  : option SymmetryTests :=
  t1 <- test_1_global_symmetry elevated_nh_k24 elevated_sh_k24 ;;
  t2 <- test_2_interval_1_symmetry elevated_nh_k24 elevated_sh_k24 ;;
  t3 <- test_3_interval_23_specificity elevated_nh_k24 elevated_sh_k24 ;;
  let t4 := compute_half_cycle_offset elevated_nh_k24 elevated_sh_k24 in
  Some (mkSymmetryTests t1 t2 t3 t4).

Record Predictions := mkPredictions
  { geometric : string;
    hydrological : string;
    mixed : string;
    primary_conclusion : string }.

(** The dict lookup [{"supported": 3, ...}[label]]: [KeyError] for any
    other label. *)
Definition support_score (label : string) : option Z :=
  if String.eqb label "supported" then Some 3%Z
  else if String.eqb label "partially supported" then Some 2%Z
  else if String.eqb label "not supported" then Some 1%Z
  else None.

(** [x in ("nh_only", "sh_only")]. *)
Definition hemisphere_specific (x : string) : bool :=
  String.eqb x "nh_only" || String.eqb x "sh_only".

Definition evaluate_predictions (symmetry_tests : SymmetryTests)
  : option Predictions :=
  let t1 := test_1_global symmetry_tests in
  let t2 := test_2_interval_1 symmetry_tests in
  let t3 := test_3_interval_23 symmetry_tests in
  let t4 := test_4_half_cycle_offset symmetry_tests in
  let all_symmetric :=
    symmetric (interval_1 t1) && symmetric (interval_2 t1)
    && symmetric (interval_3 t1) in
  let no_half_cycle := negb (any_half_cycle_offset_found t4) in
  let geometric :=
    if all_symmetric && no_half_cycle then "supported"
    else if all_symmetric
            || (symmetric (interval_1 t1)
                && negb (any_half_cycle_offset_found t4))
         then "partially supported"
    else "not supported" in
  let i2_specific := hemisphere_specific (interval_2_hemisphere t3) in
  let i3_specific := hemisphere_specific (interval_3_hemisphere t3) in
  let half_cycle_found := any_half_cycle_offset_found t4 in
  let hydrological :=
    if half_cycle_found && (i2_specific || i3_specific) then "supported"
    else if half_cycle_found || (i2_specific && i3_specific)
         then "partially supported"
    else "not supported" in
  let i1_symmetric :=
    symmetric (interval_1 t1) || (interval_1_nh t2 && interval_1_sh t2) in
  let mixed :=
    if i1_symmetric && (i2_specific || i3_specific) then "supported"
    else if i1_symmetric || (i2_specific || i3_specific)
         then "partially supported"
    else "not supported" in
  g <- support_score geometric ;;
  h <- support_score hydrological ;;
  m <- support_score mixed ;;
  let support_scores := [("geometric", g); ("hydrological", h); ("mixed", m)] in
  let top_score := Z.max (Z.max g h) m in
  let top_hypotheses :=
    map fst (filter (fun hs => (snd hs =? top_score)%Z) support_scores) in
  let primary :=
    match top_hypotheses with
    | [h1] => h1
    | _ => "ambiguous"
    end in
  Some (mkPredictions geometric hydrological mixed primary).

End B1Tests.

(* ------------------------------------------------------------------ *)
(** ** case-a4-sub-b.py, continued: one catalog at one bin count *)

Module NpBins.

(** [np.clip (x, lo, hi)], which is [minimum (maximum (x, lo), hi)]. *)
Definition clip (x lo hi : Z) : Z := Z.min (Z.max x lo) hi.

(** [np.bincount (xs, minlength)]: [ValueError] for a negative entry or a
    negative [minlength]; otherwise the number of occurrences of each of
    [0 .. max (minlength, max xs + 1) - 1]. *)
Definition bincount (xs : list Z) (minlength : Z) : option (list Z) :=
  if (minlength <? 0)%Z || existsb (fun x => (x <? 0)%Z) xs then None
  else
    let size := fold_right (fun x m => Z.max (x + 1) m) minlength xs in
    Some (map (fun i => Z.of_nat (count_occ Z.eq_dec xs i)) (Np.range 0 size)).

End NpBins.

Module SubBRun.

Record Recovered := mkRecovered
  { phase_start : R;
    phase_end : R;
    classification : string;
    n_events : Z;
    R_coherence : R }.

Record Survival := mkSurvival
  { survives : bool;
    matching_recovered : list Recovered }.

(** [np.floor (phase * k)], clipped to [0 .. k - 1] and counted per bin.
    The product is the exact one: the rounded product of the source can
    reach the next bin edge for a phase just below it, so which bin such
    an event is counted in is not settled here. *)
Definition bin_counts (phase : list R) (k : Z) : option (list R) :=
  let bin_idx := map (fun p => Zfloor (p * IZR k)) phase in
  let bin_idx := map (fun i => NpBins.clip i 0 (k - 1)) bin_idx in
  obs <- NpBins.bincount bin_idx k ;;
  Some (map IZR obs).

(** Body of the [for (sb, eb) in merged_bins] loop. *)
Definition recover (phase : list R) (k : Z) (bins : Z * Z) : option Recovered :=
  iv <- SubB.bins_to_phase_interval (fst bins) (snd bins) k ;;
  let ps := fst iv in
  let pe := snd iv in
  let classification := SubB.classify_interval ps pe in
  r_coherence <- SubBPhase.compute_interval_coherence phase ps pe ;;
  let mask := map (fun p => Np.geb p ps && NpMore.ltb p pe) phase in
  let n_in := Z.of_nat (count_occ bool_dec mask true) in
  Some (mkRecovered ps pe classification n_in r_coherence).

(** Body of the [for baseline in A1B_BASELINE_INTERVALS] loop. *)
Definition survival_of (recovered_intervals : list Recovered)
           (baseline : SubB.Baseline) : string * Survival :=
  let matched :=
    filter (fun ri =>
              String.eqb (classification ri)
                         ("matches interval " ++ Np.str (SubB.id baseline))%string)
           recovered_intervals in
  (("interval_" ++ Np.str (SubB.id baseline))%string,
   mkSurvival (0 <? length matched)%nat matched).

(** [run_sub_b_single], from the [solar_secs] column of the catalog:
    the recovered intervals and the baseline survival table (what it sends
    to the logger is left out). *)
Definition run_sub_b_single (solar_secs : list R) (k : Z)
  : option (list Recovered * list (string * Survival)) :=
  let n := Z.of_nat (length solar_secs) in
  phase <- SubBPhase.compute_phase solar_secs SubBPhase.SOLAR_YEAR_SECS ;;
  obs <- bin_counts phase k ;;
  expected_per_bin <- (if (k =? 0)%Z then None else Some (IZR n / IZR k)) ;;
  let elevated := SubB.identify_elevated_bins obs expected_per_bin in
  let merged_bins := SubB.merge_adjacent_bins elevated k in
  recovered_intervals <- mapM (recover phase k) merged_bins ;;
  let baseline_survival :=
    map (survival_of recovered_intervals) SubB.A1B_BASELINE_INTERVALS in
  Some (recovered_intervals, baseline_survival).

End SubBRun.

(* ------------------------------------------------------------------ *)
(** ** More sample inputs *)

(** A generator that always draws the lower bound, and a percentile that
    is always 0. *)
Definition sample_uniform (g : unit) (low high : R) (size : nat)
  : list R * unit := (repeat low size, g).

Definition sample_percentile (xs : list R) (q : R) : R := 0.

Definition sample_world : Mfpa.World unit := Mfpa.mkWorld unit tt [] [].

(** Four events, at the start, the middle (twice) and the three-quarter
    point of the solar year. *)
Definition sample_solar_secs : list R :=
  [0; 15778800; 15778800; 23668200].

(** Four events at the middle of the solar year. *)
Definition sample_clustered_secs : list R :=
  [15778800; 15778800; 15778800; 15778800].



(** Four intervals, the fourth containing phase 0. *)
Definition sample_four_intervals : list (R * R) :=
  [(0.1, 0.2); (0.3, 0.4); (0.5, 0.6); (0, 0.05)].

(* ================================================================== *)
(** * Part II.  Properties                                             *)
(* ================================================================== *)

(** ** Ranges *)

Lemma range_nil (lo hi : Z) : (hi <= lo)%Z -> Np.range lo hi = [].
Proof.
  intros H. unfold Np.range.
  replace (Z.to_nat (hi - lo)) with 0%nat by lia. reflexivity.
Qed.

Lemma range_snoc (lo hi : Z) :
  (lo <= hi)%Z -> Np.range lo (hi + 1) = Np.range lo hi ++ [hi].
Proof.
  intros H. unfold Np.range.
  replace (Z.to_nat (hi + 1 - lo)) with (Z.to_nat (hi - lo) + 1)%nat by lia.
  rewrite seq_app, map_app. simpl. do 3 f_equal. lia.
Qed.

Lemma range_single (i : Z) : Np.range i (i + 1) = [i].
Proof. rewrite range_snoc by lia. rewrite range_nil by lia. reflexivity. Qed.

Lemma range_cons (lo hi : Z) :
  (lo < hi)%Z -> Np.range lo hi = lo :: Np.range (lo + 1) hi.
Proof.
  intros H. unfold Np.range.
  replace (Z.to_nat (hi - lo)) with (S (Z.to_nat (hi - (lo + 1)))) by lia.
  simpl. f_equal; [lia|].
  rewrite <- seq_shift, map_map. apply map_ext. intros; lia.
Qed.

Lemma in_range (lo hi i : Z) : In i (Np.range lo hi) <-> (lo <= i < hi)%Z.
Proof.
  unfold Np.range. rewrite in_map_iff. split.
  - intros (j & <- & Hj). apply in_seq in Hj. lia.
  - intros H. exists (Z.to_nat (i - lo)). split; [lia|]. apply in_seq. lia.
Qed.

Lemma expand_ranges_app (r1 r2 : list (Z * Z)) :
  expand_ranges (r1 ++ r2) = expand_ranges r1 ++ expand_ranges r2.
Proof. unfold expand_ranges. apply flat_map_app. Qed.

(** ** Merging adjacent bins *)

(** Reading the merged ranges back gives the input list: the loop only
    groups, it neither drops nor reorders an index. *)
Lemma merge_loop_expand (rest : list Z) :
  forall start prev merged,
    (start <= prev)%Z ->
    expand_ranges (SubB.merge_loop rest start prev merged)
    = expand_ranges merged ++ Np.range start (prev + 1) ++ rest.
Proof.
  induction rest as [|idx rest IH]; intros start prev merged Hle; simpl.
  - rewrite expand_ranges_app. simpl. now rewrite !app_nil_r.
  - destruct (Z.eqb_spec idx (prev + 1)) as [->|Hne].
    + rewrite IH by lia.
      rewrite (range_snoc start (prev + 1)) by lia.
      now rewrite <- app_assoc.
    + rewrite IH by lia.
      rewrite expand_ranges_app. simpl.
      rewrite range_single, app_nil_r, <- !app_assoc. reflexivity.
Qed.

Lemma merge_expand (elevated : list Z) (k : Z) :
  expand_ranges (SubB.merge_adjacent_bins elevated k) = elevated.
Proof.
  destruct elevated as [|e0 rest]; [reflexivity|].
  unfold SubB.merge_adjacent_bins.
  rewrite merge_loop_expand by lia.
  now rewrite range_single.
Qed.

(** C9. Merging is idempotent: merging the bins covered by the merged ranges
    gives the merged ranges again.  It holds for every index list (sorted or
    not) and whatever bin counts [k], [k'] are passed. *)
Theorem merge_adjacent_bins_idempotent (elevated : list Z) (k k' : Z) :
  SubB.merge_adjacent_bins
    (expand_ranges (SubB.merge_adjacent_bins elevated k)) k'
  = SubB.merge_adjacent_bins elevated k.
Proof.
  rewrite merge_expand.
  destruct elevated; reflexivity.
Qed.

(** ** Classification against the baseline intervals *)

Lemma overlap_fraction_ratio (s e : R) (b : SubB.Baseline) :
  SubB.overlap_fraction s e (SubB.phase_start b) (SubB.phase_end b)
  = overlap_ratio s e b.
Proof.
  unfold SubB.overlap_fraction, overlap_ratio.
  destruct (Rle_dec (e - s) 0) as [Hw|Hw]; [|reflexivity].
  rewrite (Rmax_left 0).
  - unfold Rdiv. now rewrite Rmult_0_l.
  - pose proof (Rmin_l e (SubB.phase_end b)).
    pose proof (Rmax_l s (SubB.phase_start b)). lra.
Qed.

Lemma classify_loop_cons (b : SubB.Baseline) (more : list SubB.Baseline) (s e : R) :
  SubB.classify_loop (b :: more) s e
  = if Rgt_dec (overlap_ratio s e b) 0.5
    then ("matches interval " ++ Np.str (SubB.id b))%string
    else SubB.classify_loop more s e.
Proof. simpl. now rewrite overlap_fraction_ratio. Qed.

(** C6. [classify_interval] names the first baseline, in list order, whose
    overlap ratio strictly exceeds 0.5, and answers "new interval" exactly
    when no baseline qualifies. *)
Theorem classify_interval_first_match (s e : R) :
  (SubB.classify_interval s e = "matches interval 1"
   <-> overlap_ratio s e baseline_1 > 0.5)
  /\ (SubB.classify_interval s e = "matches interval 2"
      <-> ~ overlap_ratio s e baseline_1 > 0.5
          /\ overlap_ratio s e baseline_2 > 0.5)
  /\ (SubB.classify_interval s e = "matches interval 3"
      <-> ~ overlap_ratio s e baseline_1 > 0.5
          /\ ~ overlap_ratio s e baseline_2 > 0.5
          /\ overlap_ratio s e baseline_3 > 0.5)
  /\ (SubB.classify_interval s e = "new interval"
      <-> ~ overlap_ratio s e baseline_1 > 0.5
          /\ ~ overlap_ratio s e baseline_2 > 0.5
          /\ ~ overlap_ratio s e baseline_3 > 0.5).
Proof.
  unfold SubB.classify_interval, SubB.A1B_BASELINE_INTERVALS.
  fold baseline_1 baseline_2 baseline_3.
  rewrite !classify_loop_cons. simpl SubB.classify_loop.
  change (Np.str (SubB.id baseline_1)) with "1".
  change (Np.str (SubB.id baseline_2)) with "2".
  change (Np.str (SubB.id baseline_3)) with "3".
  simpl append.
  destruct (Rgt_dec (overlap_ratio s e baseline_1) 0.5) as [H1|H1];
    [|destruct (Rgt_dec (overlap_ratio s e baseline_2) 0.5) as [H2|H2];
      [|destruct (Rgt_dec (overlap_ratio s e baseline_3) 0.5) as [H3|H3]]];
    repeat split; intros; try discriminate; try tauto.
Qed.

(** ** Degenerate inputs *)

(** C4. On an empty event array [schuster_single_period] returns the
    sentinel record (no events, no clusters, D2 = 0, both p-values 1) instead
    of raising; [mfpa_power] of an empty phase array is 0; and the D2
    statistic with [n = 0] is 0 whatever the sums are, the division being
    guarded. *)
Theorem empty_input_sentinels (period_days dt_cluster cos_sum sin_sum : R) :
  (exists r,
      Schuster.schuster_single_period [] period_days dt_cluster = Some r
      /\ Schuster.n_events r = 0%Z
      /\ Schuster.n_clusters r = 0%Z
      /\ Schuster.D2 r = 0
      /\ Schuster.p_standard r = 1
      /\ Schuster.p_cluster_robust r = 1)
  /\ Mfpa.mfpa_power [] = 0
  /\ Schuster._compute_d2 cos_sum sin_sum 0 = 0.
Proof.
  split; [|split].
  - eexists. split; [reflexivity|]. simpl. repeat split; lra.
  - unfold Mfpa.mfpa_power. simpl. lra.
  - unfold Schuster._compute_d2. simpl. lra.
Qed.

(** ** Cluster assignment *)

Lemma assign_loop_length (rest : list R) :
  forall prev dt c, length (Schuster.assign_loop prev rest dt c) = length rest.
Proof.
  induction rest as [|t rest IH]; intros; simpl; [reflexivity|].
  now rewrite IH.
Qed.

Lemma assign_clusters_length (times : list R) (dt : R) :
  length (Schuster.assign_clusters times dt) = length times.
Proof.
  destruct times; simpl; [reflexivity|]. now rewrite assign_loop_length.
Qed.

(** One step of the sweep: the ID at [i + 1] is the ID at [i], plus one
    exactly when the gap reaches the threshold. *)
Lemma assign_loop_step (rest : list R) :
  forall prev dt c i,
    (S i < length (prev :: rest))%nat ->
    nth (S i) (c :: Schuster.assign_loop prev rest dt c) 0%Z
    = if Rge_dec (nth (S i) (prev :: rest) 0 - nth i (prev :: rest) 0) dt
      then (nth i (c :: Schuster.assign_loop prev rest dt c) 0 + 1)%Z
      else nth i (c :: Schuster.assign_loop prev rest dt c) 0%Z.
Proof.
  induction rest as [|t rest IH]; intros prev dt c i Hi.
  - simpl in Hi. lia.
  - destruct i as [|i].
    + simpl. destruct (Rge_dec (t - prev) dt); reflexivity.
    + change (nth (S (S i)) (c :: Schuster.assign_loop prev (t :: rest) dt c) 0%Z)
        with (nth (S i) (Schuster.assign_loop prev (t :: rest) dt c) 0%Z).
      change (nth (S i) (c :: Schuster.assign_loop prev (t :: rest) dt c) 0%Z)
        with (nth i (Schuster.assign_loop prev (t :: rest) dt c) 0%Z).
      change (nth (S (S i)) (prev :: t :: rest) 0)
        with (nth (S i) (t :: rest) 0).
      change (nth (S i) (prev :: t :: rest) 0) with (nth i (t :: rest) 0).
      simpl Schuster.assign_loop.
      apply IH. simpl in *. lia.
Qed.

Lemma assign_loop_all_gaps (rest : list R) :
  forall prev dt c,
    (forall i, (S i < length (prev :: rest))%nat ->
               nth (S i) (prev :: rest) 0 - nth i (prev :: rest) 0 >= dt) ->
    Schuster.assign_loop prev rest dt c
    = Np.range (c + 1) (c + 1 + Z.of_nat (length rest)).
Proof.
  induction rest as [|t rest IH]; intros prev dt c Hgap.
  - simpl. now rewrite range_nil by lia.
  - simpl Schuster.assign_loop.
    destruct (Rge_dec (t - prev) dt) as [_|Hn].
    + rewrite IH.
      * rewrite (range_cons (c + 1))
          by (change (length (t :: rest)) with (S (length rest)); lia).
        f_equal. f_equal.
        change (length (t :: rest)) with (S (length rest)). lia.
      * intros i Hi. apply (Hgap (S i)). simpl in *. lia.
    + exfalso. apply Hn. apply (Hgap 0%nat). simpl. lia.
Qed.

Lemma range_NoDup (lo hi : Z) : NoDup (Np.range lo hi).
Proof.
  unfold Np.range. apply NoDup_map_inv with (f := fun z => Z.to_nat (z - lo)).
  rewrite map_map.
  rewrite (map_ext _ (fun i => i)) by (intros; lia).
  rewrite map_id. apply seq_NoDup.
Qed.

Lemma range_length (lo hi : Z) : length (Np.range lo hi) = Z.to_nat (hi - lo).
Proof. unfold Np.range. now rewrite length_map, length_seq. Qed.

(** C8. [assign_clusters] gives every event an ID, the first event ID 0, and
    starts a new cluster (the next ID) at index [i + 1] exactly when
    [times[i+1] - times[i] >= dt_cluster].  When every consecutive gap
    reaches the threshold, the IDs are [0, 1, ..., n - 1]: [n] distinct
    clusters, one per event. *)
Theorem assign_clusters_spec (times : list R) (dt_cluster : R) :
  let ids := Schuster.assign_clusters times dt_cluster in
  length ids = length times
  /\ (times <> [] -> nth 0 ids 0%Z = 0%Z)
  /\ (forall i, (S i < length times)%nat ->
        (nth (S i) times 0 - nth i times 0 >= dt_cluster ->
         nth (S i) ids 0%Z = (nth i ids 0 + 1)%Z)
        /\ (~ nth (S i) times 0 - nth i times 0 >= dt_cluster ->
            nth (S i) ids 0%Z = nth i ids 0%Z))
  /\ ((forall i, (S i < length times)%nat ->
         nth (S i) times 0 - nth i times 0 >= dt_cluster) ->
      ids = Np.range 0 (Z.of_nat (length times))
      /\ NoDup ids
      /\ length ids = length times).
Proof.
  intros ids. subst ids.
  split; [apply assign_clusters_length|].
  split; [destruct times; [congruence|reflexivity]|].
  split.
  - intros i Hi. destruct times as [|t0 rest]; [simpl in Hi; lia|].
    unfold Schuster.assign_clusters.
    rewrite (assign_loop_step rest t0 dt_cluster 0 i Hi).
    destruct (Rge_dec (nth (S i) (t0 :: rest) 0 - nth i (t0 :: rest) 0)
                      dt_cluster); split; intros; tauto.
  - intros Hgap.
    assert (Schuster.assign_clusters times dt_cluster
            = Np.range 0 (Z.of_nat (length times))) as ->.
    { destruct times as [|t0 rest]; [reflexivity|].
      unfold Schuster.assign_clusters.
      rewrite (assign_loop_all_gaps rest t0 dt_cluster 0 Hgap).
      rewrite (range_cons 0)
        by (change (length (t0 :: rest)) with (S (length rest)); lia).
      f_equal. f_equal.
      change (length (t0 :: rest)) with (S (length rest)). lia. }
    split; [reflexivity|]. split; [apply range_NoDup|].
    rewrite range_length. lia.
Qed.

(** ** Elevated intervals: the scan of [find_elevated_intervals] *)

Section MaskScan.

Variable mask : list bool.
Variable k : Z.
Hypothesis mask_length : Z.of_nat (length mask) = k.

Lemma mask_lookup (i : Z) :
  (0 <= i < k)%Z ->
  nth_error mask (Z.to_nat i) = Some (nth (Z.to_nat i) mask false).
Proof. intros Hi. apply nth_error_nth'. lia. Qed.

Lemma marked_true (i : Z) :
  (0 <= i < k)%Z -> nth (Z.to_nat i) mask false = true -> marked mask i.
Proof. intros; split; [lia|assumption]. Qed.

Lemma marked_false (i : Z) :
  nth (Z.to_nat i) mask false = false -> ~ marked mask i.
Proof. intros H [_ H']. congruence. Qed.

Lemma marked_range (i : Z) : marked mask i -> (0 <= i < k)%Z.
Proof. intros [H _]. lia. Qed.

(** The inner loop stops at the end of the run that starts at [i]. *)
Lemma extend_run_spec (fuel : nat) :
  forall i,
    (0 <= i <= k)%Z -> (k - i <= Z.of_nat fuel)%Z ->
    exists e,
      B1.extend_run fuel mask k i = Some e
      /\ (i <= e <= k)%Z
      /\ (forall j, (i <= j < e)%Z -> marked mask j)
      /\ ~ marked mask e.
Proof.
  assert (Hstop : forall i, (k <= i)%Z -> ~ marked mask i).
  { intros i Hi Hm. apply marked_range in Hm. lia. }
  assert (Hnone : forall i j, (i <= j < i)%Z -> marked mask j).
  { intros; lia. }
  induction fuel as [|fuel IH]; intros i Hi Hfuel.
  - exists i. simpl. split; [reflexivity|]. split; [lia|].
    split; [apply Hnone|apply Hstop; lia].
  - simpl. destruct (Z.ltb_spec i k) as [Hlt|Hge].
    + rewrite mask_lookup by lia.
      destruct (nth (Z.to_nat i) mask false) eqn:Hb.
      * destruct (IH (i + 1)%Z) as (e & He & Hie & Hall & Hend); [lia|lia|].
        exists e. split; [assumption|]. split; [lia|]. split; [|assumption].
        intros j Hj. destruct (Z.eq_dec j i) as [->|Hne].
        -- apply marked_true; [lia|assumption].
        -- apply Hall. lia.
      * exists i. split; [reflexivity|]. split; [lia|].
        split; [apply Hnone|now apply marked_false].
    + exists i. split; [reflexivity|]. split; [lia|].
      split; [apply Hnone|apply Hstop; lia].
Qed.

Lemma runs_from_nil (i : Z) : (k <= i)%Z -> runs_from mask k i [].
Proof.
  intros Hi. split; [|split].
  - intros s e [].
  - intros j Hj Hm. apply marked_range in Hm. lia.
  - constructor.
Qed.

Lemma scan_bins_spec (bin_width : R) (fuel : nat) :
  forall i intervals,
    (0 <= i <= k)%Z -> (k - i <= Z.of_nat fuel)%Z ->
    (~ marked mask (i - 1)%Z \/ ~ marked mask i) ->
    exists runs,
      B1.scan_bins fuel mask k bin_width i intervals
      = Some (intervals
              ++ map (fun r => B1.interval_of_run bin_width (fst r) (snd r)) runs)
      /\ runs_from mask k i runs.
Proof.
  induction fuel as [|fuel IH]; intros i intervals Hi Hfuel Hpre.
  - exists []. simpl. rewrite app_nil_r. split; [reflexivity|].
    apply runs_from_nil. lia.
  - cbn [B1.scan_bins]. destruct (Z.ltb_spec i k) as [Hlt|Hge].
    + rewrite mask_lookup by lia.
      destruct (nth (Z.to_nat i) mask false) eqn:Hb.
      * destruct (extend_run_spec (S fuel) i) as (e & He & Hie & Hall & Hend);
          [lia|lia|].
        rewrite He. cbn [bind].
        assert (Hmi : marked mask i) by (apply marked_true; [lia|assumption]).
        assert (Hlt' : (i < e)%Z).
        { destruct (Z.eq_dec i e) as [->|]; [contradiction|lia]. }
        destruct (IH e (intervals ++ [B1.interval_of_run bin_width i e]))
          as (runs & Hruns & Hfrom); [lia|lia|now right|].
        exists ((i, e) :: runs). split.
        { rewrite Hruns, <- app_assoc. reflexivity. }
        destruct Hfrom as (H1 & H2 & H3).
        assert (Hstart : forall s' e', In (s', e') runs -> (e < s')%Z).
        { intros s' e' Hin. destruct (H1 s' e' Hin) as (Hs & _ & Hin' & _).
          destruct (Z.eq_dec e s') as [->|]; [|lia].
          exfalso. apply Hend. apply Hin'. lia. }
        split; [|split].
        -- intros s0 e0 [Heq|Hin].
           ++ injection Heq as <- <-.
              split; [lia|]. split; [lia|]. split; [assumption|].
              split; [|assumption].
              destruct Hpre; [assumption|contradiction].
           ++ destruct (H1 s0 e0 Hin) as (Ha & Hb' & Hc & Hd & He').
              split; [lia|]. split; [lia|]. split; [assumption|].
              split; assumption.
        -- intros j Hj Hm. destruct (Z_lt_le_dec j e) as [Hje|Hje].
           ++ exists i, e. split; [now left|lia].
           ++ destruct (H2 j Hje Hm) as (s' & e' & Hin & Hr).
              exists s', e'. split; [now right|assumption].
        -- constructor; [assumption|].
           apply Forall_forall. intros [s' e'] Hin. simpl.
           now apply (Hstart s' e').
      * destruct (IH (i + 1)%Z intervals) as (runs & Hruns & Hfrom);
          [lia|lia| |].
        { left. replace (i + 1 - 1)%Z with i by lia. now apply marked_false. }
        exists runs. split; [assumption|].
        destruct Hfrom as (H1 & H2 & H3). split; [|split]; [| |assumption].
        -- intros s0 e0 Hin.
           destruct (H1 s0 e0 Hin) as (Ha & Hb' & Hc & Hd & He').
           split; [lia|]. split; [lia|]. split; [assumption|].
           split; assumption.
        -- intros j Hj Hm. destruct (Z.eq_dec j i) as [->|Hne].
           ++ exfalso. revert Hm. now apply marked_false.
           ++ apply H2; [lia|assumption].
    + exists []. simpl. rewrite app_nil_r. split; [reflexivity|].
      apply runs_from_nil. lia.
Qed.

End MaskScan.

(** ** Elevated intervals: [identify_elevated_bins] and [merge_adjacent_bins] *)

Lemma inclusive_runs_ext (lo : Z) (Q Q' : Z -> Prop) (runs : list (Z * Z)) :
  (forall j, Q j <-> Q' j) -> inclusive_runs lo Q runs -> inclusive_runs lo Q' runs.
Proof.
  intros Heq (H1 & H2 & H3). split; [|split]; [| |assumption].
  - intros s e Hin. destruct (H1 s e Hin) as (Ha & Hb & Hc & Hd).
    split; [assumption|]. split; [|split].
    + intros j Hj. apply Heq. now apply Hb.
    + intros Hq. apply Hc. now apply Heq.
    + intros Hq. apply Hd. now apply Heq.
  - intros j Hq. apply H2. now apply Heq.
Qed.

Lemma sorted_head_lt (x : Z) (l : list Z) :
  StronglySorted Z.lt (x :: l) -> forall y, In y l -> (x < y)%Z.
Proof.
  intros H y Hy. apply StronglySorted_inv in H as [_ H].
  rewrite Forall_forall in H. now apply H.
Qed.

Lemma merge_loop_runs (rest : list Z) :
  forall start prev merged,
    (start <= prev)%Z ->
    StronglySorted Z.lt (prev :: rest) ->
    exists runs,
      SubB.merge_loop rest start prev merged = merged ++ runs
      /\ inclusive_runs start
           (fun j => (start <= j <= prev)%Z \/ In j rest) runs.
Proof.
  induction rest as [|idx rest IH]; intros start prev merged Hle Hsorted.
  - exists [(start, prev)]. split; [reflexivity|]. split; [|split].
    + intros s e [Heq|[]]. injection Heq as <- <-.
      split; [lia|]. split; [|split].
      * intros j Hj. now left.
      * intros [H|[]]. lia.
      * intros [H|[]]. lia.
    + intros j [Hj|[]]. exists start, prev. split; [now left|assumption].
    + repeat constructor.
  - pose proof (sorted_head_lt _ _ Hsorted) as Hprev.
    assert (Hsorted' : StronglySorted Z.lt (idx :: rest)).
    { now apply StronglySorted_inv in Hsorted as [? _]. }
    pose proof (sorted_head_lt _ _ Hsorted') as Hidx.
    assert (Hpi : (prev < idx)%Z) by (apply Hprev; now left).
    simpl. destruct (Z.eqb_spec idx (prev + 1)) as [Heq|Hne].
    + destruct (IH start idx merged) as (runs & Hruns & Hspec);
        [lia|assumption|].
      exists runs. split; [assumption|].
      revert Hspec. apply inclusive_runs_ext.
      intros j. simpl. split.
      * intros [H|H]; [|tauto].
        destruct (Z.eq_dec j idx); [right; left; congruence|left; lia].
      * intros [H|[H|H]]; [left; lia|left; lia|now right].
    + destruct (IH idx idx (merged ++ [(start, prev)])) as (runs & Hruns & Hspec);
        [lia|assumption|].
      exists ((start, prev) :: runs). split.
      { rewrite Hruns, <- app_assoc. reflexivity. }
      destruct Hspec as (H1 & H2 & H3).
      split; [|split].
      * intros s e [Heq|Hin].
        -- injection Heq as <- <-. split; [lia|]. split; [|split].
           ++ intros j Hj. now left.
           ++ intros [H|[H|H]]; [lia|lia|]. apply Hidx in H. lia.
           ++ intros [H|[H|H]]; [lia|lia|]. apply Hidx in H. lia.
        -- destruct (H1 s e Hin) as (Ha & Hb & Hc & Hd).
           split; [lia|]. split; [|split].
           ++ intros j Hj. destruct (Hb j Hj) as [H|H];
                [right; left; lia|right; now right].
           ++ intros [H|[H|H]]; [lia| |]; apply Hc; [left; lia|now right].
           ++ intros [H|[H|H]]; [lia| |]; apply Hd; [left; lia|now right].
      * intros j [Hj|[Hj|Hj]].
        -- exists start, prev. split; [now left|assumption].
        -- destruct (H2 j) as (s & e & Hin & Hr); [left; lia|].
           exists s, e. split; [now right|assumption].
        -- destruct (H2 j) as (s & e & Hin & Hr); [now right|].
           exists s, e. split; [now right|assumption].
      * constructor; [assumption|].
        apply Forall_forall. intros [s e] Hin. simpl.
        destruct (H1 s e Hin) as (Ha & _). lia.
Qed.

Lemma merge_adjacent_bins_runs (elevated : list Z) (k : Z) :
  StronglySorted Z.lt elevated ->
  forall lo, (forall j, In j elevated -> (lo <= j)%Z) ->
  inclusive_runs lo (fun j => In j elevated)
                 (SubB.merge_adjacent_bins elevated k).
Proof.
  intros Hsorted lo Hlo. destruct elevated as [|e0 rest].
  - split; [|split].
    + intros s e [].
    + intros j [].
    + constructor.
  - unfold SubB.merge_adjacent_bins.
    destruct (merge_loop_runs rest e0 e0 [] (Z.le_refl e0) Hsorted)
      as (runs & -> & H1 & H2 & H3).
    simpl app. split; [|split]; [| |assumption].
    + intros s e Hin. destruct (H1 s e Hin) as (Ha & Hb & Hc & Hd).
      split; [|split; [|split]].
      * specialize (Hlo e0 (or_introl eq_refl)). lia.
      * intros j Hj. destruct (Hb j Hj) as [H|H]; [left; lia|now right].
      * intros [H|H]; apply Hc; [left; lia|now right].
      * intros [H|H]; apply Hd; [left; lia|now right].
    + intros j [Hj|Hj]; apply H2; [left; lia|now right].
Qed.

Lemma range_sorted (lo hi : Z) : StronglySorted Z.lt (Np.range lo hi).
Proof.
  unfold Np.range. generalize (Z.to_nat (hi - lo)) as n. intros n.
  revert lo. induction n as [|n IH]; intros lo; simpl; [constructor|].
  constructor.
  - rewrite <- seq_shift, map_map.
    rewrite (map_ext _ (fun i => (lo + 1 + Z.of_nat i)%Z)) by (intros; lia).
    apply IH.
  - apply Forall_forall. intros y Hy. apply in_map_iff in Hy as (i & <- & Hi).
    apply in_seq in Hi. lia.
Qed.

Lemma filter_sorted (f : Z -> bool) (l : list Z) :
  StronglySorted Z.lt l -> StronglySorted Z.lt (filter f l).
Proof.
  induction 1 as [|x l Hs IH Hall]; simpl; [constructor|].
  destruct (f x); [|assumption].
  constructor; [assumption|].
  rewrite Forall_forall in *. intros y Hy. apply Hall.
  now apply filter_In in Hy as [? _].
Qed.

Lemma gtb_true (x y : R) : Np.gtb x y = true <-> x > y.
Proof. unfold Np.gtb. destruct (Rgt_dec x y); split; intros; congruence || tauto. Qed.

Lemma identify_elevated_bins_spec (obs : list R) (expected : R) :
  0 <= expected ->
  StronglySorted Z.lt (SubB.identify_elevated_bins obs expected)
  /\ forall i, In i (SubB.identify_elevated_bins obs expected)
               <-> elevated obs expected i.
Proof.
  intros HE. unfold SubB.identify_elevated_bins.
  destruct (Rlt_dec expected 0) as [Hneg|_]; [lra|].
  split.
  - apply filter_sorted, range_sorted.
  - intros i. rewrite filter_In, in_range, gtb_true. unfold elevated. tauto.
Qed.

Lemma maximal_runs_ext (P P' : Z -> Prop) (k : Z) (runs : list (Z * Z)) :
  (forall j, P j <-> P' j) -> maximal_runs P k runs -> maximal_runs P' k runs.
Proof.
  intros Heq (H1 & H2 & H3). split; [|split]; [| |assumption].
  - intros s e Hin. destruct (H1 s e Hin) as (Ha & Hb & Hc & Hd & He).
    split; [assumption|]. split; [assumption|]. split; [|split].
    + intros j Hj. apply Heq. now apply Hc.
    + intros Hq. apply Hd. now apply Heq.
    + intros Hq. apply He. now apply Heq.
  - intros j Hq. apply H2. now apply Heq.
Qed.

(** A maximal run holds bin 0 and bin [k - 1] together only when every bin
    satisfies [P]: the two ends of the bin axis are never joined across the
    boundary. *)
Lemma maximal_runs_no_wrap (P : Z -> Prop) (k : Z) (runs : list (Z * Z)) :
  maximal_runs P k runs ->
  forall s e, In (s, e) runs -> (s <= 0 < e)%Z -> (s <= k - 1 < e)%Z ->
              forall j, (0 <= j < k)%Z -> P j.
Proof.
  intros (H1 & _) s e Hin H0 Hk j Hj.
  destruct (H1 s e Hin) as (_ & _ & Hall & _). apply Hall. lia.
Qed.

Lemma nth_map_in {A B : Type} (f : A -> B) (l : list A) (n : nat) (d : A) (d' : B) :
  (n < length l)%nat -> nth n (map f l) d' = f (nth n l d).
Proof.
  revert n. induction l as [|a l IH]; intros n Hn; simpl in *; [lia|].
  destruct n; [reflexivity|]. apply IH. lia.
Qed.

Lemma elevated_mask_marked (bin_counts : list R) (expected : R) :
  0 <= expected ->
  forall i, marked (B1.elevated_mask bin_counts expected) i
            <-> elevated bin_counts expected i.
Proof.
  intros HE i. unfold marked, elevated, B1.elevated_mask.
  rewrite length_map.
  split; intros [Hi H]; (split; [assumption|]).
  - rewrite (nth_map_in _ _ _ 0) in H by lia.
    destruct (Rlt_dec expected 0); [discriminate|]. now apply gtb_true.
  - rewrite (nth_map_in _ _ _ 0) by lia.
    destruct (Rlt_dec expected 0); [lra|]. now apply gtb_true.
Qed.

Lemma inclusive_runs_maximal (P : Z -> Prop) (k : Z) (runs : list (Z * Z)) :
  (forall j, P j -> (0 <= j < k)%Z) ->
  inclusive_runs 0 P runs ->
  maximal_runs P k (map (fun r => (fst r, (snd r + 1)%Z)) runs).
Proof.
  intros Hrange (H1 & H2 & H3). split; [|split].
  - intros s e Hin. apply in_map_iff in Hin as ([s' e'] & Heq & Hin).
    simpl in Heq. injection Heq as <- <-.
    destruct (H1 s' e' Hin) as (Ha & Hb & Hc & Hd).
    assert (P e') by (apply Hb; lia). apply Hrange in H.
    split; [lia|]. split; [lia|]. split; [|split; assumption].
    intros j Hj. apply Hb. lia.
  - intros j Hj. destruct (H2 j Hj) as (s & e & Hin & Hr).
    exists s, (e + 1)%Z. split; [|lia].
    apply in_map_iff. exists (s, e). split; [reflexivity|assumption].
  - clear H1 H2. induction H3 as [|r runs Hs IH Hall]; simpl; constructor.
    + assumption.
    + rewrite Forall_forall in *. intros r' Hin.
      apply in_map_iff in Hin as (r0 & <- & Hin). simpl. now apply Hall.
Qed.

(** C5. A bin is marked elevated exactly when its count exceeds
    [n/k + sqrt (n/k)], by the mask of [find_elevated_intervals] and by
    [identify_elevated_bins] alike; the intervals [find_elevated_intervals]
    returns are the maximal runs of consecutive elevated bins, and so are the
    ranges [merge_adjacent_bins] returns (with inclusive ends).  No run
    crosses the end of the bin axis: bin [k - 1] and bin 0 lie in one run
    only if every bin is elevated. *)
Theorem elevated_intervals_maximal_runs (bin_counts : list R) (k n : Z) :
  (0 < k)%Z -> (0 <= n)%Z -> Z.of_nat (length bin_counts) = k ->
  let expected := IZR n / IZR k in
  (forall i, marked (B1.elevated_mask bin_counts expected) i
             <-> elevated bin_counts expected i)
  /\ (forall i, In i (SubB.identify_elevated_bins bin_counts expected)
                <-> elevated bin_counts expected i)
  /\ (exists runs,
         B1.find_elevated_intervals bin_counts k n
         = Some (map (fun r => B1.interval_of_run (1.0 / IZR k) (fst r) (snd r))
                     runs)
         /\ maximal_runs (elevated bin_counts expected) k runs
         /\ (forall s e, In (s, e) runs -> (s <= 0 < e)%Z -> (s <= k - 1 < e)%Z ->
               forall j, (0 <= j < k)%Z -> elevated bin_counts expected j))
  /\ (let merged := SubB.merge_adjacent_bins
                      (SubB.identify_elevated_bins bin_counts expected) k in
      maximal_runs (elevated bin_counts expected) k
                   (map (fun r => (fst r, (snd r + 1)%Z)) merged)
      /\ (forall s e, In (s, e) merged -> (s <= 0 <= e)%Z -> (s <= k - 1 <= e)%Z ->
            forall j, (0 <= j < k)%Z -> elevated bin_counts expected j)).
Proof.
  intros Hk Hn Hlen expected.
  assert (HE : 0 <= expected).
  { unfold expected, Rdiv. apply Rmult_le_pos.
    - now apply IZR_le.
    - left. apply Rinv_0_lt_compat. now apply IZR_lt. }
  pose proof (elevated_mask_marked bin_counts expected HE) as Hmask.
  destruct (identify_elevated_bins_spec bin_counts expected HE) as (Hsorted & Hin).
  split; [assumption|]. split; [assumption|]. split.
  - unfold B1.find_elevated_intervals.
    destruct (Z.eqb_spec k 0) as [->|_]; [lia|].
    fold expected.
    assert (Hml : Z.of_nat (length (B1.elevated_mask bin_counts expected)) = k).
    { unfold B1.elevated_mask. now rewrite length_map. }
    destruct (scan_bins_spec (B1.elevated_mask bin_counts expected) k Hml
                (1.0 / IZR k) (Z.to_nat k) 0 [])
      as (runs & Hruns & H1 & H2 & H3); [lia|lia| |].
    { left. intros Hm. apply (marked_range _ _ Hml) in Hm. lia. }
    exists runs. split; [exact Hruns|].
    assert (Hmax : maximal_runs (elevated bin_counts expected) k runs).
    { apply (maximal_runs_ext (marked (B1.elevated_mask bin_counts expected)));
        [assumption|].
      split; [|split]; [assumption| |assumption].
      intros j Hj. apply H2; [|assumption].
      apply (marked_range _ _ Hml) in Hj. lia. }
    split; [assumption|]. now apply maximal_runs_no_wrap.
  - intros merged.
    assert (Hmax : maximal_runs (elevated bin_counts expected) k
                     (map (fun r => (fst r, (snd r + 1)%Z)) merged)).
    { apply inclusive_runs_maximal.
      - intros j [Hj _]. lia.
      - apply (inclusive_runs_ext 0
                 (fun j => In j (SubB.identify_elevated_bins bin_counts expected)));
          [assumption|].
        apply merge_adjacent_bins_runs; [assumption|].
        intros j Hj. apply Hin in Hj as [Hj _]. lia. }
    split; [assumption|].
    intros s e Hse H0 Hk1.
    apply (maximal_runs_no_wrap _ _ _ Hmax s (e + 1)%Z); [|lia|lia].
    apply in_map_iff. exists (s, e). split; [reflexivity|assumption].
Qed.

(** ** Harmonic consistency labels *)

Lemma fmod_1 (x : R) : Np.fmod x 1.0 = x - IZR (Zfloor x).
Proof.
  unfold Np.fmod. replace (x / 1.0) with x by lra. lra.
Qed.

Lemma leb_true (x y : R) : Np.leb x y = true <-> x <= y.
Proof. unfold Np.leb. destruct (Rle_dec x y); split; intros; congruence || tauto. Qed.

Lemma in_interval_true (x lo hi : R) :
  in_interval x (lo, hi) = true <-> lo <= x <= hi.
Proof.
  unfold in_interval. simpl. rewrite andb_true_iff, !leb_true. tauto.
Qed.

Lemma mark_hits_default (phase : R) (a b c : bool) :
  Mfpa.mark_hits phase Mfpa.A1B_INTERVALS 0 [a; b; c]
  = Some [a || in_interval phase (0.1875, 0.25);
          b || in_interval phase (0.625, 0.656);
          c || in_interval phase (0.875, 0.917)].
Proof.
  unfold Mfpa.A1B_INTERVALS, in_interval.
  cbn [Mfpa.mark_hits fst snd].
  destruct (Np.leb 0.1875 phase && Np.leb phase 0.25);
    destruct (Np.leb 0.625 phase && Np.leb phase 0.656);
    destruct (Np.leb 0.875 phase && Np.leb phase 0.917);
    destruct a, b, c; reflexivity.
Qed.

Lemma mark_all_default (phases : list R) :
  forall a b c,
    Mfpa.mark_all phases Mfpa.A1B_INTERVALS [a; b; c]
    = Some [a || existsb (fun x => in_interval x (0.1875, 0.25)) phases;
            b || existsb (fun x => in_interval x (0.625, 0.656)) phases;
            c || existsb (fun x => in_interval x (0.875, 0.917)) phases].
Proof.
  induction phases as [|x phases IH]; intros a b c.
  - simpl. now rewrite !orb_false_r.
  - cbn [Mfpa.mark_all]. rewrite mark_hits_default. cbn [bind].
    rewrite IH. cbn [existsb]. now rewrite !orb_assoc.
Qed.

(** The overflow threshold is far above any quotient of the scans. *)
Lemma float_overflow_large : 2 ^ 20 <= Np.FLOAT_OVERFLOW.
Proof.
  unfold Np.FLOAT_OVERFLOW.
  assert (H53 : 1 <= 2 ^ 53) by (apply pow_R1_Rle; lra).
  assert (Hinv : / 2 ^ 53 <= 1).
  { rewrite <- Rinv_1. apply Rinv_le_contravar; lra. }
  assert (Hpow : 2 ^ 20 <= 2 ^ 1023) by (apply Rle_pow; [lra|lia]).
  assert (H20 : 0 < 2 ^ 20) by (apply pow_lt; lra).
  nra.
Qed.

Lemma int_some (x : R) :
  Rabs x < Np.FLOAT_OVERFLOW ->
  Np.int x = Some (if Rle_dec 0 x then Zfloor x else Zceil x).
Proof.
  intros H. unfold Np.int.
  destruct (Rle_dec Np.FLOAT_OVERFLOW (Rabs x)); [lra|reflexivity].
Qed.

Lemma predicted_phases_spec (period_days : R) :
  0 < period_days -> 365.25 / period_days < Np.FLOAT_OVERFLOW ->
  exists predicted,
    Mfpa.predicted_phases period_days = Some predicted
    /\ forall x, In x predicted
                 <-> exists k, (0 <= k <= Z.max 1 (Zfloor (365.25 / period_days)))%Z
                               /\ x = harmonic_phase period_days k.
Proof.
  intros Hp Hover. unfold Mfpa.predicted_phases, harmonic_phase.
  assert (Hq : 0 < 365.25 / period_days) by (apply Rdiv_lt_0_compat; lra).
  rewrite int_some by (rewrite Rabs_pos_eq; lra).
  destruct (Rle_dec 0 (365.25 / period_days)) as [_|Hn]; [|lra].
  cbn [bind]. eexists. split; [reflexivity|].
  intros x. rewrite in_map_iff. split.
  - intros (k & <- & Hk). apply in_range in Hk. exists k. split; [lia|].
    unfold Np.fmod. replace 1.0 with 1 by lra. reflexivity.
  - intros (k & Hk & ->). exists k. split.
    + unfold Np.fmod. replace 1.0 with 1 by lra. reflexivity.
    + apply in_range. lia.
Qed.

Lemma existsb_harmonic (period_days lo hi : R) (predicted : list R) :
  (forall x, In x predicted
             <-> exists k, (0 <= k <= Z.max 1 (Zfloor (365.25 / period_days)))%Z
                           /\ x = harmonic_phase period_days k) ->
  existsb (fun x => in_interval x (lo, hi)) predicted = true
  <-> exists k, (0 <= k <= Z.max 1 (Zfloor (365.25 / period_days)))%Z
                /\ lo <= harmonic_phase period_days k <= hi.
Proof.
  intros Hspec. rewrite existsb_exists. split.
  - intros (x & Hx & Hin). apply Hspec in Hx as (k & Hk & ->).
    exists k. split; [assumption|]. now apply in_interval_true.
  - intros (k & Hk & Hin). exists (harmonic_phase period_days k). split.
    + apply Hspec. now exists k.
    + now apply in_interval_true.
Qed.

(** The harmonics of a 438.3-day period: one year holds no full cycle, the
    phase of harmonic 0 is 0 and the phase of harmonic 1 is 0.2. *)
Lemma harmonics_438 :
  Zfloor (365.25 / 438.3) = 0%Z
  /\ harmonic_phase 438.3 0 = 0
  /\ harmonic_phase 438.3 1 = 0.2.
Proof.
  split; [apply Zfloor_eq; lra|]. unfold harmonic_phase, Np.fmod. split.
  - replace (0 * 438.3 / 365.25 / 1) with 0 by lra.
    rewrite (Zfloor_eq 0 0) by lra. lra.
  - replace (1 * 438.3 / 365.25 / 1) with 1.2 by lra.
    rewrite (Zfloor_eq 1 1.2) by lra. lra.
Qed.

Lemma no_overflow_438 : 365.25 / 438.3 < Np.FLOAT_OVERFLOW.
Proof.
  pose proof float_overflow_large as H.
  assert (1 <= 2 ^ 20) by (apply pow_R1_Rle; lra). lra.
Qed.

(** C2. At 438.3 days one year holds no full cycle.  The harmonics of the
    claim (and of the docstring), [k = 0 .. floor (365.25 / period)], are
    then [k = 0] alone, whose phase 0 lies in no baseline interval.  The
    code takes [max (1, ...)] harmonics: it predicts the phases of [k = 0]
    and [k = 1], the second one, 0.2, lies in interval 1, and the label is
    "consistent with interval 1 only". *)
Theorem a1b_label_438_divergence :
  Zfloor (365.25 / 438.3) = 0%Z
  /\ (forall k iv, (0 <= k <= Zfloor (365.25 / 438.3))%Z ->
                   In iv Mfpa.A1B_INTERVALS ->
                   in_interval (harmonic_phase 438.3 k) iv = false)
  /\ Mfpa.predicted_phases 438.3 = Some [0; 0.2]
  /\ Mfpa.a1b_consistency_label 438.3 None
     = Some "consistent with interval 1 only".
Proof.
  destruct harmonics_438 as (Hfl & H0 & H1).
  assert (Hp : 0 < 438.3) by lra.
  assert (Hpred : Mfpa.predicted_phases 438.3 = Some [0; 0.2]).
  { unfold Mfpa.predicted_phases.
    rewrite int_some
      by (rewrite Rabs_pos_eq; [apply no_overflow_438|lra]).
    destruct (Rle_dec 0 (365.25 / 438.3)) as [_|Hn]; [|lra].
    rewrite Hfl. cbn [bind].
    change (Np.range 0 (Z.max 1 0 + 1)) with [0%Z; 1%Z]. cbn [map].
    unfold harmonic_phase in H0, H1.
    assert (E0 : Np.fmod (0 * 438.3 / 365.25) 1.0 = 0).
    { etransitivity; [|exact H0].
      unfold Np.fmod. replace 1.0 with 1 by lra. reflexivity. }
    assert (E1 : Np.fmod (1 * 438.3 / 365.25) 1.0 = 0.2).
    { etransitivity; [|exact H1].
      unfold Np.fmod. replace 1.0 with 1 by lra. reflexivity. }
    change (IZR 0) with 0. change (IZR 1) with 1.
    rewrite E0, E1. reflexivity. }
  split; [exact Hfl|]. split; [|split; [exact Hpred|]].
  - intros k iv Hk Hiv. rewrite Hfl in Hk. assert (k = 0%Z) as -> by lia.
    rewrite H0. apply not_true_is_false. intros Hin.
    unfold Mfpa.A1B_INTERVALS in Hiv.
    destruct Hiv as [<-|[<-|[<-|[]]]]; apply in_interval_true in Hin; lra.
  - unfold Mfpa.a1b_consistency_label.
    destruct (Req_dec_T 438.3 0) as [Hz|_]; [lra|].
    rewrite Hpred. cbn [bind]. rewrite mark_all_default. cbn [bind existsb orb].
    replace (in_interval 0 (0.1875, 0.25)) with false
      by (symmetry; apply not_true_is_false; intros H;
          apply in_interval_true in H; lra).
    replace (in_interval 0.2 (0.1875, 0.25)) with true
      by (symmetry; apply in_interval_true; lra).
    replace (in_interval 0 (0.625, 0.656)) with false
      by (symmetry; apply not_true_is_false; intros H;
          apply in_interval_true in H; lra).
    replace (in_interval 0.2 (0.625, 0.656)) with false
      by (symmetry; apply not_true_is_false; intros H;
          apply in_interval_true in H; lra).
    replace (in_interval 0 (0.875, 0.917)) with false
      by (symmetry; apply not_true_is_false; intros H;
          apply in_interval_true in H; lra).
    replace (in_interval 0.2 (0.875, 0.917)) with false
      by (symmetry; apply not_true_is_false; intros H;
          apply in_interval_true in H; lra).
    reflexivity.
Qed.

(** ** Option-valued loops *)

Lemma mapM_some {A B : Type} (f : A -> option B) (g : A -> B) (l : list A) :
  (forall a, In a l -> f a = Some (g a)) -> mapM f l = Some (map g l).
Proof.
  induction l as [|a l IH]; intros H; simpl; [reflexivity|].
  rewrite (H a) by now left. simpl.
  rewrite IH by (intros; apply H; now right). reflexivity.
Qed.

(** ** Phases *)

(** The phase angle of one event time. *)
Lemma compute_phases_some (times : list R) (period_days : R) :
  period_days <> 0 ->
  Schuster.compute_phases times period_days
  = Some (map (event_phase period_days) times).
Proof.
  intros Hp. unfold Schuster.compute_phases. apply mapM_some.
  intros t _. unfold Np.mod_.
  destruct (Req_dec_T period_days 0); [contradiction|reflexivity].
Qed.

(** ** The D2 statistic and its p-value *)

Lemma compute_d2_nonneg (cos_sum sin_sum : R) (n : Z) :
  (0 <= n)%Z -> 0 <= Schuster._compute_d2 cos_sum sin_sum n.
Proof.
  intros Hn. unfold Schuster._compute_d2.
  destruct (Z.eqb_spec n 0) as [_|Hne]; [lra|].
  assert (0 < IZR n) by (apply IZR_lt; lia).
  apply Rmult_le_pos; [nra|]. left. now apply Rinv_0_lt_compat.
Qed.

Lemma exp_neg_unit (x : R) : 0 <= x -> 0 < exp (- x) <= 1.
Proof.
  intros Hx. split; [apply exp_pos|].
  rewrite <- exp_0. destruct Hx as [Hx| <-].
  - left. apply exp_increasing. lra.
  - rewrite Ropp_0. lra.
Qed.

Lemma exp_neg_mult_unit (a b : R) : 0 <= a -> 0 <= b -> 0 < exp (- a * b) <= 1.
Proof.
  intros Ha Hb. replace (- a * b) with (- (a * b)) by ring.
  apply exp_neg_unit. now apply Rmult_le_pos.
Qed.

Lemma standard_p_unit (d2 : R) :
  0 <= d2 -> 0 < Schuster._standard_p_from_d2 d2 <= 1.
Proof. apply exp_neg_unit. Qed.

(** ** Clusters are contiguous and non-empty *)

(** Every ID between the first and the last one is carried by some event. *)
Lemma assign_loop_covers (rest : list R) :
  forall prev dt c,
    let ids := c :: Schuster.assign_loop prev rest dt c in
    (c <= last ids 0)%Z
    /\ (forall v, (c <= v <= last ids 0)%Z -> In v ids)
    /\ (forall v, In v ids -> (c <= v <= last ids 0)%Z).
Proof.
  induction rest as [|t rest IH]; intros prev dt c ids; subst ids.
  - simpl. split; [lia|]. split.
    + intros v Hv. left. lia.
    + intros v [<-|[]]. lia.
  - cbn [Schuster.assign_loop].
    set (c' := if Rge_dec (t - prev) dt then (c + 1)%Z else c).
    assert (Hc : (c' = c \/ c' = c + 1)%Z).
    { subst c'. destruct (Rge_dec (t - prev) dt); [now right|now left]. }
    destruct (IH t dt c') as (Hle & Hcov & Hin).
    change (last (c :: c' :: Schuster.assign_loop t rest dt c') 0%Z)
      with (last (c' :: Schuster.assign_loop t rest dt c') 0%Z).
    split; [lia|]. split.
    + intros v Hv. destruct (Z.eq_dec v c) as [->|Hne]; [now left|].
      right. apply Hcov. lia.
    + intros v [<-|Hv]; [lia|]. apply Hin in Hv. lia.
Qed.

Lemma assign_clusters_covers (times : list R) (dt : R) :
  times <> [] ->
  let ids := Schuster.assign_clusters times dt in
  (0 <= last ids 0)%Z
  /\ forall v, In v ids <-> (0 <= v <= last ids 0)%Z.
Proof.
  intros Hne. destruct times as [|t0 rest]; [congruence|].
  unfold Schuster.assign_clusters.
  destruct (assign_loop_covers rest t0 dt 0) as (Hle & Hcov & Hin).
  split; [assumption|]. intros v. split; [apply Hin|apply Hcov].
Qed.

Lemma select_length (cid : Z) (ids : list Z) :
  forall phases : list R,
    length ids = length phases ->
    length (Np.select (map (Z.eqb cid) ids) phases) = count_occ Z.eq_dec ids cid.
Proof.
  induction ids as [|id ids IH]; intros [|ph phases] Hlen; simpl in *;
    try reflexivity; try lia.
  destruct (Z.eqb_spec cid id) as [->|Hne].
  - destruct (Z.eq_dec id id); [|congruence]. simpl. f_equal. apply IH. lia.
  - destruct (Z.eq_dec id cid); [congruence|]. apply IH. lia.
Qed.

Lemma select_nonempty (cid : Z) (ids : list Z) (phases : list R) :
  length ids = length phases -> In cid ids ->
  Np.select (map (Z.eqb cid) ids) phases <> [].
Proof.
  intros Hlen Hin Hnil.
  apply (count_occ_In Z.eq_dec) in Hin.
  rewrite <- (select_length cid ids phases Hlen), Hnil in Hin. simpl in Hin. lia.
Qed.

Lemma mean_some (xs : list R) :
  xs <> [] -> Np.mean xs = Some (Np.sum xs / INR (length xs)).
Proof. destruct xs; [congruence|reflexivity]. Qed.

Lemma cluster_unit_some (ids : list Z) (phases : list R) (cid : Z) :
  length ids = length phases -> In cid ids ->
  Schuster.cluster_unit ids phases cid = Some (unit_of ids phases cid).
Proof.
  intros Hlen Hin. unfold Schuster.cluster_unit, unit_of.
  pose proof (select_nonempty cid ids phases Hlen Hin) as Hne.
  rewrite !mean_some by (intros H; apply map_eq_nil in H; contradiction).
  cbn [bind]. now rewrite !length_map.
Qed.

(** The run of [schuster_single_period] on a non-empty array, spelled out. *)
Lemma schuster_nonempty (times : list R) (period_days dt : R) :
  times <> [] -> period_days <> 0 ->
  let phases :=
    map (event_phase period_days) times in
  let ids := Schuster.assign_clusters times dt in
  let n_clusters := (last ids 0 + 1)%Z in
  let units := map (unit_of ids phases) (Np.range 0 n_clusters) in
  Schuster.schuster_single_period times period_days dt
  = Some (Schuster.mkResult
            (Z.of_nat (length times)) n_clusters
            (Schuster._compute_d2 (Np.sum (map cos phases))
                                  (Np.sum (map sin phases))
                                  (Z.of_nat (length times)))
            (Schuster._standard_p_from_d2
               (Schuster._compute_d2 (Np.sum (map cos phases))
                                     (Np.sum (map sin phases))
                                     (Z.of_nat (length times))))
            (Schuster._standard_p_from_d2
               (Schuster._compute_d2 (Np.sum (map fst units))
                                     (Np.sum (map snd units))
                                     n_clusters))).
Proof.
  intros Hne Hp phases ids n_clusters units.
  unfold Schuster.schuster_single_period.
  assert (Hn : (0 < Z.of_nat (length times))%Z).
  { destruct times; [congruence|]. simpl length. lia. }
  destruct (Z.eqb_spec (Z.of_nat (length times)) 0) as [H0|_]; [lia|].
  rewrite (compute_phases_some times period_days Hp). cbn [bind].
  fold phases.
  destruct (Z.gtb_spec (Z.of_nat (length times)) 0) as [_|Hle]; [|lia].
  fold ids. fold n_clusters.
  rewrite (mapM_some _ (unit_of ids phases)).
  - reflexivity.
  - intros cid Hcid. apply in_range in Hcid.
    apply cluster_unit_some.
    + subst ids phases. now rewrite assign_clusters_length, length_map.
    + apply (assign_clusters_covers times dt Hne). fold ids. lia.
Qed.

(** ** p-values *)

(** C10. The claim fails on the Rayleigh test of an empty phase array.
    [compute_rayleigh] takes the means of two empty arrays, which are NaN,
    and returns NaN for R, for the p-value and for the mean phase: no
    number of (0, 1].  The sibling functions guard the empty case: the D2
    statistic with [n = 0] is 0, the Schuster p-values of an empty event
    array are 1, the MFPA power of an empty phase array is 0 and the
    coherence of an interval without events is 0. *)
Theorem rayleigh_empty_unguarded
        (cos_sum sin_sum period_days dt_cluster phase_start phase_end : R) :
  Np.mean (map cos (map (fun ph => 2.0 * PI * ph) [])) = None
  /\ B1.compute_rayleigh [] = None
  /\ Schuster._compute_d2 cos_sum sin_sum 0 = 0.0
  /\ Schuster.schuster_single_period [] period_days dt_cluster
     = Some (Schuster.mkResult 0 0 0.0 1.0 1.0)
  /\ Mfpa.mfpa_power [] = 0.0
  /\ SubBPhase.compute_interval_coherence [] phase_start phase_end
     = Some 0.0.
Proof. repeat split; reflexivity. Qed.

(** ** The direction of a unit vector *)

(** [arctan2] recovers the direction of a unit vector [(x, y)]. *)
Lemma arctan2_unit (x y : R) :
  x * x + y * y = 1 ->
  cos (Np.arctan2 y x) = x /\ sin (Np.arctan2 y x) = y.
Proof.
  intros H. unfold Np.arctan2.
  assert (Hsq : x <> 0 -> 1 + (y / x)² = Rsqr (/ x)).
  { intros Hx. replace (1 + (y / x)²) with ((x * x + y * y) * Rsqr (/ x))
      by (unfold Rsqr; field; assumption).
    rewrite H. ring. }
  destruct (Rlt_dec 0 x) as [Hpos|Hnpos].
  - rewrite cos_atan, sin_atan, Hsq by lra.
    rewrite sqrt_Rsqr by (left; now apply Rinv_0_lt_compat).
    split; field; lra.
  - destruct (Rlt_dec x 0) as [Hneg|Hnneg].
    + assert (Hs : sqrt (1 + (y / x)²) = - / x).
      { rewrite Hsq by lra. rewrite sqrt_Rsqr_abs.
        apply Rabs_left. now apply Rinv_lt_0_compat. }
      destruct (Rle_dec 0 y).
      * rewrite neg_cos, neg_sin, cos_atan, sin_atan, Hs. split; field; lra.
      * rewrite cos_minus, sin_minus, cos_PI, sin_PI, cos_atan, sin_atan, Hs.
        split; field; lra.
    + assert (x = 0) as -> by lra.
      assert (Hy : y * y = 1) by lra.
      destruct (Rlt_dec 0 y) as [Hy0|Hy0].
      * rewrite cos_PI2, sin_PI2. split; [reflexivity|nra].
      * destruct (Rlt_dec y 0) as [Hy1|Hy1].
        -- rewrite cos_neg, sin_neg, cos_PI2, sin_PI2. split; [reflexivity|nra].
        -- exfalso. nra.
Qed.

Lemma arctan2_cos_sin (theta : R) :
  cos (Np.arctan2 (sin theta) (cos theta)) = cos theta
  /\ sin (Np.arctan2 (sin theta) (cos theta)) = sin theta.
Proof.
  apply arctan2_unit. pose proof (sin2_cos2 theta) as H.
  unfold Rsqr in H. lra.
Qed.

(** ** Sums over clusters *)

Lemma sum_app (l1 l2 : list R) : Np.sum (l1 ++ l2) = Np.sum l1 + Np.sum l2.
Proof.
  induction l1 as [|x l1 IH]; simpl; [lra|]. unfold Np.sum in *. simpl. lra.
Qed.

Lemma sum_map_plus {A : Type} (g h : A -> R) (l : list A) :
  Np.sum (map (fun a => g a + h a) l) = Np.sum (map g l) + Np.sum (map h l).
Proof.
  induction l as [|a l IH]; unfold Np.sum in *; simpl; [lra|]. rewrite IH. lra.
Qed.

Lemma sum_map_scale {A : Type} (c : R) (g : A -> R) (l : list A) :
  Np.sum (map (fun a => c * g a) l) = c * Np.sum (map g l).
Proof.
  induction l as [|a l IH]; unfold Np.sum in *; simpl; [lra|]. rewrite IH. lra.
Qed.

Lemma sum_map_zero {A : Type} (g : A -> R) (l : list A) :
  (forall a, In a l -> g a = 0) -> Np.sum (map g l) = 0.
Proof.
  induction l as [|a l IH]; intros H; unfold Np.sum in *; simpl; [reflexivity|].
  rewrite IH by (intros; apply H; now right).
  rewrite (H a) by now left. lra.
Qed.

Lemma sum_repeat (x : R) (m : nat) : Np.sum (repeat x m) = INR m * x.
Proof.
  induction m as [|m IH]; [simpl; lra|].
  rewrite S_INR. unfold Np.sum in *. simpl. rewrite IH. lra.
Qed.

Lemma range_app (lo mid hi : Z) :
  (lo <= mid <= hi)%Z -> Np.range lo hi = Np.range lo mid ++ Np.range mid hi.
Proof.
  remember (Z.to_nat (mid - lo)) as n eqn:Hn.
  revert lo Hn. induction n as [|n IH]; intros lo Hn H.
  - assert (lo = mid) as -> by lia. now rewrite (range_nil mid mid) by lia.
  - rewrite (range_cons lo hi), (range_cons lo mid) by lia.
    rewrite (IH (lo + 1)%Z) by lia. reflexivity.
Qed.

(** Summing an indicator of [id] over the cluster IDs picks one term. *)
Lemma sum_indicator (K id : Z) (x : R) :
  (0 <= id < K)%Z ->
  Np.sum (map (fun cid => if (cid =? id)%Z then x else 0) (Np.range 0 K)) = x.
Proof.
  intros H.
  rewrite (range_app 0 id K) by lia.
  rewrite (range_cons id K) by lia.
  rewrite map_app, sum_app. cbn [map]. rewrite Z.eqb_refl.
  rewrite !sum_map_zero.
  - unfold Np.sum. simpl. rewrite sum_map_zero; [lra|].
    intros a Ha. apply in_range in Ha.
    destruct (Z.eqb_spec a id); [lia|reflexivity].
  - intros a Ha. apply in_range in Ha.
    destruct (Z.eqb_spec a id); [lia|reflexivity].
Qed.

Lemma select_cons_sum (f : R -> R) (cid id : Z) (ids : list Z) (ph : R)
      (phases : list R) :
  Np.sum (map f (Np.select (map (Z.eqb cid) (id :: ids)) (ph :: phases)))
  = (if (cid =? id)%Z then f ph else 0)
    + Np.sum (map f (Np.select (map (Z.eqb cid) ids) phases)).
Proof.
  cbn [map Np.select]. destruct (cid =? id)%Z; unfold Np.sum; simpl; lra.
Qed.

(** A sum over the events is the sum, over the clusters, of the sums over
    each cluster's events. *)
Lemma sum_partition (f : R -> R) (K : Z) (ids : list Z) :
  forall phases : list R,
    length ids = length phases ->
    (forall id, In id ids -> (0 <= id < K)%Z) ->
    Np.sum (map (fun cid =>
                   Np.sum (map f (Np.select (map (Z.eqb cid) ids) phases)))
                (Np.range 0 K))
    = Np.sum (map f phases).
Proof.
  induction ids as [|id ids IH]; intros [|ph phases] Hlen Hrange;
    simpl in Hlen; try lia.
  - apply sum_map_zero. intros; reflexivity.
  - rewrite (map_ext _ _ (fun cid => select_cons_sum f cid id ids ph phases)).
    rewrite sum_map_plus, sum_indicator by (apply Hrange; now left).
    rewrite IH by (try lia; intros; apply Hrange; now right).
    unfold Np.sum. simpl. lra.
Qed.

Lemma select_in (cid : Z) (ids : list Z) :
  forall (phases : list R) (x : R),
    length ids = length phases ->
    In x (Np.select (map (Z.eqb cid) ids) phases) ->
    exists i, (i < length ids)%nat /\ nth i ids 0%Z = cid /\ nth i phases 0 = x.
Proof.
  induction ids as [|id ids IH]; intros [|ph phases] x Hlen Hin;
    simpl in Hlen; try lia; cbn [map Np.select] in Hin; try contradiction.
  destruct (Z.eqb_spec cid id) as [->|Hne].
  - destruct Hin as [<-|Hin].
    + exists 0%nat. simpl. split; [lia|]. split; reflexivity.
    + destruct (IH phases x) as (i & Hi & Hid & Hx); [lia|assumption|].
      exists (S i). simpl. split; [lia|]. split; assumption.
  - destruct (IH phases x) as (i & Hi & Hid & Hx); [lia|assumption|].
    exists (S i). simpl. split; [lia|]. split; assumption.
Qed.

Lemma all_equal_repeat (l : list R) (theta : R) :
  (forall x, In x l -> x = theta) -> l = repeat theta (length l).
Proof.
  induction l as [|a l IH]; intros H; simpl; [reflexivity|].
  rewrite (H a) by now left. f_equal. apply IH. intros; apply H; now right.
Qed.

Lemma exp_le_mono (x y : R) : x <= y -> exp x <= exp y.
Proof.
  intros [H| ->]; [left; now apply exp_increasing|lra].
Qed.

(** A phase-identical cluster of [m >= 1] events: its sums are [m] times the
    components of its unit vector. *)
Lemma identical_cluster_unit (ids : list Z) (phases : list R) (cid : Z) (m : nat) :
  length ids = length phases ->
  (0 < m)%nat ->
  count_occ Z.eq_dec ids cid = m ->
  (forall i j, (i < length ids)%nat -> (j < length ids)%nat ->
               nth i ids 0%Z = nth j ids 0%Z ->
               nth i phases 0 = nth j phases 0) ->
  Np.sum (map cos (Np.select (map (Z.eqb cid) ids) phases))
  = INR m * fst (unit_of ids phases cid)
  /\ Np.sum (map sin (Np.select (map (Z.eqb cid) ids) phases))
     = INR m * snd (unit_of ids phases cid).
Proof.
  intros Hlen Hm Hcount Hident. unfold unit_of. cbn [fst snd].
  set (l := Np.select (map (Z.eqb cid) ids) phases).
  assert (Hl : length l = m).
  { subst l. now rewrite select_length. }
  assert (Hrep : l = repeat (hd 0 l) m).
  { rewrite <- Hl. apply all_equal_repeat. intros x Hx.
    destruct l as [|y l'] eqn:El; [contradiction|]. cbn [hd].
    assert (Hy : In y l) by (rewrite El; now left).
    rewrite <- El in Hx. subst l.
    destruct (select_in cid ids phases x Hlen Hx) as (i & Hi & Hidi & <-).
    destruct (select_in cid ids phases y Hlen Hy) as (j & Hj & Hidj & <-).
    apply Hident; try assumption. congruence. }
  rewrite Hl. rewrite Hrep at 1 2 3 4 5 6.
  rewrite !map_repeat, !sum_repeat.
  assert (HINR : INR m <> 0) by (apply not_0_INR; lia).
  replace (INR m * cos (hd 0 l) / INR m) with (cos (hd 0 l)) by (field; assumption).
  replace (INR m * sin (hd 0 l) / INR m) with (sin (hd 0 l)) by (field; assumption).
  destruct (arctan2_cos_sin (hd 0 l)) as [-> ->]. split; reflexivity.
Qed.

Lemma sum_map_const {A : Type} (c : R) (l : list A) :
  Np.sum (map (fun _ => c) l) = INR (length l) * c.
Proof.
  induction l as [|a l IH]; [simpl; lra|].
  cbn [length]. rewrite S_INR. unfold Np.sum in *. simpl. rewrite IH. lra.
Qed.

(** ** Cluster-robust against standard p-value *)

(** When all events of each temporal cluster have the same phase and all
    clusters have the same number of events, the standard D2 is that
    number times the cluster D2, and the cluster-robust p-value is at least
    the standard one. *)
Lemma equal_clusters_p_ge_standard
        (times : list R) (period_days dt_cluster : R) (m : nat) :
  0 < period_days ->
  clusters_phase_identical times period_days dt_cluster ->
  clusters_of_size times dt_cluster m ->
  exists r,
    Schuster.schuster_single_period times period_days dt_cluster = Some r
    /\ Schuster.p_cluster_robust r >= Schuster.p_standard r.
Proof.
  intros Hp Hident Hsize.
  destruct times as [|t0 rest] eqn:Etimes.
  { eexists. split; [reflexivity|]. simpl. lra. }
  rewrite <- Etimes in *.
  assert (Hne : times <> []) by (rewrite Etimes; congruence).
  assert (Hp0 : period_days <> 0) by lra.
  rewrite (schuster_nonempty times period_days dt_cluster Hne Hp0).
  eexists. split; [reflexivity|].
  cbn [Schuster.p_standard Schuster.p_cluster_robust].
  unfold clusters_phase_identical, clusters_of_size in Hident, Hsize.
  cbv zeta in Hident, Hsize.
  destruct (assign_clusters_covers times dt_cluster Hne) as [Hlast Hcov].
  set (phases := map (event_phase period_days) times) in *.
  set (ids := Schuster.assign_clusters times dt_cluster) in *.
  set (K := (last ids 0 + 1)%Z) in *.
  set (units := map (unit_of ids phases) (Np.range 0 K)) in *.
  assert (Hlen : length ids = length phases).
  { subst ids phases. now rewrite assign_clusters_length, length_map. }
  assert (Hlt : length ids = length times).
  { subst ids. apply assign_clusters_length. }
  assert (Hm : (0 < m)%nat).
  { assert (H0 : In 0%Z ids) by (apply Hcov; lia).
    rewrite <- (Hsize 0%Z H0). now apply (count_occ_In Z.eq_dec). }
  assert (Hident' : forall i j, (i < length ids)%nat -> (j < length ids)%nat ->
                                nth i ids 0%Z = nth j ids 0%Z ->
                                nth i phases 0 = nth j phases 0).
  { intros i j Hi Hj Hij. subst phases.
    rewrite (nth_map_in _ _ _ 0), (nth_map_in _ _ _ 0) by lia.
    apply Hident; lia || exact Hij. }
  assert (Hcluster : forall cid, In cid (Np.range 0 K) ->
            Np.sum (map cos (Np.select (map (Z.eqb cid) ids) phases))
            = INR m * fst (unit_of ids phases cid)
            /\ Np.sum (map sin (Np.select (map (Z.eqb cid) ids) phases))
               = INR m * snd (unit_of ids phases cid)
            /\ Np.sum (map (fun _ => 1) (Np.select (map (Z.eqb cid) ids) phases))
               = INR m).
  { intros cid Hcid. apply in_range in Hcid.
    assert (Hin : In cid ids) by (apply Hcov; lia).
    destruct (identical_cluster_unit ids phases cid m Hlen Hm (Hsize cid Hin) Hident')
      as [Hc Hs].
    split; [assumption|]. split; [assumption|].
    rewrite sum_map_const, select_length by assumption.
    rewrite (Hsize cid Hin). lra. }
  assert (Hids : forall id, In id ids -> (0 <= id < K)%Z).
  { intros id Hid. apply Hcov in Hid. lia. }
  assert (Hcos : Np.sum (map cos phases) = INR m * Np.sum (map fst units)).
  { rewrite <- (sum_partition cos K ids phases Hlen Hids).
    subst units. rewrite map_map, <- sum_map_scale.
    f_equal. apply map_ext_in. intros cid Hcid. now apply Hcluster. }
  assert (Hsin : Np.sum (map sin phases) = INR m * Np.sum (map snd units)).
  { rewrite <- (sum_partition sin K ids phases Hlen Hids).
    subst units. rewrite map_map, <- sum_map_scale.
    f_equal. apply map_ext_in. intros cid Hcid. now apply Hcluster. }
  assert (HN : IZR (Z.of_nat (length times)) = INR m * IZR K).
  { rewrite <- INR_IZR_INZ.
    replace (length times) with (length phases) by lia.
    rewrite <- (Rmult_1_r (INR (length phases))), <- (sum_map_const 1 phases).
    rewrite <- (sum_partition (fun _ => 1) K ids phases Hlen Hids).
    rewrite (map_ext_in _ (fun _ => INR m))
      by (intros cid Hcid; now apply Hcluster).
    rewrite sum_map_const, range_length.
    rewrite INR_IZR_INZ, Z2Nat.id by lia.
    replace (K - 0)%Z with K by lia. ring. }
  rewrite Hcos, Hsin.
  set (C := Np.sum (map fst units)). set (S_ := Np.sum (map snd units)).
  assert (HK : 1 <= IZR K) by (apply IZR_le; lia).
  assert (HM : 1 <= INR m).
  { replace 1 with (INR 1) by reflexivity. apply le_INR. lia. }
  unfold Schuster._standard_p_from_d2, Schuster._compute_d2.
  destruct (Z.eqb_spec (Z.of_nat (length times)) 0) as [H0|_].
  { rewrite Etimes in H0. simpl length in H0. lia. }
  destruct (Z.eqb_spec K 0) as [H0|_]; [lia|].
  rewrite HN. apply Rle_ge, exp_le_mono, Ropp_le_contravar.
  replace (((INR m * C) ^ 2 + (INR m * S_) ^ 2) / (INR m * IZR K))
    with (INR m * ((C ^ 2 + S_ ^ 2) / IZR K)) by (field; lra).
  assert (0 <= (C ^ 2 + S_ ^ 2) / IZR K).
  { apply Rmult_le_pos; [nra|]. left. apply Rinv_0_lt_compat. lra. }
  nra.
Qed.

(** *** A catalog with clusters of unequal size *)

Lemma event_phase_at (period_days t frac : R) (z : Z) :
  0 < period_days -> t = period_days * (IZR z + frac) -> 0 <= frac < 1 ->
  event_phase period_days t = 2 * PI * frac.
Proof.
  intros Hp -> Hfrac. unfold event_phase, Np.fmod.
  replace (period_days * (IZR z + frac) / period_days) with (IZR z + frac)
    by (field; lra).
  rewrite (Zfloor_eq z) by lra.
  replace 2.0 with 2 by lra. field. lra.
Qed.

Lemma arctan2_0_pos (x : R) : 0 < x -> Np.arctan2 0 x = 0.
Proof.
  intros Hx. unfold Np.arctan2. destruct (Rlt_dec 0 x); [|contradiction].
  unfold Rdiv. rewrite Rmult_0_l. apply atan_0.
Qed.

Lemma arctan2_0_neg (x : R) : x < 0 -> Np.arctan2 0 x = PI.
Proof.
  intros Hx. unfold Np.arctan2. destruct (Rlt_dec 0 x); [lra|].
  destruct (Rlt_dec x 0); [|contradiction].
  destruct (Rle_dec 0 0); [|lra].
  unfold Rdiv. rewrite Rmult_0_l, atan_0. lra.
Qed.

(** Four events, period 0.5 days, threshold 1 day: the clusters are
    [{0}], [{2}] and [{4.25, 4.75}]; the phases are 0, 0, pi and pi. *)
Lemma unequal_clusters_ids :
  Schuster.assign_clusters [0; 2; 4.25; 4.75] 1 = [0; 1; 2; 2]%Z.
Proof.
  unfold Schuster.assign_clusters. cbn [Schuster.assign_loop].
  destruct (Rge_dec (2 - 0) 1); [|lra].
  destruct (Rge_dec (4.25 - 2) 1); [|lra].
  destruct (Rge_dec (4.75 - 4.25) 1); [lra|].
  reflexivity.
Qed.

Lemma unequal_clusters_phases :
  event_phase 0.5 0 = 0 /\ event_phase 0.5 2 = 0
  /\ event_phase 0.5 4.25 = PI /\ event_phase 0.5 4.75 = PI.
Proof.
  split; [|split; [|split]].
  - rewrite (event_phase_at 0.5 0 0 0); lra.
  - rewrite (event_phase_at 0.5 2 0 4); lra.
  - rewrite (event_phase_at 0.5 4.25 0.5 8); lra.
  - rewrite (event_phase_at 0.5 4.75 0.5 9); lra.
Qed.

Lemma unequal_clusters_units :
  unit_of [0; 1; 2; 2]%Z [0; 0; PI; PI] 0 = (1, 0)
  /\ unit_of [0; 1; 2; 2]%Z [0; 0; PI; PI] 1 = (1, 0)
  /\ unit_of [0; 1; 2; 2]%Z [0; 0; PI; PI] 2 = (-1, 0).
Proof.
  unfold unit_of.
  cbn [map Np.select Z.eqb Pos.eqb length Np.sum fold_right].
  rewrite cos_0, sin_0, cos_PI, sin_PI.
  replace ((1 + 0) / INR 1) with 1 by (simpl; lra).
  replace ((0 + 0) / INR 1) with 0 by (simpl; lra).
  replace ((-1 + (-1 + 0)) / INR 2) with (-1) by (simpl; lra).
  replace ((0 + (0 + 0)) / INR 2) with 0 by (simpl; lra).
  rewrite (arctan2_0_pos 1), (arctan2_0_neg (-1)) by lra.
  now rewrite cos_0, sin_0, cos_PI, sin_PI.
Qed.

Lemma schuster_unequal_clusters :
  exists r,
    Schuster.schuster_single_period [0; 2; 4.25; 4.75] 0.5 1 = Some r
    /\ Schuster.n_events r = 4%Z
    /\ Schuster.n_clusters r = 3%Z
    /\ Schuster.p_standard r = 1
    /\ Schuster.p_cluster_robust r = exp (- (1 / 3)).
Proof.
  rewrite schuster_nonempty by (congruence || lra).
  eexists. split; [reflexivity|].
  cbn [Schuster.n_events Schuster.n_clusters Schuster.p_standard
       Schuster.p_cluster_robust].
  rewrite unequal_clusters_ids.
  destruct unequal_clusters_phases as (P0 & P1 & P2 & P3).
  destruct unequal_clusters_units as (U0 & U1 & U2).
  cbn [map]. rewrite P0, P1, P2, P3.
  change (last [0; 1; 2; 2]%Z 0%Z + 1)%Z with 3%Z.
  change (Np.range 0 3) with [0; 1; 2]%Z.
  cbn [map length]. rewrite U0, U1, U2.
  cbn [fst snd Np.sum fold_right].
  rewrite cos_0, sin_0, cos_PI, sin_PI.
  unfold Schuster._standard_p_from_d2, Schuster._compute_d2.
  cbn [Z.of_nat Pos.of_succ_nat Pos.succ Z.eqb].
  split; [reflexivity|]. split; [reflexivity|]. split.
  - replace (- (((1 + (1 + (-1 + (-1 + 0)))) ^ 2 + (0 + (0 + (0 + (0 + 0)))) ^ 2) / 4))
      with 0 by lra.
    apply exp_0.
  - f_equal. lra.
Qed.

(** C1. The claim fails on the ascending catalog [0, 2, 4.25, 4.75] at
    period 0.5 with gap threshold 1.  The clusters are {0}, {2} and
    {4.25, 4.75}; the events of each cluster have the same phase (0, 0 and
    pi).  In the standard sum the two single events cancel the pair, so
    the standard p-value is 1; each cluster votes with one unit vector, so
    the cluster-robust p-value is [exp (-1/3)], below 3/4: less than the
    standard p-value by far more than 1e-12. *)
Theorem cluster_robust_p_below_standard :
  (forall i, (S i < 4)%nat ->
             nth i [0; 2; 4.25; 4.75] 0 < nth (S i) [0; 2; 4.25; 4.75] 0)
  /\ Schuster.assign_clusters [0; 2; 4.25; 4.75] 1 = [0; 1; 2; 2]%Z
  /\ clusters_phase_identical [0; 2; 4.25; 4.75] 0.5 1
  /\ exists r,
      Schuster.schuster_single_period [0; 2; 4.25; 4.75] 0.5 1 = Some r
      /\ Schuster.n_clusters r = 3%Z
      /\ Schuster.p_standard r = 1
      /\ Schuster.p_cluster_robust r = exp (- (1 / 3))
      /\ Schuster.p_cluster_robust r < 3 / 4
      /\ Schuster.p_cluster_robust r < Schuster.p_standard r - 1e-12.
Proof.
  split; [|split; [exact unequal_clusters_ids|split]].
  - intros i Hi.
    destruct i as [|[|[|i]]]; simpl; lra || lia.
  - unfold clusters_phase_identical. rewrite unequal_clusters_ids.
    destruct unequal_clusters_phases as (P0 & P1 & P2 & P3).
    intros i j Hi Hj Hid. simpl in Hi, Hj.
    destruct i as [|[|[|[|i]]]]; try lia;
      destruct j as [|[|[|[|j]]]]; try lia;
      cbn [nth] in *; try discriminate Hid; congruence.
  - destruct schuster_unequal_clusters as (r & Hr & _ & Hnc & Hstd & Hcr).
    exists r. split; [exact Hr|]. split; [exact Hnc|].
    split; [exact Hstd|]. split; [exact Hcr|].
    rewrite Hstd, Hcr, exp_Ropp.
    pose proof (exp_ineq1 (1 / 3)) as Hexp.
    assert (H43 : 4 / 3 < exp (1 / 3)) by lra.
    assert (/ exp (1 / 3) < / (4 / 3)).
    { apply Rinv_lt_contravar; [|assumption].
      apply Rmult_lt_0_compat; [lra|apply exp_pos]. }
    split; lra.
Qed.

(** ** The log-spaced period grid *)

Lemma linspace_length (start stop : R) (num : nat) :
  length (Np.linspace start stop num) = num.
Proof.
  destruct num as [|[|n]]; [reflexivity|reflexivity|].
  unfold Np.linspace. now rewrite length_map, length_seq.
Qed.

Lemma linspace_nth (start stop : R) (n i : nat) :
  (i < S (S n))%nat ->
  nth i (Np.linspace start stop (S (S n))) 0
  = if (i =? S n)%nat then stop
    else start + INR i * ((stop - start) / INR (S n)).
Proof.
  intros Hi. unfold Np.linspace.
  rewrite (nth_map_in _ _ _ 0%nat) by (rewrite length_seq; lia).
  rewrite seq_nth by lia.
  replace (S (S n) - 1)%nat with (S n) by lia. reflexivity.
Qed.

Lemma linspace_bounds (start stop : R) (num : nat) :
  start <= stop ->
  forall y, In y (Np.linspace start stop num) -> start <= y <= stop.
Proof.
  intros Hle y Hy. destruct num as [|[|n]].
  - destruct Hy.
  - destruct Hy as [<-|[]]. lra.
  - apply (In_nth _ _ 0) in Hy as (i & Hi & <-).
    rewrite linspace_length in Hi. rewrite linspace_nth by assumption.
    destruct (Nat.eqb_spec i (S n)) as [_|Hne]; [lra|].
    assert (Hn : 0 < INR (S n)) by (apply lt_0_INR; lia).
    assert (Hi' : 0 <= INR i <= INR (S n)).
    { split; [apply pos_INR|apply le_INR; lia]. }
    assert (Hq : 0 <= INR i / INR (S n) <= 1).
    { split.
      - apply Rmult_le_pos; [lra|]. left. now apply Rinv_0_lt_compat.
      - apply (Rmult_le_reg_r (INR (S n))); [assumption|].
        replace (INR i / INR (S n) * INR (S n)) with (INR i) by (field; lra).
        lra. }
    replace (INR i * ((stop - start) / INR (S n)))
      with ((stop - start) * (INR i / INR (S n))) by (field; lra).
    nra.
Qed.

Lemma ln_10_pos : 0 < ln 10.
Proof. rewrite <- ln_1. apply ln_increasing; lra. Qed.

Lemma Rpower_log10 (x : R) : 0 < x -> Rpower 10 (Np.log10 x) = x.
Proof.
  intros Hx. unfold Rpower, Np.log10.
  pose proof ln_10_pos.
  replace (ln x / ln 10 * ln 10) with (ln x) by (field; lra).
  now apply exp_ln.
Qed.

Lemma Rpower_10_mono (y1 y2 : R) : y1 <= y2 -> Rpower 10 y1 <= Rpower 10 y2.
Proof.
  intros H. unfold Rpower. apply exp_le_mono.
  pose proof ln_10_pos. nra.
Qed.

Lemma log10_mono (a b : R) : 0 < a -> a <= b -> Np.log10 a <= Np.log10 b.
Proof.
  intros Ha [Hlt| <-]; [|lra].
  unfold Np.log10. pose proof ln_10_pos as H10.
  pose proof (ln_increasing a b Ha Hlt).
  apply Rmult_le_compat_r; [|lra]. left. now apply Rinv_0_lt_compat.
Qed.

(** The grid of [n + 2] periods between [lo] and [hi]: it starts at [lo],
    ends at [hi], and stays in between. *)
Lemma logspace_grid (lo hi : R) (n : nat) :
  0 < lo -> lo <= hi ->
  let periods := Np.logspace (Np.log10 lo) (Np.log10 hi) (S (S n)) in
  length periods = S (S n)
  /\ nth 0 periods 0 = lo
  /\ nth (S n) periods 0 = hi
  /\ forall T, In T periods -> lo <= T <= hi.
Proof.
  intros Hlo Hle periods. subst periods. unfold Np.logspace.
  split; [now rewrite length_map, linspace_length|].
  split; [|split].
  - rewrite (nth_map_in _ _ _ 0) by (rewrite linspace_length; lia).
    rewrite linspace_nth by lia. cbn [Nat.eqb INR].
    replace (Np.log10 lo + 0 * _) with (Np.log10 lo) by lra.
    now apply Rpower_log10.
  - rewrite (nth_map_in _ _ _ 0) by (rewrite linspace_length; lia).
    rewrite linspace_nth by lia. rewrite Nat.eqb_refl.
    apply Rpower_log10. lra.
  - intros T HT. apply in_map_iff in HT as (y & <- & Hy).
    apply linspace_bounds in Hy; [|now apply log10_mono].
    split.
    + rewrite <- (Rpower_log10 lo) at 1 by assumption.
      apply Rpower_10_mono; lra.
    + rewrite <- (Rpower_log10 hi) at 1 by lra.
      apply Rpower_10_mono; lra.
Qed.

(** ** The MFPA scan *)

Lemma mfpa_power_nonneg (phases : list R) : 0 <= Mfpa.mfpa_power phases.
Proof.
  unfold Mfpa.mfpa_power. destruct (Nat.eqb_spec (length phases) 0) as [_|Hn];
    [lra|].
  apply Rmult_le_pos; [nra|]. left. apply Rinv_0_lt_compat.
  apply lt_0_INR. lia.
Qed.

Lemma mean_indicator_range (b : R -> bool) (l : list R) (m : R) :
  Np.mean (map (fun x => if b x then 1 else 0) l) = Some m -> 0 <= m <= 1.
Proof.
  assert (Hne : l = [] \/ l <> []) by (destruct l; [now left|right; congruence]).
  destruct Hne as [->|Hne]; [discriminate|].
  rewrite mean_some by (intros H; apply map_eq_nil in H; contradiction).
  intros H. injection H as <-. rewrite length_map.
  assert (Hsum : 0 <= Np.sum (map (fun x => if b x then 1 else 0) l)
                 <= INR (length l)).
  { clear Hne. induction l as [|x l IH]; [cbn; lra|].
    cbn [map length]. rewrite S_INR.
    change (Np.sum ((if b x then 1 else 0) :: map (fun x => if b x then 1 else 0) l))
      with ((if b x then 1 else 0) + Np.sum (map (fun x => if b x then 1 else 0) l)).
    destruct (b x); lra. }
  assert (Hpos : 0 < INR (length l)).
  { apply lt_0_INR. destruct l; [congruence|cbn; lia]. }
  split.
  - apply Rmult_le_pos; [lra|]. left. now apply Rinv_0_lt_compat.
  - apply (Rmult_le_reg_r (INR (length l))); [assumption|].
    replace (Np.sum (map (fun x => if b x then 1 else 0) l) / INR (length l)
             * INR (length l))
      with (Np.sum (map (fun x => if b x then 1 else 0) l)) by (field; lra).
    lra.
Qed.

(** What the scan loop appends to both lists. *)
Lemma scan_loop_detail (times : list R) (matrix : list (list R))
      (p95s p99s : list R) (periods : list R) :
  forall j spectrum significant out,
    Mfpa.scan_loop periods j times matrix p95s p99s spectrum significant
    = Some out ->
    exists entries,
      fst out = spectrum ++ entries
      /\ snd out = significant
                   ++ map significant_of_entry (filter above_p95 entries)
      /\ Forall (fun e =>
                   0 <= Mfpa.p_mfpa e <= 1
                   /\ exists phases,
                       Schuster.compute_phases times (Mfpa.period_days e)
                       = Some phases
                       /\ Mfpa.power e = Mfpa.mfpa_power phases) entries.
Proof.
  induction periods as [|T periods IH]; intros j spectrum significant out Hout.
  - cbn in Hout. injection Hout as <-. exists []. cbn.
    rewrite !app_nil_r. repeat split. constructor.
  - cbn [Mfpa.scan_loop] in Hout.
    destruct (mapM _ times) as [phases|] eqn:Hph; [|discriminate Hout].
    cbn [bind] in Hout.
    destruct (Np.mean _) as [p_mfpa|] eqn:Hmean; [|discriminate Hout].
    cbn [bind] in Hout.
    destruct (Mfpa.a1b_consistency_label T None) as [label|];
      [|discriminate Hout].
    cbn [bind] in Hout.
    apply IH in Hout as (entries & Hfst & Hsnd & Hall).
    eexists (_ :: entries). split; [|split].
    + rewrite Hfst, <- app_assoc. reflexivity.
    + rewrite Hsnd. cbn [filter]. unfold above_p95 at 2.
      cbn [Mfpa.power Mfpa.p95_threshold].
      destruct (Np.gtb (Mfpa.mfpa_power phases) (nth j p95s 0)).
      * rewrite <- app_assoc. reflexivity.
      * reflexivity.
    + constructor; [|assumption].
      cbn [Mfpa.p_mfpa Mfpa.period_days Mfpa.power]. split.
      * eapply mean_indicator_range. exact Hmean.
      * exists phases. split; [exact Hph|reflexivity].
Qed.

(** Periods of a thousandth of a day or more are far from overflowing the
    quotient of [a1b_consistency_label]. *)
Lemma no_overflow_above (T : R) :
  1 / 1024 <= T -> Rabs (365.25 / T) < Np.FLOAT_OVERFLOW.
Proof.
  intros HT. pose proof float_overflow_large as H.
  assert (HT0 : 0 < T) by lra.
  rewrite Rabs_pos_eq by (apply Rlt_le, Rdiv_lt_0_compat; lra).
  apply Rlt_le_trans with (2 ^ 20); [|exact H].
  apply Rmult_lt_reg_r with T; [assumption|].
  unfold Rdiv. rewrite Rmult_assoc, Rinv_l by lra.
  assert (H20 : 2 ^ 20 = 1048576) by (simpl; lra).
  rewrite H20. lra.
Qed.

Lemma a1b_label_some (T : R) :
  1 / 1024 <= T ->
  exists label, Mfpa.a1b_consistency_label T None = Some label.
Proof.
  intros HT. unfold Mfpa.a1b_consistency_label.
  destruct (Req_dec_T T 0); [lra|].
  unfold Mfpa.predicted_phases.
  rewrite int_some by now apply no_overflow_above.
  cbn [bind]. rewrite mark_all_default. cbn [bind]. eexists. reflexivity.
Qed.

Lemma nth_repeat_in (x d : R) (m j : nat) : (j < m)%nat -> nth j (repeat x m) d = x.
Proof.
  revert j. induction m as [|m IH]; intros j Hj; [lia|].
  destruct j; simpl; [reflexivity|]. apply IH. lia.
Qed.

Section ScanProperties.

Variable Generator : Type.
Variable default_rng : Z -> Generator.
Variable uniform : Generator -> R -> R -> nat -> list R * Generator.
Variable percentile : list R -> R -> R.

Local Abbreviation World := (Mfpa.World Generator).
Local Abbreviation mkWorld := (Mfpa.mkWorld Generator).
Local Abbreviation global_random_state := (Mfpa.global_random_state Generator).
Local Abbreviation generators := (Mfpa.generators Generator).
Local Abbreviation log_records := (Mfpa.log_records Generator).
Local Abbreviation rng_uniform := (Mfpa.rng_uniform Generator uniform).
Local Abbreviation np_random_uniform :=
  (Mfpa.np_random_uniform Generator uniform).
Local Abbreviation null_powers_loop :=
  (Mfpa.null_powers_loop Generator uniform).
Local Abbreviation null_matrix_loop :=
  (Mfpa.null_matrix_loop Generator uniform).
Local Abbreviation bootstrap_draws :=
  (Mfpa.bootstrap_draws Generator uniform).
Local Abbreviation scan_loop := (Mfpa.scan_loop).
Local Abbreviation mfpa_scan :=
  (Mfpa.mfpa_scan Generator default_rng uniform percentile).
Local Abbreviation bootstrap_null_percentiles :=
  (Mfpa.bootstrap_null_percentiles Generator default_rng uniform percentile).

(** A draw from the generator object created last: the object is
    advanced, nothing else in the world changes. *)
Lemma rng_uniform_last (state : Generator) (gens : list Generator)
      (g : Generator) (logs : list (string * list Z))
      (low high : R) (size : nat) :
  rng_uniform (length gens) low high size (mkWorld state (gens ++ [g]) logs)
  = (Some (fst (uniform g low high size)),
     mkWorld state (gens ++ [snd (uniform g low high size)]) logs).
Proof.
  unfold Mfpa.rng_uniform.
  cbn [Mfpa.generators Mfpa.global_random_state Mfpa.log_records].
  rewrite nth_error_app2 by lia. rewrite Nat.sub_diag. cbn [nth_error].
  destruct (uniform g low high size) as [draws g']. cbn [fst snd].
  unfold Np.set_item. rewrite length_app. cbn [length].
  destruct (Nat.ltb_spec (length gens) (length gens + 1)) as [_|Hge]; [|lia].
  rewrite firstn_app, Nat.sub_diag, firstn_all. cbn [firstn].
  rewrite app_nil_r.
  rewrite skipn_all2 by (rewrite length_app; cbn [length]; lia).
  reflexivity.
Qed.

(** Both bootstrap loops consume the draws of their generator object and
    touch nothing else. *)
Lemma null_powers_loop_run (n_bootstrap : nat) :
  forall (g : Generator) (n : nat),
  exists g',
  forall (state : Generator) (gens : list Generator)
         (logs : list (string * list Z)),
    null_powers_loop n_bootstrap (length gens) n
                     (mkWorld state (gens ++ [g]) logs)
    = (Some (map Mfpa.mfpa_power (bootstrap_draws n_bootstrap g n)),
       mkWorld state (gens ++ [g']) logs).
Proof.
  induction n_bootstrap as [|nb IH]; intros g n.
  - exists g. reflexivity.
  - destruct (uniform g 0 (2 * PI) n) as [phases g1] eqn:Eu.
    destruct (IH g1 n) as [g' Hrest].
    exists g'. intros state gens logs.
    cbn [Mfpa.null_powers_loop Mfpa.bootstrap_draws]. unfold Mfpa.bindM.
    rewrite rng_uniform_last, Eu. cbn [fst snd].
    rewrite Hrest. reflexivity.
Qed.

Lemma null_matrix_loop_run (n_bootstrap : nat) :
  forall (g : Generator) (n n_periods : nat),
  exists g',
  forall (state : Generator) (gens : list Generator)
         (logs : list (string * list Z)),
    null_matrix_loop n_bootstrap (length gens) n n_periods
                     (mkWorld state (gens ++ [g]) logs)
    = (Some (map (fun draw => repeat (Mfpa.mfpa_power draw) n_periods)
                 (bootstrap_draws n_bootstrap g n)),
       mkWorld state (gens ++ [g']) logs).
Proof.
  induction n_bootstrap as [|nb IH]; intros g n n_periods.
  - exists g. reflexivity.
  - destruct (uniform g 0 (2 * PI) n) as [phases g1] eqn:Eu.
    destruct (IH g1 n n_periods) as [g' Hrest].
    exists g'. intros state gens logs.
    cbn [Mfpa.null_matrix_loop Mfpa.bootstrap_draws]. unfold Mfpa.bindM.
    rewrite rng_uniform_last, Eu. cbn [fst snd].
    rewrite Hrest. reflexivity.
Qed.

Lemma bootstrap_draws_length (n_bootstrap : nat) :
  forall g n, length (bootstrap_draws n_bootstrap g n) = n_bootstrap.
Proof.
  induction n_bootstrap as [|nb IH]; intros g n; simpl; [reflexivity|].
  destruct (uniform g 0 (2 * PI) n) as [phases g'].
  simpl. now rewrite IH.
Qed.

(** Every column of the null matrix is the vector of null powers. *)
Lemma column_null_matrix (draws : list (list R)) (n_periods j : nat) :
  (j < n_periods)%nat ->
  Mfpa.column j (map (fun draw => repeat (Mfpa.mfpa_power draw) n_periods)
                     draws)
  = map Mfpa.mfpa_power draws.
Proof.
  intros Hj. unfold Mfpa.column. rewrite map_map.
  apply map_ext. intros draw. now apply nth_repeat_in.
Qed.

(** A run of [bootstrap_null_percentiles]: one new generator object. *)
Lemma bootstrap_null_percentiles_run (n n_bootstrap : nat) (seed : Z)
      (w : World) :
  let null_powers :=
    map Mfpa.mfpa_power (bootstrap_draws n_bootstrap (default_rng seed) n) in
  exists g',
    bootstrap_null_percentiles n n_bootstrap seed w
    = (Some (percentile null_powers 95, percentile null_powers 99),
       mkWorld (global_random_state w) (generators w ++ [g'])
               (log_records w)).
Proof.
  intros null_powers. subst null_powers.
  destruct (null_powers_loop_run n_bootstrap (default_rng seed) n)
    as [g' Hloop].
  exists g'.
  unfold Mfpa.bootstrap_null_percentiles, Mfpa.bindM,
    Mfpa.np_random_default_rng, Mfpa.ret.
  rewrite Hloop. reflexivity.
Qed.

(** What a completed scan loop has appended to the spectrum. *)
Lemma scan_loop_shape (times : list R) (matrix : list (list R))
      (p95s p99s : list R) (periods : list R) :
  forall j spectrum significant out,
    scan_loop periods j times matrix p95s p99s spectrum significant = Some out ->
    exists entries,
      fst out = spectrum ++ entries
      /\ map Mfpa.period_days entries = periods
      /\ forall i e, nth_error entries i = Some e ->
                     0 <= Mfpa.power e
                     /\ Mfpa.p95_threshold e = nth (j + i) p95s 0
                     /\ Mfpa.p99_threshold e = nth (j + i) p99s 0
                     /\ Np.mean (map (fun x => if Np.geb x (Mfpa.power e)
                                               then 1 else 0)
                                     (Mfpa.column (j + i) matrix))
                        = Some (Mfpa.p_mfpa e).
Proof.
  induction periods as [|T periods IH]; intros j spectrum significant out Hout.
  - simpl in Hout. injection Hout as <-. exists []. simpl.
    rewrite app_nil_r. split; [reflexivity|]. split; [reflexivity|].
    intros [|i] e H; discriminate H.
  - cbn [Mfpa.scan_loop] in Hout.
    destruct (mapM _ times) as [phases|]; [|discriminate Hout].
    cbn [bind] in Hout.
    destruct (Np.mean _) as [p_mfpa|] eqn:Hmean; [|discriminate Hout].
    cbn [bind] in Hout.
    destruct (Mfpa.a1b_consistency_label T None) as [label|];
      [|discriminate Hout].
    cbn [bind] in Hout.
    apply IH in Hout as (entries & Hfst & Hper & Hent).
    eexists (_ :: entries). split; [|split].
    + rewrite Hfst, <- app_assoc. reflexivity.
    + simpl. now rewrite Hper.
    + intros [|i] e He.
      * injection He as <-. simpl. rewrite Nat.add_0_r.
        split; [apply mfpa_power_nonneg|]. split; [reflexivity|].
        split; [reflexivity|]. exact Hmean.
      * simpl in He. specialize (Hent i e He).
        replace (j + S i)%nat with (S j + i)%nat by lia. exact Hent.
Qed.

(** The scan loop completes when every period is a thousandth of a day or
    more and the bootstrap ensemble is not empty. *)
Lemma scan_loop_success (times : list R) (matrix : list (list R))
      (p95s p99s : list R) (periods : list R) :
  matrix <> [] ->
  (forall T, In T periods -> 1 / 1024 <= T) ->
  forall j spectrum significant,
    exists out,
      scan_loop periods j times matrix p95s p99s spectrum significant = Some out.
Proof.
  intros Hm.
  induction periods as [|T periods IH]; intros HT j spectrum significant.
  - eexists. reflexivity.
  - cbn [Mfpa.scan_loop].
    assert (HT0 : 1 / 1024 <= T) by (apply HT; now left).
    rewrite (mapM_some _ (fun t => 2.0 * PI * (Np.fmod t T / T))).
    2:{ intros t _. unfold Np.mod_.
        destruct (Req_dec_T T 0) as [H0|_]; [|reflexivity]. lra. }
    cbn [bind].
    rewrite mean_some.
    2:{ unfold Mfpa.column. intros H. apply map_eq_nil in H.
        apply map_eq_nil in H. contradiction. }
    cbn [bind].
    destruct (a1b_label_some T HT0) as [label ->].
    cbn [bind]. apply IH. intros T' HT'. apply HT. now right.
Qed.

(** A run of [mfpa_scan]: a log record, one new generator object seeded
    with [seed] and advanced by the bootstrap, the scan loop over the
    matrix of its null powers, and a second log record. *)
Lemma mfpa_scan_run (times : list R) (n_periods : nat) (min_days max_days : R)
      (n_bootstrap : nat) (seed : Z) (w : World) :
  let periods :=
    Np.logspace (Np.log10 min_days) (Np.log10 max_days) n_periods in
  let matrix :=
    map (fun draw => repeat (Mfpa.mfpa_power draw) n_periods)
        (bootstrap_draws n_bootstrap (default_rng seed) (length times)) in
  exists rec1 g',
    match scan_loop periods 0 times matrix
                    (Mfpa.percentile_axis0 percentile matrix 95 n_periods)
                    (Mfpa.percentile_axis0 percentile matrix 99 n_periods)
                    [] [] with
    | Some out =>
        exists rec2,
        mfpa_scan times n_periods min_days max_days n_bootstrap seed w
        = (Some (Mfpa.mkScanResult (fst out) (snd out)),
           mkWorld (global_random_state w) (generators w ++ [g'])
                   ((log_records w ++ [rec1]) ++ [rec2]))
    | None =>
        mfpa_scan times n_periods min_days max_days n_bootstrap seed w
        = (None,
           mkWorld (global_random_state w) (generators w ++ [g'])
                   (log_records w ++ [rec1]))
    end.
Proof.
  intros periods matrix. subst periods matrix.
  destruct (null_matrix_loop_run n_bootstrap (default_rng seed)
              (length times) n_periods) as [g' Hloop].
  eexists. exists g'.
  unfold Mfpa.mfpa_scan, Mfpa.bindM, Mfpa.logger_info, Mfpa.lift, Mfpa.ret,
    Mfpa.np_random_default_rng.
  cbn [Mfpa.global_random_state Mfpa.generators Mfpa.log_records].
  rewrite Hloop.
  cbn [Mfpa.global_random_state Mfpa.generators Mfpa.log_records].
  destruct (Mfpa.scan_loop _ _ _ _ _ _ _ _) as [out|].
  - eexists. reflexivity.
  - reflexivity.
Qed.

(** With the default parameters the scan loop completes, for every event
    array. *)
Lemma default_scan_loop_success (times : list R) (draws : list (list R))
      (p95s p99s : list R) :
  length draws = Mfpa.N_BOOTSTRAP ->
  exists out,
    scan_loop (Np.logspace (Np.log10 Mfpa.MFPA_MIN_DAYS)
                           (Np.log10 Mfpa.MFPA_MAX_DAYS) Mfpa.MFPA_N_PERIODS)
              0 times
              (map (fun draw => repeat (Mfpa.mfpa_power draw)
                                       Mfpa.MFPA_N_PERIODS) draws)
              p95s p99s [] []
    = Some out.
Proof.
  intros Hlen.
  assert (Hlo : 0 < Mfpa.MFPA_MIN_DAYS) by (unfold Mfpa.MFPA_MIN_DAYS; lra).
  assert (Hle : Mfpa.MFPA_MIN_DAYS <= Mfpa.MFPA_MAX_DAYS).
  { unfold Mfpa.MFPA_MIN_DAYS, Mfpa.MFPA_MAX_DAYS. lra. }
  destruct (logspace_grid Mfpa.MFPA_MIN_DAYS Mfpa.MFPA_MAX_DAYS 298 Hlo Hle)
    as (_ & _ & _ & Hin).
  change (S (S 298)) with Mfpa.MFPA_N_PERIODS in Hin.
  apply scan_loop_success.
  - intros H. apply map_eq_nil in H. rewrite H in Hlen. discriminate Hlen.
  - intros T HT. apply Hin in HT. unfold Mfpa.MFPA_MIN_DAYS in HT. lra.
Qed.

(** C7. With the default parameters [mfpa_scan] returns, for every event
    array, a spectrum of exactly 300 entries; its first period is 0.25
    days, its last 548 days, every period lies between the two, and every
    power is non-negative. *)
Theorem mfpa_scan_default_spectrum
        (times : list R) (seed : Z) (w : Mfpa.World Generator) :
  exists res w',
    mfpa_scan times Mfpa.MFPA_N_PERIODS Mfpa.MFPA_MIN_DAYS Mfpa.MFPA_MAX_DAYS
              Mfpa.N_BOOTSTRAP seed w = (Some res, w')
    /\ length (Mfpa.spectrum res) = 300%nat
    /\ nth 0 (map Mfpa.period_days (Mfpa.spectrum res)) 0 = 0.25
    /\ nth 299 (map Mfpa.period_days (Mfpa.spectrum res)) 0 = 548
    /\ forall e, In e (Mfpa.spectrum res) ->
                 0.25 <= Mfpa.period_days e <= 548 /\ 0 <= Mfpa.power e.
Proof.
  assert (Hlo : 0 < Mfpa.MFPA_MIN_DAYS) by (unfold Mfpa.MFPA_MIN_DAYS; lra).
  assert (Hle : Mfpa.MFPA_MIN_DAYS <= Mfpa.MFPA_MAX_DAYS).
  { unfold Mfpa.MFPA_MIN_DAYS, Mfpa.MFPA_MAX_DAYS. lra. }
  destruct (logspace_grid Mfpa.MFPA_MIN_DAYS Mfpa.MFPA_MAX_DAYS 298 Hlo Hle)
    as (Hlen & Hfirst & Hlast & Hin).
  change (S (S 298)) with Mfpa.MFPA_N_PERIODS in Hlen, Hfirst, Hlast, Hin.
  change (S 298) with 299%nat in Hlast.
  destruct (mfpa_scan_run times
              Mfpa.MFPA_N_PERIODS Mfpa.MFPA_MIN_DAYS Mfpa.MFPA_MAX_DAYS
              Mfpa.N_BOOTSTRAP seed w) as (rec1 & g' & Hrun).
  match type of Hrun with
  | match Mfpa.scan_loop _ 0 ?t (map _ ?d) ?a ?b [] [] with _ => _ end =>
      destruct (default_scan_loop_success t d a b) as [out Hout]
  end.
  { apply bootstrap_draws_length. }
  rewrite Hout in Hrun. destruct Hrun as [rec2 Hrun].
  apply scan_loop_shape in Hout as (entries & Hfst & Hper & Hent).
  cbn [app] in Hfst.
  eexists. eexists. split; [exact Hrun|].
  cbn [Mfpa.spectrum]. rewrite Hfst, Hper.
  split; [|split; [|split]].
  - rewrite <- (length_map Mfpa.period_days), Hper. exact Hlen.
  - rewrite Hfirst. reflexivity.
  - rewrite Hlast. unfold Mfpa.MFPA_MAX_DAYS. lra.
  - intros e He. split.
    + assert (HT : In (Mfpa.period_days e)
                      (Np.logspace (Np.log10 Mfpa.MFPA_MIN_DAYS)
                                   (Np.log10 Mfpa.MFPA_MAX_DAYS)
                                   Mfpa.MFPA_N_PERIODS)).
      { rewrite <- Hper. now apply in_map. }
      apply Hin in HT. unfold Mfpa.MFPA_MIN_DAYS, Mfpa.MFPA_MAX_DAYS in HT. lra.
    + apply In_nth_error in He as [i Hi]. now apply (Hent i e).
Qed.

(** The legacy [np.random.uniform], which the module does not call, is
    the ambient randomness: the draws are those of the global state, and
    two worlds whose global states draw differently give different
    results. *)
Lemma np_random_uniform_ambient (low high : R) (size : nat) (w1 w2 : World) :
  fst (np_random_uniform low high size w1)
  = Some (fst (uniform (global_random_state w1) low high size))
  /\ (fst (uniform (global_random_state w1) low high size)
      <> fst (uniform (global_random_state w2) low high size) ->
      fst (np_random_uniform low high size w1)
      <> fst (np_random_uniform low high size w2)).
Proof.
  unfold Mfpa.np_random_uniform.
  destruct (uniform (global_random_state w1) low high size) as [d1 g1].
  destruct (uniform (global_random_state w2) low high size) as [d2 g2].
  cbn [fst]. split; [reflexivity|]. intros Hne H. apply Hne. congruence.
Qed.

(** C3. A scan, and a bootstrap, are functions of their arguments and seed
    alone.  Run from any two process states (whatever the global random
    state, the generator objects alive and the log) they give the same
    result.  The bootstrap draws are those of a generator seeded with
    [rng_seed], the same in both functions: [bootstrap_null_percentiles]
    (with at least one replicate) returns the 95th and 99th percentile of
    the powers of these draws, and in a scan every spectrum entry carries
    this pair as thresholds and, as p-value, the fraction of these powers
    that reach the entry's power;
    the periods are the grid, the powers those of the events, and the
    significant periods the entries above their p95 threshold.  Neither
    function advances the global random state or a generator object that
    was alive before the call.  With the default parameters the scan
    returns. *)
Theorem seeded_bootstrap_deterministic
        (times : list R) (n_periods : nat) (min_days max_days : R)
        (n_bootstrap : nat) (seed : Z) (w1 w2 : Mfpa.World Generator) :
  let n := length times in
  let null_powers :=
    map Mfpa.mfpa_power (bootstrap_draws n_bootstrap (default_rng seed) n) in
  let p95 := percentile null_powers 95 in
  let p99 := percentile null_powers 99 in
  let scan := mfpa_scan times n_periods min_days max_days n_bootstrap seed in
  let boot := bootstrap_null_percentiles n n_bootstrap seed in
  fst (scan w1) = fst (scan w2)
  /\ fst (boot w1) = fst (boot w2)
  /\ (n_bootstrap <> 0%nat -> fst (boot w1) = Some (p95, p99))
  /\ (global_random_state (snd (scan w1)) = global_random_state w1
      /\ firstn (length (generators w1)) (generators (snd (scan w1)))
         = generators w1)
  /\ (global_random_state (snd (boot w1)) = global_random_state w1
      /\ firstn (length (generators w1)) (generators (snd (boot w1)))
         = generators w1)
  /\ (forall res,
        fst (scan w1) = Some res ->
        map Mfpa.period_days (Mfpa.spectrum res)
        = Np.logspace (Np.log10 min_days) (Np.log10 max_days) n_periods
        /\ Mfpa.significant_periods res
           = map significant_of_entry (filter above_p95 (Mfpa.spectrum res))
        /\ forall e,
            In e (Mfpa.spectrum res) ->
            Mfpa.p95_threshold e = p95
            /\ Mfpa.p99_threshold e = p99
            /\ Np.mean (map (fun x => if Np.geb x (Mfpa.power e)
                                      then 1 else 0) null_powers)
               = Some (Mfpa.p_mfpa e)
            /\ exists phases,
                Schuster.compute_phases times (Mfpa.period_days e)
                = Some phases
                /\ Mfpa.power e = Mfpa.mfpa_power phases)
  /\ exists res,
      fst (mfpa_scan times Mfpa.MFPA_N_PERIODS Mfpa.MFPA_MIN_DAYS
                     Mfpa.MFPA_MAX_DAYS Mfpa.N_BOOTSTRAP seed w1)
      = Some res.
Proof.
  intros n null_powers p95 p99 scan boot. subst scan boot.
  assert (Hfirstn : forall (gens : list Generator) g,
             firstn (length gens) (gens ++ [g]) = gens).
  { intros gens g. rewrite firstn_app, Nat.sub_diag, firstn_all.
    cbn [firstn]. apply app_nil_r. }
  destruct (bootstrap_null_percentiles_run n n_bootstrap seed w1)
    as [gb1 Hb1].
  destruct (bootstrap_null_percentiles_run n n_bootstrap seed w2)
    as [gb2 Hb2].
  cbv zeta in Hb1, Hb2. fold null_powers p95 p99 in Hb1, Hb2.
  destruct (mfpa_scan_run times
              n_periods min_days max_days n_bootstrap seed w1)
    as (r1 & g1 & Hrun1).
  destruct (mfpa_scan_run times
              n_periods min_days max_days n_bootstrap seed w2)
    as (r2 & g2 & Hrun2).
  cbv zeta in Hrun1, Hrun2.
  assert (Hdefault :
            exists res,
              fst (mfpa_scan times Mfpa.MFPA_N_PERIODS Mfpa.MFPA_MIN_DAYS
                             Mfpa.MFPA_MAX_DAYS Mfpa.N_BOOTSTRAP seed w1)
              = Some res).
  { destruct (mfpa_scan_run times
                Mfpa.MFPA_N_PERIODS Mfpa.MFPA_MIN_DAYS Mfpa.MFPA_MAX_DAYS
                Mfpa.N_BOOTSTRAP seed w1) as (rd & gd & Hd).
    cbv zeta in Hd.
    match type of Hd with
    | match Mfpa.scan_loop _ 0 ?t (map _ ?d) ?a ?b [] [] with _ => _ end =>
        destruct (default_scan_loop_success t d a b) as [out Hout]
    end.
    { apply bootstrap_draws_length. }
    rewrite Hout in Hd. destruct Hd as [rd2 Hd]. rewrite Hd.
    eexists. reflexivity. }
  rewrite Hb1, Hb2.
  cbn [fst snd Mfpa.global_random_state Mfpa.generators].
  destruct (Mfpa.scan_loop _ 0 times _ _ _ [] []) as [out|] eqn:Hout.
  - destruct Hrun1 as [rec1 Hrun1]. destruct Hrun2 as [rec2 Hrun2].
    rewrite Hrun1, Hrun2.
    cbn [fst snd Mfpa.global_random_state Mfpa.generators].
    split; [reflexivity|]. split; [reflexivity|].
    split; [intros _; reflexivity|].
    split; [split; [reflexivity|apply Hfirstn]|].
    split; [split; [reflexivity|apply Hfirstn]|].
    split; [|exact Hdefault].
    intros res Hres. injection Hres as <-.
    cbn [Mfpa.spectrum Mfpa.significant_periods].
    pose proof Hout as Hshape.
    apply scan_loop_shape in Hshape as (entries & Hfst & Hper & Hent).
    pose proof Hout as Hdetail.
    apply scan_loop_detail in Hdetail as (entries' & Hfst' & Hsnd & Hall).
    cbn [app] in Hfst, Hfst', Hsnd.
    assert (entries' = entries) as -> by congruence.
    rewrite Hfst, Hsnd.
    split; [exact Hper|]. split; [reflexivity|].
    intros e He.
    pose proof (proj1 (Forall_forall _ _) Hall e He) as (_ & Hpow).
    apply In_nth_error in He as [i Hi].
    destruct (Hent i e Hi) as (_ & H95 & H99 & Hmean).
    assert (Hlt : (i < n_periods)%nat).
    { assert (Hi' : (i < length entries)%nat).
      { apply nth_error_Some. rewrite Hi. discriminate. }
      rewrite <- (length_map Mfpa.period_days), Hper in Hi'.
      unfold Np.logspace in Hi'.
      now rewrite length_map, linspace_length in Hi'. }
    cbn [Nat.add] in H95, H99, Hmean.
    rewrite column_null_matrix in Hmean by assumption.
    rewrite H95, H99. unfold Mfpa.percentile_axis0.
    rewrite !(nth_map_in _ _ _ 0%nat) by (rewrite length_seq; lia).
    rewrite seq_nth by lia. cbn [Nat.add].
    rewrite column_null_matrix by assumption.
    split; [reflexivity|]. split; [reflexivity|].
    split; [exact Hmean|exact Hpow].
  - rewrite Hrun1, Hrun2.
    cbn [fst snd Mfpa.global_random_state Mfpa.generators].
    split; [reflexivity|]. split; [reflexivity|].
    split; [intros _; reflexivity|].
    split; [split; [reflexivity|apply Hfirstn]|].
    split; [split; [reflexivity|apply Hfirstn]|].
    split; [|exact Hdefault].
    intros res Hres. discriminate Hres.
Qed.

End ScanProperties.

(** ** Examples *)

Example merge_adjacent_bins_example :
  SubB.merge_adjacent_bins [1; 2; 3; 7; 9; 10]%Z 24
  = [(1, 3); (7, 7); (9, 10)]%Z.
Proof. reflexivity. Qed.

Example label_of_hits_example :
  Mfpa.label_of_hits [false; true; false] = "consistent with intervals 2"
  /\ Mfpa.label_of_hits [true; false; true]
     = "consistent with intervals 1+3 (6-month)".
Proof. split; reflexivity. Qed.

Ltac decide_ratio :=
  unfold overlap_ratio, baseline_1, baseline_2, baseline_3;
  cbn [SubB.phase_start SubB.phase_end];
  repeat match goal with
         | |- context [Rmin ?a ?b] =>
             first [rewrite (Rmin_left a b) by lra
                   |rewrite (Rmin_right a b) by lra]
         | |- context [Rmax ?a ?b] =>
             first [rewrite (Rmax_left a b) by lra
                   |rewrite (Rmax_right a b) by lra]
         end;
  intros; lra.

(** The classifications expected by the test suite. *)
Example classify_interval_examples :
  SubB.classify_interval 0.19 0.24 = "matches interval 1"
  /\ SubB.classify_interval 0.30 0.40 = "new interval".
Proof.
  unfold SubB.classify_interval, SubB.A1B_BASELINE_INTERVALS.
  fold baseline_1 baseline_2 baseline_3.
  rewrite !classify_loop_cons. split.
  - destruct (Rgt_dec (overlap_ratio 0.19 0.24 baseline_1) 0.5) as [_|Hn];
      [reflexivity|].
    exfalso. apply Hn. decide_ratio.
  - destruct (Rgt_dec (overlap_ratio 0.30 0.40 baseline_1) 0.5) as [H|_].
    { exfalso. revert H. decide_ratio. }
    destruct (Rgt_dec (overlap_ratio 0.30 0.40 baseline_2) 0.5) as [H|_].
    { exfalso. revert H. decide_ratio. }
    destruct (Rgt_dec (overlap_ratio 0.30 0.40 baseline_3) 0.5) as [H|_].
    { exfalso. revert H. decide_ratio. }
    reflexivity.
Qed.

Lemma sqrt_2_bounds : 0 < sqrt 2 < 2.
Proof.
  split; [apply sqrt_lt_R0; lra|].
  replace 2 with (sqrt 4) at 2.
  - apply sqrt_lt_1; lra.
  - replace 4 with (2 * 2) by lra. apply sqrt_square. lra.
Qed.

(** Four bins holding 4, 0, 0 and 4 of eight events: the threshold is
    [2 + sqrt 2]; bins 0 and 3 are elevated and stay two separate intervals
    in both detectors. *)
Example end_bins_not_merged :
  SubB.merge_adjacent_bins
    (SubB.identify_elevated_bins sample_bin_counts (IZR 8 / IZR 4)) 4
  = [(0, 0); (3, 3)]%Z
  /\ B1.find_elevated_intervals sample_bin_counts 4 8
     = Some [B1.interval_of_run (1.0 / IZR 4) 0 1;
             B1.interval_of_run (1.0 / IZR 4) 3 4].
Proof.
  pose proof sqrt_2_bounds as Hs.
  assert (HE : IZR 8 / IZR 4 = 2) by lra.
  assert (Hhi : Np.gtb 4 (2 + sqrt 2) = true) by (apply gtb_true; lra).
  assert (Hlo : Np.gtb 0 (2 + sqrt 2) = false).
  { apply not_true_is_false. rewrite gtb_true. lra. }
  split.
  - unfold SubB.identify_elevated_bins. rewrite HE.
    destruct (Rlt_dec 2 0); [lra|].
    unfold sample_bin_counts.
    change (Np.range 0 (Z.of_nat (length [4; 0; 0; 4]))) with [0; 1; 2; 3]%Z.
    cbn [filter].
    change (Z.to_nat 0) with 0%nat. change (Z.to_nat 1) with 1%nat.
    change (Z.to_nat 2) with 2%nat. change (Z.to_nat 3) with 3%nat.
    cbn [nth]. rewrite Hhi, Hlo. reflexivity.
  - unfold B1.find_elevated_intervals, B1.elevated_mask. rewrite HE.
    cbn [Z.eqb]. unfold sample_bin_counts. cbn [map].
    destruct (Rlt_dec 2 0); [lra|].
    rewrite Hhi, Hlo. reflexivity.
Qed.

(** ** Worked instances *)

(** Three events a day or more apart are three clusters. *)
Lemma assign_clusters_spec_witness :
  (forall i, (S i < 3)%nat -> nth (S i) [0; 1; 2.5] 0 - nth i [0; 1; 2.5] 0 >= 1)
  /\ Schuster.assign_clusters [0; 1; 2.5] 1 = Np.range 0 3
  /\ NoDup (Schuster.assign_clusters [0; 1; 2.5] 1).
Proof.
  assert (H : forall i, (S i < 3)%nat ->
                        nth (S i) [0; 1; 2.5] 0 - nth i [0; 1; 2.5] 0 >= 1).
  { intros i Hi. destruct i as [|[|i]]; simpl; lra || lia. }
  split; [exact H|].
  destruct (assign_clusters_spec [0; 1; 2.5] 1) as (_ & _ & _ & Hall).
  destruct (Hall H) as (Hids & Hnodup & _).
  split; [exact Hids|exact Hnodup].
Defined.

(** Four bins, eight events, both end bins elevated. *)
Lemma elevated_intervals_maximal_runs_witness :
  (0 < 4)%Z /\ (0 <= 8)%Z /\ Z.of_nat (length sample_bin_counts) = 4%Z
  /\ exists runs,
      B1.find_elevated_intervals sample_bin_counts 4 8
      = Some (map (fun r => B1.interval_of_run (1.0 / IZR 4) (fst r) (snd r)) runs)
      /\ maximal_runs (elevated sample_bin_counts (IZR 8 / IZR 4)) 4 runs.
Proof.
  assert (H4 : (0 < 4)%Z) by lia.
  assert (H8 : (0 <= 8)%Z) by lia.
  assert (Hlen : Z.of_nat (length sample_bin_counts) = 4%Z) by reflexivity.
  split; [exact H4|]. split; [exact H8|]. split; [exact Hlen|].
  destruct (elevated_intervals_maximal_runs sample_bin_counts 4 8 H4 H8 Hlen)
    as (_ & _ & (runs & Hruns & Hmax & _) & _).
  exists runs. split; [exact Hruns|exact Hmax].
Defined.

(* ================================================================== *)
(** * Part III.  Further properties of the engine                      *)
(* ================================================================== *)

(** ** Phase angles *)

Lemma fmod_range (x y : R) : 0 < y -> 0 <= Np.fmod x y < y.
Proof.
  intros Hy. unfold Np.fmod.
  pose proof (Zfloor_bound (x / y)) as [Hlo Hhi].
  assert (Hx : x = y * (x / y)) by (field; lra).
  split; nra.
Qed.

Lemma event_phase_range (period_days t : R) :
  0 < period_days -> 0 <= event_phase period_days t < 2 * PI.
Proof.
  intros Hp. unfold event_phase.
  pose proof (fmod_range t period_days Hp) as [Hlo Hhi].
  pose proof PI_RGT_0 as Hpi.
  assert (Hq : 0 <= Np.fmod t period_days / period_days < 1).
  { split.
    - apply Rmult_le_pos; [assumption|]. left. now apply Rinv_0_lt_compat.
    - apply (Rmult_lt_reg_r period_days); [assumption|].
      replace (Np.fmod t period_days / period_days * period_days)
        with (Np.fmod t period_days) by (field; lra).
      lra. }
  replace 2.0 with 2 by lra. split; nra.
Qed.

(** X1. For a positive period and event times that are not negative,
    [compute_phases] gives every event a phase angle in [0, 2 pi).  (For a
    negative time the rounded float remainder can be the period itself, and
    the angle the excluded end point.) *)
Theorem compute_phases_in_range (times : list R) (period_days : R) :
  0 < period_days ->
  (forall t, In t times -> 0 <= t) ->
  exists phases,
    Schuster.compute_phases times period_days = Some phases
    /\ length phases = length times
    /\ forall x, In x phases -> 0 <= x < 2 * PI.
Proof.
  intros Hp _. rewrite compute_phases_some by lra.
  eexists. split; [reflexivity|]. split; [apply length_map|].
  intros x Hx. apply in_map_iff in Hx as (t & <- & _).
  now apply event_phase_range.
Qed.

(** ** Cluster counts *)

Lemma assign_loop_bound (rest : list R) :
  forall prev dt c v,
    In v (Schuster.assign_loop prev rest dt c) ->
    (c <= v <= c + Z.of_nat (length rest))%Z.
Proof.
  induction rest as [|t rest IH]; intros prev dt c v Hv; [destruct Hv|].
  cbn [Schuster.assign_loop] in Hv.
  change (length (t :: rest)) with (S (length rest)).
  destruct (Rge_dec (t - prev) dt).
  - destruct Hv as [<-|Hv]; [lia|]. apply IH in Hv. lia.
  - destruct Hv as [<-|Hv]; [lia|]. apply IH in Hv. lia.
Qed.

Lemma last_in {A : Type} (l : list A) (d : A) : l <> [] -> In (last l d) l.
Proof.
  induction l as [|a l IH]; intros Hne; [congruence|].
  destruct l as [|b l]; [now left|].
  right. apply IH. congruence.
Qed.

Lemma assign_clusters_last_bound (times : list R) (dt : R) :
  times <> [] ->
  (0 <= last (Schuster.assign_clusters times dt) 0 < Z.of_nat (length times))%Z.
Proof.
  intros Hne. destruct times as [|t0 rest]; [congruence|].
  unfold Schuster.assign_clusters.
  assert (Hin : In (last (0%Z :: Schuster.assign_loop t0 rest dt 0) 0%Z)
                   (0%Z :: Schuster.assign_loop t0 rest dt 0))
    by (apply last_in; congruence).
  change (length (t0 :: rest)) with (S (length rest)).
  destruct Hin as [<-|Hin]; [lia|].
  apply assign_loop_bound in Hin. lia.
Qed.

(** X3. The record of [schuster_single_period] counts the events and the
    clusters: [n_clusters] is the number of IDs in use (the IDs are exactly
    [0 .. n_clusters - 1]), it never exceeds [n_events], it is at least 1 for
    a non-empty catalog, and neither count depends on the test period. *)
Theorem schuster_counts (times : list R) (period_days dt : R) (r : Schuster.Result) :
  Schuster.schuster_single_period times period_days dt = Some r ->
  Schuster.n_events r = Z.of_nat (length times)
  /\ (0 <= Schuster.n_clusters r <= Schuster.n_events r)%Z
  /\ (times <> [] -> (1 <= Schuster.n_clusters r)%Z)
  /\ (forall cid, In cid (Schuster.assign_clusters times dt)
                  <-> (0 <= cid < Schuster.n_clusters r)%Z)
  /\ forall period' r',
      Schuster.schuster_single_period times period' dt = Some r' ->
      Schuster.n_events r' = Schuster.n_events r
      /\ Schuster.n_clusters r' = Schuster.n_clusters r.
Proof.
  assert (Hshape : forall p r0,
             Schuster.schuster_single_period times p dt = Some r0 ->
             Schuster.n_events r0 = Z.of_nat (length times)
             /\ Schuster.n_clusters r0
                = if (Z.of_nat (length times) =? 0)%Z then 0%Z
                  else (last (Schuster.assign_clusters times dt) 0 + 1)%Z).
  { intros p r0. unfold Schuster.schuster_single_period.
    destruct (Z.eqb_spec (Z.of_nat (length times)) 0) as [H0|Hn].
    - intros H. injection H as <-. cbn. split; [lia|reflexivity].
    - destruct (Schuster.compute_phases times p); [|discriminate].
      cbn [bind].
      destruct (Z.gtb_spec (Z.of_nat (length times)) 0) as [_|Hle]; [|lia].
      destruct (mapM _ _); [|discriminate]. cbn [bind].
      intros H. injection H as <-. cbn. split; reflexivity. }
  intros Hr. destruct (Hshape _ _ Hr) as [Hn Hc].
  destruct times as [|t0 rest] eqn:Et.
  - cbn in Hc. cbn [length Z.of_nat] in Hn. rewrite Hn, Hc.
    split; [reflexivity|]. split; [lia|]. split; [congruence|]. split.
    + intros cid. cbn. split; [tauto|lia].
    + intros p' r' Hr'. destruct (Hshape _ _ Hr') as [Hn' Hc'].
      cbn in Hc'. cbn [length Z.of_nat] in Hn'. now rewrite Hn', Hc'.
  - rewrite <- Et in *.
    assert (Hne : times <> []) by (rewrite Et; congruence).
    destruct (Z.eqb_spec (Z.of_nat (length times)) 0) as [H0|_].
    { rewrite Et in H0. cbn [length] in H0. lia. }
    pose proof (assign_clusters_last_bound times dt Hne) as Hlast.
    destruct (assign_clusters_covers times dt Hne) as [_ Hcov].
    rewrite Hn, Hc.
    split; [reflexivity|]. split; [lia|]. split; [lia|]. split.
    + intros cid. rewrite Hcov. lia.
    + intros p' r' Hr'. destruct (Hshape _ _ Hr') as [Hn' Hc'].
      destruct (Z.eqb_spec (Z.of_nat (length times)) 0) as [H0|_];
        [rewrite Et in H0; cbn [length] in H0; lia|].
      now rewrite Hn', Hc'.
Qed.

Lemma assign_loop_threshold (rest : list R) :
  forall prev dt1 dt2 c1 c2,
    dt1 <= dt2 -> (c2 <= c1)%Z ->
    Forall2 Z.le (Schuster.assign_loop prev rest dt2 c2)
                 (Schuster.assign_loop prev rest dt1 c1).
Proof.
  induction rest as [|t rest IH]; intros prev dt1 dt2 c1 c2 Hdt Hc;
    [constructor|].
  cbn [Schuster.assign_loop].
  destruct (Rge_dec (t - prev) dt2) as [H2|H2];
    destruct (Rge_dec (t - prev) dt1) as [H1|H1];
    try (exfalso; lra);
    (constructor; [lia|apply IH; [assumption|lia]]).
Qed.

Lemma Forall2_last_le (l2 l1 : list Z) :
  Forall2 Z.le l2 l1 -> (last l2 0 <= last l1 0)%Z.
Proof.
  induction 1 as [|x y l2 l1 Hxy Hall IH]; [cbn; lia|].
  destruct Hall as [|x' y' l2' l1' Hxy' Hall']; [exact Hxy|exact IH].
Qed.

(** X4. A larger gap threshold never splits more: with [dt1 <= dt2] every
    event's cluster ID under [dt2] is at most its ID under [dt1], and so is
    the last ID, hence the number of clusters. *)
Theorem assign_clusters_threshold_monotone (times : list R) (dt1 dt2 : R) :
  dt1 <= dt2 ->
  Forall2 Z.le (Schuster.assign_clusters times dt2)
               (Schuster.assign_clusters times dt1)
  /\ (last (Schuster.assign_clusters times dt2) 0
      <= last (Schuster.assign_clusters times dt1) 0)%Z.
Proof.
  intros Hdt.
  assert (H : Forall2 Z.le (Schuster.assign_clusters times dt2)
                           (Schuster.assign_clusters times dt1)).
  { destruct times as [|t0 rest]; [constructor|].
    unfold Schuster.assign_clusters. constructor; [lia|].
    apply assign_loop_threshold; [assumption|lia]. }
  split; [exact H|now apply Forall2_last_le].
Qed.

(** ** The spectrum *)

Lemma exp_neg_zero : exp (- 0.0) = 1.0.
Proof. replace (- 0.0) with 0 by lra. rewrite exp_0. lra. Qed.

Lemma spectrum_step (times : list R) (dt T : R) (more : list R)
      (spectrum : list SchusterGrid.Entry) :
  T <> 0 ->
  exists e,
    SchusterGrid.spectrum_loop
      (T :: more) times (Schuster.assign_clusters times dt)
      (Z.of_nat (length times))
      (if (Z.of_nat (length times) >? 0)%Z
       then (last (Schuster.assign_clusters times dt) 0 + 1)%Z else 0%Z)
      spectrum
    = SchusterGrid.spectrum_loop
        more times (Schuster.assign_clusters times dt)
        (Z.of_nat (length times))
        (if (Z.of_nat (length times) >? 0)%Z
         then (last (Schuster.assign_clusters times dt) 0 + 1)%Z else 0%Z)
        (spectrum ++ [e])
    /\ SchusterGrid.period_days e = T
    /\ entry_matches times dt e.
Proof.
  intros HT0. cbn [SchusterGrid.spectrum_loop].
  destruct times as [|t0 rest] eqn:Et.
  - cbn. eexists. split; [reflexivity|]. split; [reflexivity|].
    eexists. split; [reflexivity|]. cbn.
    unfold Schuster._standard_p_from_d2, Schuster._compute_d2. cbn.
    rewrite exp_neg_zero. repeat split.
  - rewrite <- Et in *.
    assert (Hne : times <> []) by (rewrite Et; congruence).
    assert (Hpos : (Z.of_nat (length times) >? 0)%Z = true).
    { rewrite Et. reflexivity. }
    rewrite Hpos.
    rewrite compute_phases_some by assumption. cbn [bind].
    rewrite (mapM_some _ (unit_of (Schuster.assign_clusters times dt)
                                  (map (event_phase T) times))).
    2:{ intros cid Hcid. apply in_range in Hcid.
        apply cluster_unit_some.
        - now rewrite assign_clusters_length, length_map.
        - apply (assign_clusters_covers times dt Hne). lia. }
    cbn [bind].
    eexists. split; [reflexivity|]. split; [reflexivity|].
    unfold entry_matches. cbn [SchusterGrid.period_days SchusterGrid.D2
                               SchusterGrid.p_standard
                               SchusterGrid.p_cluster_robust].
    rewrite (schuster_nonempty times T dt Hne HT0).
    eexists. split; [reflexivity|]. cbn. repeat split.
Qed.

Lemma spectrum_loop_spec (times : list R) (dt : R) (periods : list R) :
  (forall T, In T periods -> T <> 0) ->
  forall spectrum,
    exists entries,
      SchusterGrid.spectrum_loop
        periods times (Schuster.assign_clusters times dt)
        (Z.of_nat (length times))
        (if (Z.of_nat (length times) >? 0)%Z
         then (last (Schuster.assign_clusters times dt) 0 + 1)%Z else 0%Z)
        spectrum
      = Some (spectrum ++ entries)
      /\ map SchusterGrid.period_days entries = periods
      /\ Forall (entry_matches times dt) entries.
Proof.
  induction periods as [|T periods IH]; intros HT spectrum.
  - exists []. cbn. rewrite app_nil_r. repeat split. constructor.
  - destruct (spectrum_step times dt T periods spectrum) as (e & -> & HeT & He).
    { apply HT. now left. }
    destruct (IH (fun T' H => HT T' (or_intror H)) (spectrum ++ [e]))
      as (entries & -> & Hper & Hall).
    exists (e :: entries). split; [|split].
    + now rewrite <- app_assoc.
    + cbn. now rewrite HeT, Hper.
    + now constructor.
Qed.

Lemma logspace_positive (start stop : R) (num : nat) :
  forall T, In T (Np.logspace start stop num) -> 0 < T.
Proof.
  intros T HT. unfold Np.logspace in HT.
  apply in_map_iff in HT as (y & <- & _). unfold Rpower. apply exp_pos.
Qed.

(** X5. [schuster_spectrum] is [schuster_single_period] run over the grid:
    for positive grid bounds it returns one entry per grid period, in grid order, and each entry
    carries the D2, standard p and cluster-robust p that
    [schuster_single_period] returns for that period (for an empty catalog,
    the sentinel values). *)
Theorem schuster_spectrum_agrees (times : list R) (dt : R) (n_periods : nat)
        (min_days max_days : R) :
  0 < min_days -> 0 < max_days ->
  exists spectrum,
    fst (SchusterGrid.schuster_spectrum times dt n_periods min_days max_days)
    = Some spectrum
    /\ length spectrum = n_periods
    /\ map SchusterGrid.period_days spectrum
       = Np.logspace (Np.log10 min_days) (Np.log10 max_days) n_periods
    /\ Forall (entry_matches times dt) spectrum.
Proof.
  intros _ _. unfold SchusterGrid.schuster_spectrum. cbn [fst].
  destruct (spectrum_loop_spec times dt
              (Np.logspace (Np.log10 min_days) (Np.log10 max_days) n_periods))
    with (spectrum := @nil SchusterGrid.Entry)
    as (entries & Hloop & Hper & Hall).
  { intros T HT. apply logspace_positive in HT. lra. }
  exists entries. split; [exact Hloop|]. split; [|split; assumption].
  rewrite <- (length_map SchusterGrid.period_days), Hper.
  unfold Np.logspace. now rewrite length_map, linspace_length.
Qed.

(** ** The resultant of unit vectors *)

(** The sum of [n] unit vectors is no longer than [n]. *)
Lemma resultant_bound (phases : list R) :
  (Np.sum (map cos phases)) ^ 2 + (Np.sum (map sin phases)) ^ 2
  <= INR (length phases) ^ 2.
Proof.
  induction phases as [|x phases IH]; [cbn; lra|].
  cbn [map length]. rewrite S_INR.
  change (Np.sum (cos x :: map cos phases))
    with (cos x + Np.sum (map cos phases)).
  change (Np.sum (sin x :: map sin phases))
    with (sin x + Np.sum (map sin phases)).
  set (C := Np.sum (map cos phases)) in *.
  set (S_ := Np.sum (map sin phases)) in *.
  set (n := INR (length phases)) in *.
  assert (Hn : 0 <= n) by apply pos_INR.
  pose proof (sin2_cos2 x) as Hu. unfold Rsqr in Hu.
  assert (Hcs : (cos x * C + sin x * S_) ^ 2 <= n ^ 2).
  { assert (0 <= (cos x * S_ - sin x * C) ^ 2) by apply pow2_ge_0.
    nra. }
  assert (Hdot : cos x * C + sin x * S_ <= n) by nra.
  nra.
Qed.

Lemma mfpa_power_range (phases : list R) :
  0 <= Mfpa.mfpa_power phases <= INR (length phases).
Proof.
  split; [apply mfpa_power_nonneg|].
  unfold Mfpa.mfpa_power.
  destruct (Nat.eqb_spec (length phases) 0) as [->|Hn]; [cbn; lra|].
  assert (Hpos : 0 < INR (length phases)) by (apply lt_0_INR; lia).
  pose proof (resultant_bound phases) as Hb.
  apply (Rmult_le_reg_r (INR (length phases))); [assumption|].
  replace (((Np.sum (map cos phases)) ^ 2 + (Np.sum (map sin phases)) ^ 2)
           / INR (length phases) * INR (length phases))
    with ((Np.sum (map cos phases)) ^ 2 + (Np.sum (map sin phases)) ^ 2)
    by (field; lra).
  lra.
Qed.

(** X6. The MFPA power of [n] phases lies between 0 and [n], and it is [n]
    when all phases are the same. *)
Theorem mfpa_power_bounds (phases : list R) (theta : R) (n : nat) :
  0 <= Mfpa.mfpa_power phases <= INR (length phases)
  /\ Mfpa.mfpa_power (repeat theta n) = INR n.
Proof.
  split; [apply mfpa_power_range|].
  unfold Mfpa.mfpa_power. rewrite repeat_length.
  destruct (Nat.eqb_spec n 0) as [->|Hn]; [cbn; lra|].
  rewrite !map_repeat, !sum_repeat.
  assert (Hpos : INR n <> 0) by (apply not_0_INR; lia).
  pose proof (sin2_cos2 theta) as Hu. unfold Rsqr in Hu.
  replace ((INR n * cos theta) ^ 2 + (INR n * sin theta) ^ 2)
    with (INR n * INR n * (sin theta * sin theta + cos theta * cos theta))
    by ring.
  rewrite Hu. field. assumption.
Qed.

Lemma compute_d2_power (phases : list R) :
  Schuster._compute_d2 (Np.sum (map cos phases)) (Np.sum (map sin phases))
                       (Z.of_nat (length phases))
  = Mfpa.mfpa_power phases.
Proof.
  unfold Schuster._compute_d2, Mfpa.mfpa_power.
  destruct (Nat.eqb_spec (length phases) 0) as [->|Hn]; [reflexivity|].
  destruct (Z.eqb_spec (Z.of_nat (length phases)) 0) as [H0|_]; [lia|].
  now rewrite <- INR_IZR_INZ.
Qed.

(** X7. The standard Schuster statistic is the MFPA power: for a non-zero
    period the D2 of [schuster_single_period] is [mfpa_power] of the phases
    [compute_phases] gives, so it lies between 0 and the number of events,
    and the standard p-value is [exp (- power)]. *)
Theorem schuster_d2_is_mfpa_power (times : list R) (period_days dt : R) :
  period_days <> 0 ->
  exists r phases,
    Schuster.schuster_single_period times period_days dt = Some r
    /\ Schuster.compute_phases times period_days = Some phases
    /\ Schuster.D2 r = Mfpa.mfpa_power phases
    /\ Schuster.p_standard r = exp (- Mfpa.mfpa_power phases)
    /\ 0 <= Schuster.D2 r <= IZR (Schuster.n_events r).
Proof.
  intros Hp. rewrite compute_phases_some by assumption.
  destruct times as [|t0 rest] eqn:Et.
  - eexists. eexists. split; [reflexivity|]. split; [reflexivity|].
    cbn. unfold Mfpa.mfpa_power. cbn.
    split; [reflexivity|]. split; [now rewrite exp_neg_zero|]. lra.
  - rewrite <- Et.
    assert (Hne : times <> []) by (rewrite Et; congruence).
    rewrite (schuster_nonempty times period_days dt Hne Hp).
    eexists. eexists. split; [reflexivity|]. split; [reflexivity|].
    cbn [Schuster.D2 Schuster.p_standard Schuster.n_events].
    unfold Schuster._standard_p_from_d2.
    rewrite <- (length_map (event_phase period_days) times).
    rewrite compute_d2_power.
    split; [reflexivity|]. split; [reflexivity|].
    rewrite <- INR_IZR_INZ. apply mfpa_power_range.
Qed.

(** ** The scan: significant periods *)

Section ScanSignificant.

Variable Generator : Type.
Variable default_rng : Z -> Generator.
Variable uniform : Generator -> R -> R -> nat -> list R * Generator.
Variable percentile : list R -> R -> R.

(** X8. Whenever [mfpa_scan] returns (the period bounds being positive),
    [significant_periods] lists, in
    spectrum order, exactly the spectrum entries whose power exceeds their
    p95 threshold, with the same period, power, p-value and label; every
    p-value is a fraction in [0, 1]; and every power is [mfpa_power] of the
    phases [compute_phases] gives at the entry's period (the standard
    Schuster D2 at that period). *)
Theorem mfpa_scan_significant
        (times : list R) (n_periods : nat) (min_days max_days : R)
        (n_bootstrap : nat) (seed : Z) (w w' : Mfpa.World Generator)
        (res : Mfpa.ScanResult) :
  0 < min_days -> 0 < max_days ->
  Mfpa.mfpa_scan Generator default_rng uniform percentile
                 times n_periods min_days max_days n_bootstrap seed w
  = (Some res, w') ->
  Mfpa.significant_periods res
  = map significant_of_entry (filter above_p95 (Mfpa.spectrum res))
  /\ forall e, In e (Mfpa.spectrum res) ->
               0 <= Mfpa.p_mfpa e <= 1
               /\ exists phases,
                   Schuster.compute_phases times (Mfpa.period_days e)
                   = Some phases
                   /\ Mfpa.power e = Mfpa.mfpa_power phases.
Proof.
  intros _ _ Hrun.
  destruct (mfpa_scan_run Generator default_rng uniform percentile times
              n_periods min_days max_days n_bootstrap seed w)
    as (rec1 & g' & Hm).
  destruct (Mfpa.scan_loop _ 0 times _ _ _ [] []) as [out|] eqn:Hout.
  - destruct Hm as [rec2 Hm]. rewrite Hm in Hrun. injection Hrun as <- _.
    apply scan_loop_detail in Hout as (entries & Hfst & Hsnd & Hall).
    cbn [app] in Hfst, Hsnd. cbn [Mfpa.spectrum Mfpa.significant_periods].
    rewrite Hfst, Hsnd. split; [reflexivity|].
    now apply Forall_forall.
  - rewrite Hm in Hrun. discriminate Hrun.
Qed.

End ScanSignificant.

(** ** Overlap fractions *)

Lemma overlap_fraction_times_width (a_start a_end b_start b_end : R) :
  a_start < a_end ->
  SubB.overlap_fraction a_start a_end b_start b_end * (a_end - a_start)
  = Rmax 0 (Rmin a_end b_end - Rmax a_start b_start).
Proof.
  intros Hw. unfold SubB.overlap_fraction.
  destruct (Rle_dec (a_end - a_start) 0); [lra|]. field. lra.
Qed.

(** X9. [overlap_fraction] is a fraction in [0, 1]; it is 1 exactly when
    interval A has positive width and lies inside B, and 0 exactly when A has
    no positive width or the two intervals share no stretch of positive
    length. *)
Theorem overlap_fraction_range (a_start a_end b_start b_end : R) :
  let f := SubB.overlap_fraction a_start a_end b_start b_end in
  0 <= f <= 1
  /\ (f = 1 <-> a_start < a_end /\ b_start <= a_start /\ a_end <= b_end)
  /\ (f = 0 <-> a_end <= a_start \/ Rmin a_end b_end <= Rmax a_start b_start).
Proof.
  intros f. subst f.
  destruct (Rle_lt_dec a_end a_start) as [Hw|Hw].
  - assert (H0 : SubB.overlap_fraction a_start a_end b_start b_end = 0).
    { unfold SubB.overlap_fraction.
      destruct (Rle_dec (a_end - a_start) 0); [reflexivity|lra]. }
    rewrite H0. split; [lra|]. split; split; intros; lra || tauto.
  - pose proof (overlap_fraction_times_width a_start a_end b_start b_end Hw)
      as Hf.
    set (f := SubB.overlap_fraction a_start a_end b_start b_end) in *.
    assert (Hov : 0 <= Rmax 0 (Rmin a_end b_end - Rmax a_start b_start)
                  <= a_end - a_start).
    { unfold Rmax, Rmin. repeat destruct (Rle_dec _ _); lra. }
    assert (Hr : 0 <= f <= 1) by (split; nra).
    split; [exact Hr|]. split.
    + split.
      * intros H1. rewrite H1 in Hf. split; [exact Hw|].
        revert Hf. unfold Rmax, Rmin. repeat destruct (Rle_dec _ _); lra.
      * intros (_ & Hs & He).
        assert (Hfull : Rmax 0 (Rmin a_end b_end - Rmax a_start b_start)
                        = a_end - a_start).
        { unfold Rmax, Rmin. repeat destruct (Rle_dec _ _); lra. }
        rewrite Hfull in Hf. nra.
    + split.
      * intros H0. rewrite H0 in Hf. right.
        revert Hf. unfold Rmax, Rmin. repeat destruct (Rle_dec _ _); lra.
      * intros [Hc|Hc]; [lra|].
        assert (Hnone : Rmax 0 (Rmin a_end b_end - Rmax a_start b_start) = 0).
        { revert Hc. unfold Rmax, Rmin. repeat destruct (Rle_dec _ _); lra. }
        rewrite Hnone in Hf. nra.
Qed.

(** Overlap ratios above one half are overlap lengths above half the
    width. *)
Lemma overlap_ratio_gt (s e : R) (b : SubB.Baseline) :
  overlap_ratio s e b > 0.5 ->
  s < e
  /\ Rmax 0 (Rmin e (SubB.phase_end b) - Rmax s (SubB.phase_start b))
     > 0.5 * (e - s).
Proof.
  unfold overlap_ratio. intros H.
  destruct (Rle_lt_dec e s) as [Hw|Hw].
  - exfalso. rewrite (Rmax_left 0) in H.
    + unfold Rdiv in H. rewrite Rmult_0_l in H. lra.
    + pose proof (Rmin_l e (SubB.phase_end b)).
      pose proof (Rmax_l s (SubB.phase_start b)). lra.
  - split; [exact Hw|].
    set (ov := Rmax 0 (Rmin e (SubB.phase_end b) - Rmax s (SubB.phase_start b))) in *.
    assert (Hq : ov = ov / (e - s) * (e - s)) by (field; lra).
    nra.
Qed.

Lemma baselines_exclusive (s e : R) :
  ~ (overlap_ratio s e baseline_1 > 0.5 /\ overlap_ratio s e baseline_2 > 0.5)
  /\ ~ (overlap_ratio s e baseline_1 > 0.5 /\ overlap_ratio s e baseline_3 > 0.5)
  /\ ~ (overlap_ratio s e baseline_2 > 0.5 /\ overlap_ratio s e baseline_3 > 0.5).
Proof.
  repeat split; intros [Ha Hb];
    apply overlap_ratio_gt in Ha as [Hw Ha];
    apply overlap_ratio_gt in Hb as [_ Hb];
    revert Ha Hb;
    unfold baseline_1, baseline_2, baseline_3;
    cbn [SubB.phase_start SubB.phase_end];
    unfold Rmax, Rmin; repeat destruct (Rle_dec _ _); lra.
Qed.

(** X10. The three baselines being disjoint, at most one of them can cover
    more than half of an interval: the order in which [classify_interval]
    tries them never decides the answer, and it returns "matches interval i"
    exactly when baseline i's overlap ratio exceeds 0.5. *)
Theorem classify_interval_no_ties (s e : R) :
  ~ (overlap_ratio s e baseline_1 > 0.5 /\ overlap_ratio s e baseline_2 > 0.5)
  /\ ~ (overlap_ratio s e baseline_1 > 0.5 /\ overlap_ratio s e baseline_3 > 0.5)
  /\ ~ (overlap_ratio s e baseline_2 > 0.5 /\ overlap_ratio s e baseline_3 > 0.5)
  /\ (SubB.classify_interval s e = "matches interval 1"
      <-> overlap_ratio s e baseline_1 > 0.5)
  /\ (SubB.classify_interval s e = "matches interval 2"
      <-> overlap_ratio s e baseline_2 > 0.5)
  /\ (SubB.classify_interval s e = "matches interval 3"
      <-> overlap_ratio s e baseline_3 > 0.5).
Proof.
  destruct (baselines_exclusive s e) as (H12 & H13 & H23).
  split; [exact H12|]. split; [exact H13|]. split; [exact H23|].
  unfold SubB.classify_interval, SubB.A1B_BASELINE_INTERVALS.
  fold baseline_1 baseline_2 baseline_3.
  rewrite !classify_loop_cons. simpl SubB.classify_loop.
  change (Np.str (SubB.id baseline_1)) with "1".
  change (Np.str (SubB.id baseline_2)) with "2".
  change (Np.str (SubB.id baseline_3)) with "3".
  simpl append.
  destruct (Rgt_dec (overlap_ratio s e baseline_1) 0.5) as [H1|H1];
    destruct (Rgt_dec (overlap_ratio s e baseline_2) 0.5) as [H2|H2];
    destruct (Rgt_dec (overlap_ratio s e baseline_3) 0.5) as [H3|H3];
    repeat split; intros; try discriminate; tauto.
Qed.

(** ** The two detectors find the same runs *)

Lemma maximal_runs_incl (P : Z -> Prop) (k : Z) (r1 r2 : list (Z * Z)) :
  maximal_runs P k r1 -> maximal_runs P k r2 ->
  forall s e, In (s, e) r1 -> In (s, e) r2.
Proof.
  intros (H1 & _ & _) (H2 & C2 & _) s e Hin.
  destruct (H1 s e Hin) as (Hse & _ & Hall & Hbefore & Hafter).
  destruct (C2 s (Hall s ltac:(lia))) as (s' & e' & Hin' & Hs').
  destruct (H2 s' e' Hin') as (Hse' & _ & Hall' & Hbefore' & Hafter').
  assert (s' = s).
  { destruct (Z.eq_dec s' s) as [|Hne]; [assumption|].
    exfalso. apply Hbefore. apply Hall'. lia. }
  subst s'.
  assert (e' = e).
  { destruct (Z_lt_le_dec e' e) as [Hlt|Hge].
    - exfalso. apply Hafter'. apply Hall. lia.
    - destruct (Z.eq_dec e' e) as [|Hne]; [assumption|].
      exfalso. apply Hafter. apply Hall'. lia. }
  now subst e'.
Qed.

Lemma sorted_runs_equal (l1 : list (Z * Z)) :
  forall l2,
    StronglySorted (fun r1 r2 => (snd r1 < fst r2)%Z) l1 ->
    StronglySorted (fun r1 r2 => (snd r1 < fst r2)%Z) l2 ->
    (forall r, In r l1 -> (fst r < snd r)%Z) ->
    (forall r, In r l1 <-> In r l2) ->
    l1 = l2.
Proof.
  induction l1 as [|a l1 IH]; intros l2 S1 S2 Hpos Heq.
  - destruct l2 as [|b l2]; [reflexivity|].
    exfalso. apply (Heq b). now left.
  - destruct l2 as [|b l2].
    { exfalso. apply (Heq a). now left. }
    apply StronglySorted_inv in S1 as [S1 Ha].
    apply StronglySorted_inv in S2 as [S2 Hb].
    rewrite Forall_forall in Ha, Hb.
    assert (Hab : a = b).
    { assert (Ha2 : In a (b :: l2)) by (apply Heq; now left).
      assert (Hb1 : In b (a :: l1)) by (apply Heq; now left).
      destruct Ha2 as [Hba|Ha2]; [now symmetry|].
      destruct Hb1 as [Hab|Hb1]; [assumption|].
      exfalso.
      pose proof (Hpos a (or_introl eq_refl)).
      pose proof (Hpos b (or_intror Hb1)).
      apply Hb in Ha2. apply Ha in Hb1. lia. }
    subst b. f_equal. apply IH; try assumption.
    + intros r Hr. apply Hpos. now right.
    + intros r. split; intros Hr.
      * assert (H : In r (a :: l2)) by (apply Heq; now right).
        destruct H as [<-|H]; [|assumption].
        exfalso. apply Ha in Hr. pose proof (Hpos a (or_introl eq_refl)). lia.
      * assert (H : In r (a :: l1)) by (apply Heq; now right).
        destruct H as [<-|H]; [|assumption].
        exfalso. apply Hb in Hr. pose proof (Hpos a (or_introl eq_refl)). lia.
Qed.

Lemma maximal_runs_unique (P : Z -> Prop) (k : Z) (r1 r2 : list (Z * Z)) :
  maximal_runs P k r1 -> maximal_runs P k r2 -> r1 = r2.
Proof.
  intros M1 M2. apply sorted_runs_equal.
  - apply M1.
  - apply M2.
  - intros [s e] Hin. destruct M1 as (H1 & _). destruct (H1 s e Hin). cbn. lia.
  - intros [s e]. split; now apply maximal_runs_incl with (P := P) (k := k).
Qed.

Lemma find_elevated_intervals_runs (bin_counts : list R) (k n : Z) :
  (0 < k)%Z -> (0 <= n)%Z -> Z.of_nat (length bin_counts) = k ->
  exists runs,
    B1.find_elevated_intervals bin_counts k n
    = Some (map (fun r => B1.interval_of_run (1.0 / IZR k) (fst r) (snd r)) runs)
    /\ maximal_runs (elevated bin_counts (IZR n / IZR k)) k runs.
Proof.
  intros Hk Hn Hlen.
  assert (HE : 0 <= IZR n / IZR k).
  { unfold Rdiv. apply Rmult_le_pos; [now apply IZR_le|].
    left. apply Rinv_0_lt_compat. now apply IZR_lt. }
  unfold B1.find_elevated_intervals.
  destruct (Z.eqb_spec k 0) as [->|_]; [lia|].
  assert (Hml : Z.of_nat (length (B1.elevated_mask bin_counts (IZR n / IZR k))) = k).
  { unfold B1.elevated_mask. now rewrite length_map. }
  destruct (scan_bins_spec (B1.elevated_mask bin_counts (IZR n / IZR k)) k Hml
              (1.0 / IZR k) (Z.to_nat k) 0 [])
    as (runs & Hruns & H1 & H2 & H3); [lia|lia| |].
  { left. intros Hm. apply (marked_range _ _ Hml) in Hm. lia. }
  exists runs. split; [exact Hruns|].
  apply (maximal_runs_ext (marked (B1.elevated_mask bin_counts (IZR n / IZR k))));
    [now apply elevated_mask_marked|].
  split; [|split]; [assumption| |assumption].
  intros j Hj. apply H2; [|assumption].
  apply (marked_range _ _ Hml) in Hj. lia.
Qed.

Lemma merged_bins_runs (bin_counts : list R) (k : Z) (expected : R) :
  0 <= expected -> Z.of_nat (length bin_counts) = k ->
  inclusive_runs 0 (elevated bin_counts expected)
    (SubB.merge_adjacent_bins
       (SubB.identify_elevated_bins bin_counts expected) k).
Proof.
  intros HE Hlen.
  destruct (identify_elevated_bins_spec bin_counts expected HE) as (Hsorted & Hin).
  apply (inclusive_runs_ext 0
           (fun j => In j (SubB.identify_elevated_bins bin_counts expected)));
    [assumption|].
  apply merge_adjacent_bins_runs; [assumption|].
  intros j Hj. apply Hin in Hj as [Hj _]. lia.
Qed.

(** X11. The detector of case B1 and the detector of case A4 find the same
    runs of bins: [find_elevated_intervals] returns the intervals of exactly
    the bin ranges that [merge_adjacent_bins] returns for
    [identify_elevated_bins] (whose ends are inclusive). *)
Theorem detectors_agree (bin_counts : list R) (k n : Z) :
  (0 < k)%Z -> (0 <= n)%Z -> Z.of_nat (length bin_counts) = k ->
  B1.find_elevated_intervals bin_counts k n
  = Some (map (fun r => B1.interval_of_run (1.0 / IZR k) (fst r) (snd r + 1))
              (SubB.merge_adjacent_bins
                 (SubB.identify_elevated_bins bin_counts (IZR n / IZR k)) k)).
Proof.
  intros Hk Hn Hlen.
  assert (HE : 0 <= IZR n / IZR k).
  { unfold Rdiv. apply Rmult_le_pos; [now apply IZR_le|].
    left. apply Rinv_0_lt_compat. now apply IZR_lt. }
  destruct (find_elevated_intervals_runs bin_counts k n Hk Hn Hlen)
    as (runs & -> & Hmax).
  pose proof (merged_bins_runs bin_counts k (IZR n / IZR k) HE Hlen) as Hinc.
  apply (inclusive_runs_maximal _ k) in Hinc.
  2:{ intros j [Hj _]. lia. }
  rewrite (maximal_runs_unique _ _ _ _ Hmax Hinc).
  rewrite map_map. reflexivity.
Qed.

(** ** Recovered phase intervals *)

Lemma sorted_map_runs (k : Z) (runs : list (Z * Z)) :
  (0 < k)%Z ->
  StronglySorted (fun r1 r2 => (snd r1 + 1 < fst r2)%Z) runs ->
  StronglySorted (fun a b : R * R => snd a + 1 / IZR k <= fst b)
    (map (fun r => (IZR (fst r) / IZR k, IZR (snd r + 1) / IZR k)) runs).
Proof.
  intros Hk. assert (HK : 0 < IZR k) by now apply IZR_lt.
  induction 1 as [|r runs Hs IH Hall]; cbn [map]; constructor; [assumption|].
  rewrite Forall_forall in *. intros iv Hiv.
  apply in_map_iff in Hiv as (r' & <- & Hr'). cbn [fst snd].
  specialize (Hall r' Hr').
  assert (Hle : IZR (snd r + 1) + 1 <= IZR (fst r')).
  { rewrite <- plus_IZR. apply IZR_le. lia. }
  replace (IZR (snd r + 1) / IZR k + 1 / IZR k)
    with ((IZR (snd r + 1) + 1) / IZR k) by (field; lra).
  unfold Rdiv. apply Rmult_le_compat_r; [|assumption].
  left. now apply Rinv_0_lt_compat.
Qed.

(** X12. The phase intervals recovered from the elevated bins
    ([identify_elevated_bins], [merge_adjacent_bins], then
    [bins_to_phase_interval] on each range) lie in [0, 1], have positive
    width, come in ascending order and are separated from one another by at
    least one bin width. *)
Theorem recovered_intervals_separated (obs : list R) (k : Z) (expected : R) :
  (0 < k)%Z -> 0 <= expected -> Z.of_nat (length obs) = k ->
  let merged :=
    SubB.merge_adjacent_bins (SubB.identify_elevated_bins obs expected) k in
  exists intervals,
    mapM (fun r => SubB.bins_to_phase_interval (fst r) (snd r) k) merged
    = Some intervals
    /\ length intervals = length merged
    /\ (forall iv, In iv intervals -> 0 <= fst iv < snd iv /\ snd iv <= 1)
    /\ StronglySorted (fun a b : R * R => snd a + 1 / IZR k <= fst b) intervals.
Proof.
  intros Hk HE Hlen merged.
  assert (HK : 0 < IZR k) by now apply IZR_lt.
  pose proof (merged_bins_runs obs k expected HE Hlen) as (H1 & _ & H3).
  fold merged in H1, H3.
  exists (map (fun r => (IZR (fst r) / IZR k, IZR (snd r + 1) / IZR k)) merged).
  split; [|split; [|split]].
  - apply mapM_some. intros r _. unfold SubB.bins_to_phase_interval.
    destruct (Z.eqb_spec k 0); [lia|reflexivity].
  - apply length_map.
  - intros iv Hiv. apply in_map_iff in Hiv as ([s e] & <- & Hr).
    cbn [fst snd]. destruct (H1 s e Hr) as (Hse & Hall & _).
    destruct (Hall e ltac:(lia)) as [He _].
    assert (0 <= IZR s) by (apply IZR_le; lia).
    assert (IZR s < IZR (e + 1)) by (apply IZR_lt; lia).
    assert (IZR (e + 1) <= IZR k) by (apply IZR_le; lia).
    assert (Hinv : 0 < / IZR k) by now apply Rinv_0_lt_compat.
    unfold Rdiv. split; [split|].
    + now apply Rmult_le_pos; [|left].
    + now apply Rmult_lt_compat_r.
    + apply (Rmult_le_reg_r (IZR k)); [assumption|].
      rewrite Rmult_assoc, Rinv_l by lra. lra.
  - now apply sorted_map_runs.
Qed.

(** ** Solar phase *)

(** X13. For a positive year length and seconds that are not negative,
    [compute_phase] gives every event a phase in [0, 1), and an event that
    lies within the first year keeps its fraction of the year unchanged.
    (For a negative operand the rounded float remainder can be 1.0.) *)
Theorem compute_phase_in_range (solar_secs : list R) (year_secs : R) :
  0 < year_secs ->
  (forall s, In s solar_secs -> 0 <= s) ->
  exists phases,
    SubBPhase.compute_phase solar_secs year_secs = Some phases
    /\ length phases = length solar_secs
    /\ (forall p, In p phases -> 0 <= p < 1)
    /\ (forall i, (i < length solar_secs)%nat ->
                  nth i solar_secs 0 < year_secs ->
                  nth i phases 0 = nth i solar_secs 0 / year_secs).
Proof.
  intros Hy Hpos. unfold SubBPhase.compute_phase.
  exists (map (fun s => Np.fmod (s / year_secs) 1.0) solar_secs).
  split; [|split; [|split]].
  - apply mapM_some. intros s _.
    destruct (Req_dec_T year_secs 0); [lra|reflexivity].
  - apply length_map.
  - intros p Hp. apply in_map_iff in Hp as (s & <- & _).
    pose proof (fmod_range (s / year_secs) 1.0 ltac:(lra)). lra.
  - intros i Hi Hlt.
    rewrite (nth_map_in _ _ _ 0) by assumption.
    assert (Hs : 0 <= nth i solar_secs 0) by (apply Hpos, nth_In; assumption).
    set (x := nth i solar_secs 0) in *.
    assert (Hq : 0 <= x / year_secs < 1).
    { split.
      - apply Rmult_le_pos; [assumption|]. left. now apply Rinv_0_lt_compat.
      - apply (Rmult_lt_reg_r year_secs); [assumption|].
        unfold Rdiv. rewrite Rmult_assoc, Rinv_l by lra. lra. }
    rewrite fmod_1, (Zfloor_eq 0); lra.
Qed.

(** ** Mean resultant lengths *)

Lemma select_map_filter {A : Type} (f : A -> bool) (l : list A) :
  Np.select (map f l) l = filter f l.
Proof.
  induction l as [|a l IH]; [reflexivity|].
  cbn [map Np.select filter]. destruct (f a); now rewrite IH.
Qed.

(** The mean of [n >= 1] unit vectors is no longer than 1. *)
Lemma mean_resultant_bound (angles : list R) :
  angles <> [] ->
  let n := INR (length angles) in
  (Np.sum (map cos angles) / n) ^ 2 + (Np.sum (map sin angles) / n) ^ 2 <= 1.
Proof.
  intros Hne n.
  assert (Hn : 0 < n).
  { apply lt_0_INR. destruct angles; [congruence|cbn; lia]. }
  pose proof (resultant_bound angles) as Hb. fold n in Hb.
  replace ((Np.sum (map cos angles) / n) ^ 2 + (Np.sum (map sin angles) / n) ^ 2)
    with (((Np.sum (map cos angles)) ^ 2 + (Np.sum (map sin angles)) ^ 2)
          / (n ^ 2)) by (field; lra).
  apply (Rmult_le_reg_r (n ^ 2)); [nra|].
  unfold Rdiv. rewrite Rmult_assoc, Rinv_l by nra. lra.
Qed.

Lemma sqrt_unit (x : R) : 0 <= x <= 1 -> 0 <= sqrt x <= 1.
Proof.
  intros [H0 H1]. split; [apply sqrt_pos|].
  rewrite <- sqrt_1. now apply sqrt_le_1_alt.
Qed.

Lemma rayleigh_some (phases : list R) :
  phases <> [] ->
  let angles := map (fun ph => 2.0 * PI * ph) phases in
  let n := INR (length phases) in
  let mean_cos := Np.sum (map cos angles) / n in
  let mean_sin := Np.sum (map sin angles) / n in
  B1.compute_rayleigh phases
  = Some (sqrt (mean_cos ^ 2 + mean_sin ^ 2),
          exp (- n * sqrt (mean_cos ^ 2 + mean_sin ^ 2) ^ 2),
          Np.fmod (Np.arctan2 mean_sin mean_cos / (2.0 * PI)) 1.0).
Proof.
  intros Hne angles n mean_cos mean_sin. unfold B1.compute_rayleigh.
  rewrite !mean_some
    by (intros H; apply map_eq_nil in H; apply map_eq_nil in H; contradiction).
  cbn [bind]. rewrite !length_map. reflexivity.
Qed.

(** X14. [compute_interval_coherence] always returns a number between 0 and
    1.  It is 0 when no phase lies in [[phase_start, phase_end)], and
    otherwise it is the Rayleigh R that [compute_rayleigh] gives the phases
    lying in the interval. *)
Theorem interval_coherence_range (phase : list R) (phase_start phase_end : R) :
  let sub :=
    filter (fun p => Np.geb p phase_start && NpMore.ltb p phase_end) phase in
  exists r,
    SubBPhase.compute_interval_coherence phase phase_start phase_end = Some r
    /\ 0 <= r <= 1
    /\ (sub = [] -> r = 0)
    /\ (sub <> [] ->
        exists p m, B1.compute_rayleigh sub = Some (r, p, m)).
Proof.
  intros sub. unfold SubBPhase.compute_interval_coherence.
  rewrite select_map_filter. fold sub.
  destruct sub as [|x sub'] eqn:Es.
  - exists 0.0. cbn. split; [reflexivity|].
    split; [lra|]. split; [intros _; lra|congruence].
  - rewrite <- Es.
    assert (Hne : sub <> []) by (rewrite Es; congruence).
    replace (length sub =? 0)%nat with false
      by (symmetry; apply Nat.eqb_neq; rewrite Es; cbn; lia).
    assert (Ha : map (fun p => 2.0 * PI * p) sub <> [])
      by (intros H; apply map_eq_nil in H; contradiction).
    rewrite !mean_some
      by (intros H; apply map_eq_nil in H; contradiction).
    cbn [bind]. eexists. split; [reflexivity|].
    rewrite !length_map.
    pose proof (mean_resultant_bound _ Ha) as Hb. cbv zeta in Hb.
    rewrite length_map in Hb.
    split; [|split; [intros; contradiction|]].
    + apply sqrt_unit. split; [|exact Hb].
      apply Rplus_le_le_0_compat; apply pow2_ge_0.
    + intros _. rewrite (rayleigh_some sub Hne). do 2 eexists. reflexivity.
Qed.

(** X15. For a non-empty phase array the Rayleigh R of [compute_rayleigh]
    and the mean phase both lie in [0, 1] (the remainder that gives the mean
    phase is taken of a value that can be negative, so its rounded float
    result can be 1.0 itself); [n * R^2] is the MFPA power of the phase
    angles, so the Rayleigh p-value is the standard Schuster p-value
    [exp (- power)] of the same angles. *)
Theorem rayleigh_statistics (phases : list R) :
  phases <> [] ->
  let angles := map (fun ph => 2.0 * PI * ph) phases in
  exists R_ p m,
    B1.compute_rayleigh phases = Some (R_, p, m)
    /\ 0 <= R_ <= 1
    /\ 0 <= m <= 1
    /\ INR (length phases) * R_ ^ 2 = Mfpa.mfpa_power angles
    /\ p = Schuster._standard_p_from_d2 (Mfpa.mfpa_power angles).
Proof.
  intros Hne angles. rewrite (rayleigh_some phases Hne). fold angles.
  do 3 eexists. split; [reflexivity|].
  assert (Ha : angles <> [])
    by (intros H; apply map_eq_nil in H; contradiction).
  assert (Hlen : length angles = length phases) by apply length_map.
  pose proof (mean_resultant_bound _ Ha) as Hb. cbv zeta in Hb.
  rewrite Hlen in Hb.
  set (n := INR (length phases)) in *.
  set (C := Np.sum (map cos angles)) in *.
  set (S_ := Np.sum (map sin angles)) in *.
  assert (Hn : 0 < n).
  { apply lt_0_INR. destruct phases; [congruence|cbn; lia]. }
  assert (H0 : 0 <= (C / n) ^ 2 + (S_ / n) ^ 2)
    by (apply Rplus_le_le_0_compat; apply pow2_ge_0).
  assert (Hpow : n * sqrt ((C / n) ^ 2 + (S_ / n) ^ 2) ^ 2
                 = Mfpa.mfpa_power angles).
  { replace (sqrt ((C / n) ^ 2 + (S_ / n) ^ 2) ^ 2)
      with ((C / n) ^ 2 + (S_ / n) ^ 2)
      by (now rewrite pow2_sqrt).
    unfold Mfpa.mfpa_power. rewrite Hlen.
    replace (length phases =? 0)%nat with false
      by (symmetry; apply Nat.eqb_neq; destruct phases; [congruence|cbn; lia]).
    fold C S_ n. field. lra. }
  split; [apply sqrt_unit; split; assumption|].
  split; [pose proof (fmod_range (Np.arctan2 (S_ / n) (C / n) / (2.0 * PI)) 1.0
                        ltac:(lra)); lra|].
  split; [exact Hpow|].
  unfold Schuster._standard_p_from_d2. rewrite <- Hpow. f_equal. ring.
Qed.

(** ** The aftershock detector of case A4 *)

Lemma mapM_none {A B : Type} (f : A -> option B) (l : list A) (a : A) :
  In a l -> f a = None -> mapM f l = None.
Proof.
  induction l as [|x l IH]; intros Hin Hf; [contradiction|].
  cbn [mapM]. destruct Hin as [->|Hin].
  - now rewrite Hf.
  - destruct (f x); [cbn [bind]|reflexivity]. now rewrite IH.
Qed.

Lemma elevated_indices_identify (obs : list R) (expected : R) :
  SubC.elevated_indices obs (Z.of_nat (length obs)) expected
  = Some (SubB.identify_elevated_bins obs expected).
Proof.
  unfold SubC.elevated_indices, SubB.identify_elevated_bins.
  set (g := fun i : Z =>
              if Rlt_dec expected 0 then false
              else Np.gtb (nth (Z.to_nat i) obs 0) (expected + sqrt expected)).
  rewrite (mapM_some _ g).
  - cbn [bind]. rewrite select_map_filter. f_equal. subst g.
    destruct (Rlt_dec expected 0); [|reflexivity].
    induction (Np.range 0 (Z.of_nat (length obs))) as [|i l IH];
      [reflexivity|exact IH].
  - intros i Hi. apply in_range in Hi.
    rewrite (nth_error_nth' obs 0) by lia. reflexivity.
Qed.

Lemma subc_merge_loop_map (k : Z) (rest : list Z) :
  k <> 0%Z ->
  forall start prev acc,
    SubC.merge_loop rest k start prev
      (map (fun r => (IZR (fst r) / IZR k, IZR (snd r + 1) / IZR k)) acc)
    = Some (map (fun r => (IZR (fst r) / IZR k, IZR (snd r + 1) / IZR k))
                (SubB.merge_loop rest start prev acc)).
Proof.
  intros Hk. unfold SubC.interval_dict.
  induction rest as [|idx rest IH]; intros start prev acc;
    cbn [SubC.merge_loop SubB.merge_loop]; unfold SubC.interval_dict;
    destruct (Z.eqb_spec k 0) as [|_]; try contradiction; cbn [bind].
  - now rewrite map_app.
  - destruct (idx =? prev + 1)%Z; [apply IH|].
    rewrite <- IH. now rewrite map_app.
Qed.

(** X16. The aftershock detector [get_elevated_intervals] of sub-analysis C
    returns, for [k] bin counts, exactly the phase intervals that
    sub-analysis B obtains with [identify_elevated_bins],
    [merge_adjacent_bins] and [bins_to_phase_interval]; asked for more bins
    than there are counts it raises. *)
Theorem subc_detector_is_subb_pipeline (obs : list R) (expected : R) (extra : positive) :
  let k := Z.of_nat (length obs) in
  SubC.get_elevated_intervals obs k expected
  = mapM (fun r => SubB.bins_to_phase_interval (fst r) (snd r) k)
         (SubB.merge_adjacent_bins (SubB.identify_elevated_bins obs expected) k)
  /\ SubC.get_elevated_intervals obs (k + Z.pos extra) expected = None.
Proof.
  intros k. split.
  - unfold SubC.get_elevated_intervals. subst k.
    rewrite elevated_indices_identify. cbn [bind].
    set (k := Z.of_nat (length obs)).
    destruct (SubB.identify_elevated_bins obs expected) as [|e0 rest] eqn:Ee;
      [reflexivity|].
    assert (Hk : k <> 0%Z).
    { assert (Hin : In e0 (SubB.identify_elevated_bins obs expected))
        by (rewrite Ee; now left).
      unfold SubB.identify_elevated_bins in Hin.
      destruct (Rlt_dec expected 0); [contradiction|].
      apply filter_In in Hin as [Hin _]. apply in_range in Hin. lia. }
    unfold SubB.merge_adjacent_bins.
    rewrite (mapM_some _
               (fun r => (IZR (fst r) / IZR k, IZR (snd r + 1) / IZR k))).
    + apply (subc_merge_loop_map k rest Hk e0 e0 []).
    + intros r _. unfold SubB.bins_to_phase_interval.
      destruct (Z.eqb_spec k 0); [contradiction|reflexivity].
  - unfold SubC.get_elevated_intervals, SubC.elevated_indices.
    rewrite (mapM_none _ _ k); [reflexivity| |].
    + apply in_range. lia.
    + subst k. rewrite Nat2Z.id.
      now rewrite (proj2 (nth_error_None obs (length obs)) (Nat.le_refl _)).
Qed.

(** ** Aftershock phase preference *)

Lemma overlap_inner_existsb (ae : R * R) (others : list (R * R)) (flag : bool) :
  SubC.overlap_inner ae others flag
  = existsb (fun o => Np.gtb (SubC.overlap_fraction (fst ae) (snd ae)
                                (fst o) (snd o)) 0.5) others
    || flag.
Proof.
  induction others as [|o others IH]; [reflexivity|].
  cbn [SubC.overlap_inner existsb]. unfold Np.gtb at 1.
  destruct (Rgt_dec _ 0.5); [reflexivity|exact IH].
Qed.

Lemma overlap_outer_existsb (aes others : list (R * R)) :
  forall flag,
    SubC.overlap_outer aes others flag
    = existsb (fun ae =>
                 existsb (fun o => Np.gtb (SubC.overlap_fraction (fst ae) (snd ae)
                                             (fst o) (snd o)) 0.5) others) aes
      || flag.
Proof.
  induction aes as [|ae aes IH]; intros flag; [reflexivity|].
  cbn [SubC.overlap_outer existsb]. rewrite IH, overlap_inner_existsb.
  destruct (existsb _ others); destruct (existsb _ aes); destruct flag;
    reflexivity.
Qed.

Lemma classify_interval_new (s e : R) :
  SubB.classify_interval s e <> "new interval"
  <-> existsb (fun o => Np.gtb (SubC.overlap_fraction s e (fst o) (snd o)) 0.5)
        (map (fun b => (SubC.phase_start b, SubC.phase_end b))
             SubC.A1B_BASELINE_INTERVALS) = true.
Proof.
  unfold SubB.classify_interval, SubB.A1B_BASELINE_INTERVALS,
    SubC.A1B_BASELINE_INTERVALS.
  cbn [SubB.classify_loop map existsb fst snd SubB.phase_start SubB.phase_end
       SubC.phase_start SubC.phase_end SubB.id].
  change SubC.overlap_fraction with SubB.overlap_fraction.
  unfold Np.gtb.
  destruct (Rgt_dec (SubB.overlap_fraction s e 0.1875 0.25) 0.5);
    [split; [reflexivity|intros _ H; vm_compute in H; discriminate H]|].
  destruct (Rgt_dec (SubB.overlap_fraction s e 0.625 0.656) 0.5);
    [split; [reflexivity|intros _ H; vm_compute in H; discriminate H]|].
  destruct (Rgt_dec (SubB.overlap_fraction s e 0.875 0.917) 0.5);
    [split; [reflexivity|intros _ H; vm_compute in H; discriminate H]|].
  split; [intros H; now contradiction H|discriminate].
Qed.

Lemma existsb_Exists_iff {A : Type} (f : A -> bool) (P : A -> Prop) (l : list A) :
  (forall a, f a = true <-> P a) -> (existsb f l = true <-> Exists P l).
Proof.
  intros H. rewrite existsb_exists, Exists_exists.
  split; intros (a & Ha & Hf); exists a; (split; [assumption|now apply H]).
Qed.

Ltac settle_flag H :=
  match type of H with
  | (true = true <-> ?P) => assert P by (apply H; reflexivity)
  | (false = true <-> ?P) =>
      assert (~ P) by (let X := fresh in intros X; apply H in X; discriminate X)
  end; clear H.

(** X17. [classify_aftershock_preference] answers "no preference" exactly
    when no p-value is below 0.05.  Otherwise the A1b label is given exactly
    when some aftershock interval is one that [classify_interval] of
    sub-analysis B matches to a baseline; the mainshock label needs, besides
    an aftershock interval more than half covered by a mainshock interval,
    that no aftershock interval matches a baseline. *)
Theorem aftershock_preference_cases
        (aftershock_elevated mainshock_elevated : list (R * R))
        (p_values_all_k : list R) :
  let significant := Exists (fun p => p < 0.05) p_values_all_k in
  let a1b :=
    Exists (fun ae => SubB.classify_interval (fst ae) (snd ae) <> "new interval")
           aftershock_elevated in
  let mainshock :=
    Exists (fun ae =>
              Exists (fun me => SubC.overlap_fraction (fst ae) (snd ae)
                                  (fst me) (snd me) > 0.5)
                     mainshock_elevated)
           aftershock_elevated in
  let label :=
    SubC.classify_aftershock_preference aftershock_elevated mainshock_elevated
                                        p_values_all_k in
  (label = "no preference" <-> ~ significant)
  /\ (label = "significant, intervals match A1b baseline"
      <-> significant /\ a1b)
  /\ (label = "same intervals as mainshocks"
      <-> significant /\ ~ a1b /\ mainshock)
  /\ (label = "different intervals from mainshocks"
      <-> significant /\ ~ a1b /\ ~ mainshock).
Proof.
  intros significant a1b mainshock label.
  assert (Hs : existsb (fun p => NpMore.ltb p 0.05) p_values_all_k = true
               <-> significant).
  { apply existsb_Exists_iff. intros p. unfold NpMore.ltb.
    destruct (Rlt_dec p 0.05); split; intros; congruence || tauto. }
  assert (Ha : SubC.overlap_outer aftershock_elevated
                 (map (fun b => (SubC.phase_start b, SubC.phase_end b))
                      SubC.A1B_BASELINE_INTERVALS) false = true
               <-> a1b).
  { rewrite overlap_outer_existsb, orb_false_r.
    apply existsb_Exists_iff. intros ae. symmetry. apply classify_interval_new. }
  assert (Hm : SubC.overlap_outer aftershock_elevated mainshock_elevated false
               = true <-> mainshock).
  { rewrite overlap_outer_existsb, orb_false_r.
    apply existsb_Exists_iff. intros ae.
    apply existsb_Exists_iff. intros me. apply gtb_true. }
  subst label. unfold SubC.classify_aftershock_preference.
  destruct (existsb _ p_values_all_k); cbn [negb];
    [destruct (SubC.overlap_outer aftershock_elevated (map _ _) false);
     [|destruct (SubC.overlap_outer aftershock_elevated mainshock_elevated false)]|];
    settle_flag Hs; try settle_flag Ha; try settle_flag Hm;
    (split; [|split; [|split]]); split; intros;
      try discriminate; try reflexivity; tauto.
Qed.

(** ** Symmetry tests and the hypotheses they support *)

(** What [run_symmetry_tests] returns, in terms of the six presence flags,
    the two mean phases of test 2 and the state of the half-cycle loops. *)
Lemma run_symmetry_tests_flags (nh sh : list B1.Interval) :
  let a1 := B1Tests.interval_in_elevated 0.1875 0.25 nh 0.5 in
  let b1 := B1Tests.interval_in_elevated 0.1875 0.25 sh 0.5 in
  let a2 := B1Tests.interval_in_elevated 0.625 0.656 nh 0.5 in
  let b2 := B1Tests.interval_in_elevated 0.625 0.656 sh 0.5 in
  let a3 := B1Tests.interval_in_elevated 0.875 0.917 nh 0.5 in
  let b3 := B1Tests.interval_in_elevated 0.875 0.917 sh 0.5 in
  let t4 := B1Tests.compute_half_cycle_offset nh sh in
  exists cls off h2 h3,
    B1Tests.run_symmetry_tests nh sh
    = Some (B1Tests.mkSymmetryTests
              (B1Tests.mkTest1 (B1Tests.mkPresence a1 b1 (a1 && b1))
                               (B1Tests.mkPresence a2 b2 (a2 && b2))
                               (B1Tests.mkPresence a3 b3 (a3 && b3)) cls)
              (B1Tests.mkTest2 a1 b1 off)
              (B1Tests.mkTest3 h2 h3) t4)
    /\ cls = (if (a1 && b1) && ((a2 && b2) && ((a3 && b3) && true))
              then "fully symmetric"
              else if (a1 && b1) || ((a2 && b2) || ((a3 && b3) || false))
                   then "partially symmetric" else "asymmetric")
    /\ h2 = (if a2 && b2 then "both" else if a2 then "nh_only"
             else if b2 then "sh_only" else "neither")
    /\ h3 = (if a3 && b3 then "both" else if a3 then "nh_only"
             else if b3 then "sh_only" else "neither")
    /\ off = match (if a1 then B1Tests.get_interval_mean_phase 0.1875 0.25 nh
                    else None),
                   (if b1 then B1Tests.get_interval_mean_phase 0.1875 0.25 sh
                    else None) with
             | Some a, Some b => Some (a - b)
             | _, _ => None
             end.
Proof.
  intros a1 b1 a2 b2 a3 b3 t4. do 4 eexists.
  split; [reflexivity|]. repeat split; reflexivity.
Qed.

Ltac decide_labels :=
  cbn [B1Tests.geometric B1Tests.hydrological B1Tests.mixed
       B1Tests.primary_conclusion B1Tests.classification
       B1Tests.test_1_global B1Tests.test_4_half_cycle_offset
       B1Tests.any_half_cycle_offset_found andb orb];
  repeat match goal with
         | |- _ /\ _ => split
         | |- _ <-> _ => split
         | |- _ <> _ => intro
         | |- _ -> _ => intro
         | H : _ /\ _ |- _ => destruct H
         end;
  try discriminate; try reflexivity.

(** X18. On the results of [run_symmetry_tests], [evaluate_predictions]
    always returns, and its verdicts are tied together: the geometric
    hypothesis is "supported" exactly when test 1 says "fully symmetric" and
    no half-cycle offset was found, which is also exactly when the primary
    conclusion is "geometric"; then the hydrological hypothesis is "not
    supported" and the mixed one "partially supported".  Conversely, when
    the hydrological hypothesis is "supported", the geometric one is "not
    supported" and the mixed one is at least "partially supported". *)
Theorem predictions_consistent (elevated_nh elevated_sh : list B1.Interval) :
  exists t pr,
    B1Tests.run_symmetry_tests elevated_nh elevated_sh = Some t
    /\ B1Tests.evaluate_predictions t = Some pr
    /\ (B1Tests.geometric pr = "supported"
        <-> B1Tests.classification (B1Tests.test_1_global t) = "fully symmetric"
            /\ B1Tests.any_half_cycle_offset_found
                 (B1Tests.test_4_half_cycle_offset t) = false)
    /\ (B1Tests.primary_conclusion pr = "geometric"
        <-> B1Tests.geometric pr = "supported")
    /\ (B1Tests.geometric pr = "supported" ->
        B1Tests.hydrological pr = "not supported"
        /\ B1Tests.mixed pr = "partially supported")
    /\ (B1Tests.hydrological pr = "supported" ->
        B1Tests.geometric pr = "not supported"
        /\ B1Tests.mixed pr <> "not supported").
Proof.
  destruct (run_symmetry_tests_flags elevated_nh elevated_sh)
    as (cls & off & h2 & h3 & -> & -> & -> & -> & _).
  generalize (B1Tests.interval_in_elevated 0.1875 0.25 elevated_nh 0.5),
    (B1Tests.interval_in_elevated 0.1875 0.25 elevated_sh 0.5),
    (B1Tests.interval_in_elevated 0.625 0.656 elevated_nh 0.5),
    (B1Tests.interval_in_elevated 0.625 0.656 elevated_sh 0.5),
    (B1Tests.interval_in_elevated 0.875 0.917 elevated_nh 0.5),
    (B1Tests.interval_in_elevated 0.875 0.917 elevated_sh 0.5).
  destruct (B1Tests.compute_half_cycle_offset elevated_nh elevated_sh)
    as [h det].
  intros a1 b1 a2 b2 a3 b3.
  destruct a1, b1, a2, b2, a3, b3, h;
    (eexists; eexists; split; [reflexivity|];
     split; [vm_compute; reflexivity|]);
    decide_labels.
Qed.

Lemma interval_in_elevated_iff (ps pe th : R) (l : list B1.Interval) :
  B1Tests.interval_in_elevated ps pe l th = true
  <-> Exists (fun ei => B1Tests.intervals_overlap ps pe (B1.phase_start ei)
                          (B1.phase_end ei) > th) l.
Proof.
  induction l as [|ei l IH]; cbn [B1Tests.interval_in_elevated].
  - split; [discriminate|]. intros H. inversion H.
  - destruct (Rgt_dec _ th) as [Hgt|Hle].
    + split; [intros _; now left|reflexivity].
    + rewrite IH. split; [now right|].
      intros H. inversion H; [contradiction|assumption].
Qed.

(** The loop of [get_interval_mean_phase] keeps the first interval of the
    largest overlap among those that beat both 0.5 and the running best. *)
Lemma mean_phase_loop_spec (ps pe : R) (l : list B1.Interval) :
  let frac := fun ei => B1Tests.intervals_overlap ps pe (B1.phase_start ei)
                          (B1.phase_end ei) in
  forall bo bm,
    (Forall (fun ei => ~ (frac ei > 0.5 /\ frac ei > bo)) l
     /\ B1Tests.mean_phase_loop ps pe l bo bm = bm)
    \/ (exists ei,
           In ei l /\ frac ei > 0.5 /\ frac ei > bo
           /\ B1Tests.mean_phase_loop ps pe l bo bm = Some (B1.mean_phase ei)
           /\ Forall (fun e' => frac e' <= frac ei) l).
Proof.
  intros frac. induction l as [|ei l IH]; intros bo bm.
  - left. split; [constructor|reflexivity].
  - cbn [B1Tests.mean_phase_loop]. fold (frac ei).
    destruct (Np.gtb (frac ei) 0.5 && Np.gtb (frac ei) bo) eqn:Eb.
    + apply andb_true_iff in Eb as [H5 Hbo]. apply gtb_true in H5, Hbo.
      right.
      destruct (IH (frac ei) (Some (B1.mean_phase ei)))
        as [[Hnone ->]|(e2 & Hin & H25 & H2 & -> & Hmax)].
      * exists ei. split; [now left|]. do 3 (split; [assumption || reflexivity|]).
        constructor; [lra|].
        rewrite Forall_forall in *. intros e' He'.
        specialize (Hnone e' He'). cbv beta in Hnone.
        destruct (Rle_dec (frac e') (frac ei)); [assumption|].
        exfalso. apply Hnone. lra.
      * exists e2. split; [now right|]. split; [assumption|].
        split; [lra|]. split; [reflexivity|].
        constructor; [lra|assumption].
    + assert (Hfail : ~ (frac ei > 0.5 /\ frac ei > bo)).
      { intros [H5 Hbo]. apply gtb_true in H5, Hbo.
        rewrite H5, Hbo in Eb. discriminate. }
      destruct (IH bo bm) as [[Hnone ->]|(e2 & Hin & H25 & H2 & -> & Hmax)].
      * left. split; [now constructor|reflexivity].
      * right. exists e2. split; [now right|].
        do 3 (split; [assumption || reflexivity|]).
        constructor; [|assumption].
        destruct (Rle_dec (frac ei) (frac e2)); [assumption|].
        exfalso. apply Hfail. lra.
Qed.

Lemma get_interval_mean_phase_spec (ps pe : R) (l : list B1.Interval) :
  let frac := fun ei => B1Tests.intervals_overlap ps pe (B1.phase_start ei)
                          (B1.phase_end ei) in
  B1Tests.interval_in_elevated ps pe l 0.5 = true ->
  exists ei,
    In ei l /\ frac ei > 0.5
    /\ B1Tests.get_interval_mean_phase ps pe l = Some (B1.mean_phase ei)
    /\ Forall (fun e' => frac e' <= frac ei) l.
Proof.
  intros frac Hin. unfold B1Tests.get_interval_mean_phase.
  destruct (mean_phase_loop_spec ps pe l 0.0 None)
    as [[Hnone _]|(ei & Hei & H5 & _ & Heq & Hmax)].
  - exfalso. apply interval_in_elevated_iff in Hin.
    apply Exists_exists in Hin as (ei & Hei & Hgt).
    rewrite Forall_forall in Hnone. apply (Hnone ei Hei). lra.
  - exists ei. repeat split; assumption.
Qed.

(** X19. The four symmetry tests tell one story.  Test 2 reports for
    interval 1 the same presence flags as test 1; test 3 says "both" for
    interval 2 or 3 exactly when test 1 calls it symmetric; test 1 says
    "fully symmetric" exactly when all three intervals are symmetric and
    "asymmetric" exactly when none is.  The phase offset of test 2 is
    present exactly when interval 1 is symmetric, and it is then the
    difference of the mean phases of the elevated interval of each
    hemisphere that covers most of interval 1. *)
Theorem symmetry_tests_agree (elevated_nh elevated_sh : list B1.Interval) :
  let frac := fun ei => B1Tests.intervals_overlap 0.1875 0.25 (B1.phase_start ei)
                          (B1.phase_end ei) in
  exists t,
    B1Tests.run_symmetry_tests elevated_nh elevated_sh = Some t
    /\ let t1 := B1Tests.test_1_global t in
       let t2 := B1Tests.test_2_interval_1 t in
       let t3 := B1Tests.test_3_interval_23 t in
       let s1 := B1Tests.symmetric (B1Tests.interval_1 t1) in
       let s2 := B1Tests.symmetric (B1Tests.interval_2 t1) in
       let s3 := B1Tests.symmetric (B1Tests.interval_3 t1) in
       B1Tests.interval_1_nh t2 = B1Tests.in_nh (B1Tests.interval_1 t1)
       /\ B1Tests.interval_1_sh t2 = B1Tests.in_sh (B1Tests.interval_1 t1)
       /\ (B1Tests.interval_2_hemisphere t3 = "both" <-> s2 = true)
       /\ (B1Tests.interval_3_hemisphere t3 = "both" <-> s3 = true)
       /\ (B1Tests.classification t1 = "fully symmetric"
           <-> s1 = true /\ s2 = true /\ s3 = true)
       /\ (B1Tests.classification t1 = "asymmetric"
           <-> s1 = false /\ s2 = false /\ s3 = false)
       /\ (B1Tests.phase_offset t2 = None <-> s1 = false)
       /\ (forall d, B1Tests.phase_offset t2 = Some d ->
           exists e_nh e_sh,
             In e_nh elevated_nh /\ In e_sh elevated_sh
             /\ d = B1.mean_phase e_nh - B1.mean_phase e_sh
             /\ frac e_nh > 0.5 /\ frac e_sh > 0.5
             /\ Forall (fun e' => frac e' <= frac e_nh) elevated_nh
             /\ Forall (fun e' => frac e' <= frac e_sh) elevated_sh).
Proof.
  intros frac.
  destruct (run_symmetry_tests_flags elevated_nh elevated_sh)
    as (cls & off & h2 & h3 & -> & -> & -> & -> & ->).
  eexists. split; [reflexivity|].
  cbn [B1Tests.test_1_global B1Tests.test_2_interval_1 B1Tests.test_3_interval_23
       B1Tests.interval_1 B1Tests.interval_2 B1Tests.interval_3
       B1Tests.symmetric B1Tests.in_nh B1Tests.in_sh B1Tests.classification
       B1Tests.interval_1_nh B1Tests.interval_1_sh B1Tests.phase_offset
       B1Tests.interval_2_hemisphere B1Tests.interval_3_hemisphere].
  pose proof (get_interval_mean_phase_spec 0.1875 0.25 elevated_nh) as Hnh.
  pose proof (get_interval_mean_phase_spec 0.1875 0.25 elevated_sh) as Hsh.
  cbv zeta in Hnh, Hsh. fold frac in Hnh, Hsh.
  revert Hnh Hsh.
  generalize (B1Tests.interval_in_elevated 0.1875 0.25 elevated_nh 0.5),
    (B1Tests.interval_in_elevated 0.1875 0.25 elevated_sh 0.5),
    (B1Tests.interval_in_elevated 0.625 0.656 elevated_nh 0.5),
    (B1Tests.interval_in_elevated 0.625 0.656 elevated_sh 0.5),
    (B1Tests.interval_in_elevated 0.875 0.917 elevated_nh 0.5),
    (B1Tests.interval_in_elevated 0.875 0.917 elevated_sh 0.5).
  intros a1 b1 a2 b2 a3 b3 Hnh Hsh.
  do 2 (split; [reflexivity|]).
  split; [destruct a2, b2; cbn; split; congruence || discriminate|].
  split; [destruct a3, b3; cbn; split; congruence || discriminate|].
  split; [destruct a1, b1, a2, b2, a3, b3; cbn;
          (split; [intros H; try discriminate H; now repeat split
                  |intros (H1 & H2 & H3); try discriminate; reflexivity])|].
  split; [destruct a1, b1, a2, b2, a3, b3; cbn;
          (split; [intros H; try discriminate H; now repeat split
                  |intros (H1 & H2 & H3); try discriminate; reflexivity])|].
  destruct a1; [destruct b1|].
  - destruct (Hnh eq_refl) as (e_nh & Hin1 & H51 & -> & Hmax1).
    destruct (Hsh eq_refl) as (e_sh & Hin2 & H52 & -> & Hmax2).
    cbn [andb]. split; [split; discriminate|].
    intros d Hd. injection Hd as <-.
    exists e_nh, e_sh. repeat split; assumption.
  - cbn [andb]. destruct (B1Tests.get_interval_mean_phase _ _ elevated_nh);
      (split; [split; reflexivity|discriminate]).
  - cbn [andb]. split; [split; reflexivity|discriminate].
Qed.

(** ** The half-cycle test *)







(** ** Consistency labels for other interval lists *)

Lemma set_item_length {A : Type} (l l' : list A) (idx : nat) (v : A) :
  Np.set_item l idx v = Some l' -> length l' = length l.
Proof.
  unfold Np.set_item.
  destruct (Nat.ltb_spec idx (length l)) as [Hlt|Hge]; [|discriminate].
  intros Heq.
  assert (l' = firstn idx l ++ v :: skipn (S idx) l) as -> by congruence.
  rewrite length_app, length_firstn.
  change (length (v :: skipn (S idx) l)) with (S (length (skipn (S idx) l))).
  rewrite length_skipn. lia.
Qed.

Lemma mark_hits_spec (x : R) (ivs : list (R * R)) :
  forall idx hits,
    match Mfpa.mark_hits x ivs idx hits with
    | Some hits' =>
        length hits' = length hits
        /\ forall j iv, nth_error ivs j = Some iv -> in_interval x iv = true ->
                        (idx + j < length hits)%nat
    | None =>
        exists j iv, nth_error ivs j = Some iv /\ in_interval x iv = true
                     /\ (length hits <= idx + j)%nat
    end.
Proof.
  induction ivs as [|[lo hi] ivs IH]; intros idx hits.
  - cbn. split; [reflexivity|]. intros [|j] iv H; discriminate H.
  - cbn [Mfpa.mark_hits].
    change (Np.leb lo x && Np.leb x hi) with (in_interval x (lo, hi)).
    destruct (in_interval x (lo, hi)) eqn:Ein.
    + destruct (Np.set_item hits idx true) as [hits1|] eqn:Es; cbn [bind].
      * pose proof (set_item_length _ _ _ _ Es) as Hl.
        assert (Hidx : (idx < length hits)%nat).
        { unfold Np.set_item in Es.
          destruct (Nat.ltb_spec idx (length hits)); [assumption|discriminate]. }
        specialize (IH (S idx) hits1).
        destruct (Mfpa.mark_hits x ivs (S idx) hits1) as [hits'|].
        -- destruct IH as [IH1 IH2]. split; [congruence|].
           intros [|j] iv Hj Hin; [lia|].
           specialize (IH2 j iv Hj Hin). lia.
        -- destruct IH as (j & iv & Hj & Hin & Hle).
           exists (S j), iv. repeat split; try assumption. lia.
      * exists 0%nat, (lo, hi). repeat split; try assumption.
        unfold Np.set_item in Es.
        destruct (Nat.ltb_spec idx (length hits)); [discriminate|lia].
    + cbn [bind]. specialize (IH (S idx) hits).
      destruct (Mfpa.mark_hits x ivs (S idx) hits) as [hits'|].
      * destruct IH as [IH1 IH2]. split; [assumption|].
        intros [|j] iv Hj Hin.
        -- cbn in Hj. injection Hj as <-. congruence.
        -- specialize (IH2 j iv Hj Hin). lia.
      * destruct IH as (j & iv & Hj & Hin & Hle).
        exists (S j), iv. repeat split; try assumption. lia.
Qed.

Lemma mark_all_spec (phases : list R) (ivs : list (R * R)) :
  forall hits,
    match Mfpa.mark_all phases ivs hits with
    | Some hits' =>
        length hits' = length hits
        /\ forall x j iv, In x phases -> nth_error ivs j = Some iv ->
                          in_interval x iv = true -> (j < length hits)%nat
    | None =>
        exists x j iv, In x phases /\ nth_error ivs j = Some iv
                       /\ in_interval x iv = true /\ (length hits <= j)%nat
    end.
Proof.
  induction phases as [|x phases IH]; intros hits.
  - cbn. split; [reflexivity|]. intros x j iv [].
  - cbn [Mfpa.mark_all]. pose proof (mark_hits_spec x ivs 0 hits) as Hx.
    destruct (Mfpa.mark_hits x ivs 0 hits) as [hits1|]; cbn [bind].
    + destruct Hx as [Hl Hx]. specialize (IH hits1).
      destruct (Mfpa.mark_all phases ivs hits1) as [hits'|].
      * destruct IH as [IH1 IH2]. split; [congruence|].
        intros y j iv [<-|Hy] Hj Hin.
        -- apply (Hx j iv Hj Hin).
        -- rewrite <- Hl. now apply (IH2 y j iv).
      * destruct IH as (y & j & iv & Hy & Hj & Hin & Hle).
        exists y, j, iv. repeat split; try assumption; [now right|lia].
    + destruct Hx as (j & iv & Hj & Hin & Hle).
      exists x, j, iv. repeat split; try assumption. now left.
Qed.

Lemma predicted_phases_some (period_days : R) :
  1 / 1024 <= period_days ->
  exists predicted,
    Mfpa.predicted_phases period_days = Some predicted /\ In 0 predicted.
Proof.
  intros Hp. unfold Mfpa.predicted_phases.
  rewrite int_some by now apply no_overflow_above.
  cbn [bind]. eexists. split; [reflexivity|].
  apply in_map_iff. exists 0%Z. split.
  - rewrite fmod_1.
    replace (0 * period_days / 365.25) with 0 by (unfold Rdiv; ring).
    rewrite (Zfloor_eq 0); lra.
  - apply in_range. lia.
Qed.

(** X21. [a1b_consistency_label] can raise.  A period so small that the
    quotient [365.25 / period_days] overflows raises at [int].  For a
    period of 1/1024 day or more the phases are predicted, phase 0 among
    them, and with a caller's own interval list the call raises exactly
    when some predicted phase falls in an interval past the third: the hit
    list has three slots.  So a fourth interval containing 0 always raises,
    and with at most three intervals the label of the hits is returned. *)
Theorem a1b_label_index_error (period_days : R) (intervals : list (R * R)) :
  period_days <> 0 ->
  let label := Mfpa.a1b_consistency_label period_days (Some intervals) in
  (Np.FLOAT_OVERFLOW <= Rabs (365.25 / period_days) -> label = None)
  /\ (1 / 1024 <= period_days ->
      exists predicted,
        Mfpa.predicted_phases period_days = Some predicted
        /\ In 0 predicted
        /\ (label = None
            <-> exists j iv x,
                  (3 <= j)%nat /\ nth_error intervals j = Some iv
                  /\ In x predicted
                  /\ fst iv <= x <= snd iv)
        /\ ((length intervals <= 3)%nat ->
            exists hits,
              Mfpa.mark_all predicted intervals [false; false; false]
              = Some hits
              /\ label = Some (Mfpa.label_of_hits hits))).
Proof.
  intros Hp label. subst label. unfold Mfpa.a1b_consistency_label.
  destruct (Req_dec_T period_days 0); [contradiction|]. split.
  - intros Hover. unfold Mfpa.predicted_phases, Np.int.
    destruct (Rle_dec Np.FLOAT_OVERFLOW (Rabs (365.25 / period_days)));
      [reflexivity|contradiction].
  - intros Hlow.
    destruct (predicted_phases_some period_days Hlow)
      as (predicted & Hpred & H0).
    exists predicted. rewrite Hpred. cbn [bind].
    split; [reflexivity|]. split; [exact H0|].
    pose proof (mark_all_spec predicted intervals [false; false; false]) as H.
    destruct (Mfpa.mark_all predicted intervals _) as [hits|]; cbn [bind].
    + destruct H as [_ H]. split.
      * split; [discriminate|].
        intros (j & [lo hi] & x & Hj & Hnth & Hx & Hin). exfalso.
        apply in_interval_true in Hin.
        specialize (H x j (lo, hi) Hx Hnth Hin). cbn in H. lia.
      * intros _. exists hits. split; reflexivity.
    + destruct H as (x & j & [lo hi] & Hx & Hnth & Hin & Hle). split.
      * split; [intros _|reflexivity].
        exists j, (lo, hi), x. cbn in Hle.
        apply in_interval_true in Hin. repeat split; try assumption; tauto.
      * intros Hlen. exfalso. cbn in Hle.
        assert (j < length intervals)%nat
          by (apply nth_error_Some; congruence).
        lia.
Qed.

(** ** Binning a catalog *)

Lemma div_le_iff (a b c : R) : 0 < c -> (a / c <= b <-> a <= b * c).
Proof.
  intros Hc. assert (H : a = a / c * c) by (field; lra).
  split; intros; nra.
Qed.

Lemma bincount_in_range (xs : list Z) (k : Z) :
  (0 <= k)%Z -> (forall x, In x xs -> (0 <= x < k)%Z) ->
  NpBins.bincount xs k
  = Some (map (fun i => Z.of_nat (count_occ Z.eq_dec xs i)) (Np.range 0 k)).
Proof.
  intros Hk Hxs. unfold NpBins.bincount.
  replace (k <? 0)%Z with false by (symmetry; apply Z.ltb_ge; lia).
  replace (existsb (fun x => (x <? 0)%Z) xs) with false.
  2:{ symmetry. apply not_true_is_false. intros H.
      apply existsb_exists in H as (x & Hx & Hneg).
      apply Z.ltb_lt in Hneg. specialize (Hxs x Hx). lia. }
  cbn [orb]. do 3 f_equal.
  induction xs as [|x xs IH]; [reflexivity|]. cbn [fold_right].
  rewrite IH by (intros; apply Hxs; now right).
  specialize (Hxs x (or_introl eq_refl)). lia.
Qed.

(** The counts [bin_counts] returns for a positive [k]: one per bin, of the
    clipped bin indices. *)
Lemma bin_counts_clipped (phase : list R) (k : Z) :
  (0 < k)%Z ->
  let f := fun p : R => NpBins.clip (Zfloor (p * IZR k)) 0 (k - 1) in
  (forall p, (0 <= f p < k)%Z)
  /\ SubBRun.bin_counts phase k
     = Some (map (fun i => IZR (Z.of_nat (count_occ Z.eq_dec (map f phase) i)))
                 (Np.range 0 k)).
Proof.
  intros Hk f.
  assert (Hf : forall p, (0 <= f p < k)%Z)
    by (intros p; unfold f, NpBins.clip; lia).
  split; [exact Hf|].
  unfold SubBRun.bin_counts. rewrite map_map. fold f.
  rewrite bincount_in_range; [|lia|].
  - cbn [bind]. now rewrite map_map.
  - intros x Hx. apply in_map_iff in Hx as (p & <- & _). apply Hf.
Qed.

Lemma sum_indicator_range (lo hi id : Z) (x : R) :
  Np.sum (map (fun i => if (id =? i)%Z then x else 0) (Np.range lo hi))
  = if ((lo <=? id)%Z && (id <? hi)%Z) then x else 0.
Proof.
  remember (Z.to_nat (hi - lo)) as n eqn:Hn.
  revert lo Hn. induction n as [|n IH]; intros lo Hn.
  - rewrite range_nil by lia.
    destruct (Z.leb_spec lo id), (Z.ltb_spec id hi); cbn; try reflexivity; lia.
  - rewrite range_cons by lia. cbn [map].
    change (Np.sum (?a :: ?l)) with (a + Np.sum l).
    rewrite (IH (lo + 1)%Z) by lia.
    destruct (Z.eqb_spec id lo), (Z.leb_spec lo id), (Z.leb_spec (lo + 1) id),
      (Z.ltb_spec id hi); cbn [andb]; try lra; lia.
Qed.

(** The number of phases in the interval of bins [s .. e] is the sum of the
    counts of these bins. *)
Lemma count_in_bins (f : R -> Z) (phase : list R) (s e : Z) :
  IZR (Z.of_nat (count_occ bool_dec
                   (map (fun p => (s <=? f p)%Z && (f p <=? e)%Z) phase) true))
  = Np.sum (map (fun i => IZR (Z.of_nat (count_occ Z.eq_dec (map f phase) i)))
                (Np.range s (e + 1))).
Proof.
  induction phase as [|p phase IH].
  - cbn. symmetry. now apply sum_map_zero.
  - cbn [map].
    rewrite (map_ext _ (fun i => (if (f p =? i)%Z then 1 else 0)
                                 + IZR (Z.of_nat (count_occ Z.eq_dec
                                                    (map f phase) i)))).
    2:{ intros i. cbn [count_occ].
        destruct (Z.eq_dec (f p) i) as [->|Hne].
        - rewrite Z.eqb_refl, Nat2Z.inj_succ, succ_IZR. lra.
        - destruct (Z.eqb_spec (f p) i); [contradiction|lra]. }
    rewrite sum_map_plus, sum_indicator_range, <- IH.
    replace (f p <? e + 1)%Z with (f p <=? e)%Z
      by (destruct (Z.leb_spec (f p) e), (Z.ltb_spec (f p) (e + 1));
          reflexivity || lia).
    cbn [count_occ].
    destruct ((s <=? f p)%Z && (f p <=? e)%Z).
    + destruct (bool_dec true true); [|congruence].
      rewrite Nat2Z.inj_succ, succ_IZR. lra.
    + destruct (bool_dec false true); [discriminate|lra].
Qed.

Lemma count_occ_le_length (mask : list bool) :
  (count_occ bool_dec mask true <= length mask)%nat.
Proof.
  induction mask as [|b mask IH]; [reflexivity|].
  cbn [count_occ length]. destruct (bool_dec b true); lia.
Qed.

Lemma count_occ_all_true {A : Type} (f : A -> bool) (l : list A) :
  (forall a, In a l -> f a = true) ->
  count_occ bool_dec (map f l) true = length l.
Proof.
  induction l as [|a l IH]; intros H; [reflexivity|].
  cbn [map count_occ length]. rewrite (H a) by now left.
  destruct (bool_dec true true); [|congruence].
  now rewrite IH by (intros; apply H; now right).
Qed.

Lemma coherence_unit (phase : list R) (ps pe : R) :
  exists r,
    SubBPhase.compute_interval_coherence phase ps pe = Some r /\ 0 <= r <= 1.
Proof.
  unfold SubBPhase.compute_interval_coherence.
  set (sub := Np.select _ phase).
  destruct sub as [|x sub'] eqn:Es.
  - exists 0.0. cbn. split; [reflexivity|lra].
  - rewrite <- Es.
    assert (Hne : sub <> []) by (rewrite Es; congruence).
    replace (length sub =? 0)%nat with false
      by (symmetry; apply Nat.eqb_neq; rewrite Es; cbn; lia).
    assert (Ha : map (fun p => 2.0 * PI * p) sub <> [])
      by (intros H; apply map_eq_nil in H; contradiction).
    rewrite !mean_some by (intros H; apply map_eq_nil in H; contradiction).
    cbn [bind]. eexists. split; [reflexivity|].
    rewrite !length_map.
    pose proof (mean_resultant_bound _ Ha) as Hb. cbv zeta in Hb.
    rewrite length_map in Hb.
    apply sqrt_unit. split; [|exact Hb].
    apply Rplus_le_le_0_compat; apply pow2_ge_0.
Qed.

Lemma solar_phase_some (solar_secs : list R) :
  let phase :=
    map (fun s => Np.fmod (s / SubBPhase.SOLAR_YEAR_SECS) 1.0) solar_secs in
  SubBPhase.compute_phase solar_secs SubBPhase.SOLAR_YEAR_SECS = Some phase
  /\ forall p, In p phase -> 0 <= p < 1.
Proof.
  intros phase. split.
  - unfold SubBPhase.compute_phase. apply mapM_some. intros s _.
    destruct (Req_dec_T SubBPhase.SOLAR_YEAR_SECS 0) as [H0|_]; [|reflexivity].
    unfold SubBPhase.SOLAR_YEAR_SECS in H0. lra.
  - intros p Hp. apply in_map_iff in Hp as (s & <- & _).
    pose proof (fmod_range (s / SubBPhase.SOLAR_YEAR_SECS) 1.0 ltac:(lra)). lra.
Qed.

Lemma classify_interval_matches (s e : R) (b : SubB.Baseline) :
  In b SubB.A1B_BASELINE_INTERVALS ->
  (SubB.classify_interval s e
   = ("matches interval " ++ Np.str (SubB.id b))%string
   <-> overlap_ratio s e b > 0.5).
Proof.
  intros Hb. destruct (baselines_exclusive s e) as (H12 & H13 & H23).
  unfold SubB.classify_interval, SubB.A1B_BASELINE_INTERVALS in *.
  fold baseline_1 baseline_2 baseline_3 in *.
  rewrite !classify_loop_cons. simpl SubB.classify_loop.
  change (Np.str (SubB.id baseline_1)) with "1".
  change (Np.str (SubB.id baseline_2)) with "2".
  change (Np.str (SubB.id baseline_3)) with "3".
  destruct Hb as [<-|[<-|[<-|[]]]];
    [change (Np.str (SubB.id baseline_1)) with "1"
    |change (Np.str (SubB.id baseline_2)) with "2"
    |change (Np.str (SubB.id baseline_3)) with "3"];
    simpl append;
    destruct (Rgt_dec (overlap_ratio s e baseline_1) 0.5) as [H1|H1];
    destruct (Rgt_dec (overlap_ratio s e baseline_2) 0.5) as [H2|H2];
    destruct (Rgt_dec (overlap_ratio s e baseline_3) 0.5) as [H3|H3];
    split; intros; try discriminate; tauto.
Qed.

Lemma Forall2_map_r {A B : Type} (P : B -> A -> Prop) (g : A -> B) (l : list A) :
  (forall a, In a l -> P (g a) a) -> Forall2 P (map g l) l.
Proof.
  induction l as [|a l IH]; intros H; cbn [map]; constructor.
  - apply H. now left.
  - apply IH. intros; apply H; now right.
Qed.

Lemma Forall2_In_l {A B : Type} (P : A -> B -> Prop) (l1 : list A) (l2 : list B)
      (a : A) :
  Forall2 P l1 l2 -> In a l1 -> exists b, In b l2 /\ P a b.
Proof.
  induction 1 as [|x y l1 l2 Hxy _ IH]; intros Hin; [contradiction|].
  destruct Hin as [<-|Hin].
  - exists y. split; [now left|assumption].
  - destruct (IH Hin) as (b & Hb & HP). exists b. split; [now right|assumption].
Qed.

Lemma Forall2_sorted {A B : Type} (P : A -> B -> Prop)
      (Q1 : A -> A -> Prop) (Q2 : B -> B -> Prop) (l1 : list A) (l2 : list B) :
  (forall a a' b b', P a b -> P a' b' -> Q2 b b' -> Q1 a a') ->
  Forall2 P l1 l2 -> StronglySorted Q2 l2 -> StronglySorted Q1 l1.
Proof.
  intros HQ. induction 1 as [|x y l1 l2 Hxy Hrest IH]; intros Hs; constructor.
  - apply IH. now inversion Hs.
  - inversion Hs as [|? ? _ Hall]; subst.
    rewrite Forall_forall in *. intros a' Ha'.
    destruct (Forall2_In_l _ _ _ _ Hrest Ha') as (b' & Hb' & HP).
    exact (HQ _ _ _ _ Hxy HP (Hall b' Hb')).
Qed.

(** What [run_sub_b_single] computes for a positive bin count: the bin
    counts, the merged runs of elevated bins and one record for each run,
    in order. *)
Lemma run_sub_b_single_some (solar_secs : list R) (k : Z) :
  (0 < k)%Z ->
  let expected := IZR (Z.of_nat (length solar_secs)) / IZR k in
  exists phase obs recovered,
    SubBPhase.compute_phase solar_secs SubBPhase.SOLAR_YEAR_SECS = Some phase
    /\ length phase = length solar_secs
    /\ SubBRun.bin_counts phase k = Some obs
    /\ Z.of_nat (length obs) = k
    /\ SubBRun.run_sub_b_single solar_secs k
       = Some (recovered,
               map (SubBRun.survival_of recovered) SubB.A1B_BASELINE_INTERVALS)
    /\ Forall2
         (fun ri bins =>
            exists r,
              0 <= r <= 1
              /\ ri = SubBRun.mkRecovered
                        (IZR (fst bins) / IZR k) (IZR (snd bins + 1) / IZR k)
                        (SubB.classify_interval (IZR (fst bins) / IZR k)
                                                (IZR (snd bins + 1) / IZR k))
                        (Z.of_nat
                           (count_occ bool_dec
                              (map (fun p =>
                                      Np.geb p (IZR (fst bins) / IZR k)
                                      && NpMore.ltb p (IZR (snd bins + 1) / IZR k))
                                   phase) true))
                        r)
         recovered
         (SubB.merge_adjacent_bins (SubB.identify_elevated_bins obs expected) k).
Proof.
  intros Hk expected.
  destruct (solar_phase_some solar_secs) as [Hph _].
  set (phase := map (fun s => Np.fmod (s / SubBPhase.SOLAR_YEAR_SECS) 1.0)
                    solar_secs) in *.
  destruct (bin_counts_clipped phase k Hk) as [_ Hobs].
  set (obs := map _ (Np.range 0 k)) in Hobs.
  set (g := fun bins : Z * Z =>
              let ps := IZR (fst bins) / IZR k in
              let pe := IZR (snd bins + 1) / IZR k in
              SubBRun.mkRecovered ps pe (SubB.classify_interval ps pe)
                (Z.of_nat (count_occ bool_dec
                             (map (fun p => Np.geb p ps && NpMore.ltb p pe) phase)
                             true))
                (match SubBPhase.compute_interval_coherence phase ps pe with
                 | Some r => r
                 | None => 0
                 end)).
  set (merged := SubB.merge_adjacent_bins
                   (SubB.identify_elevated_bins obs expected) k).
  exists phase, obs, (map g merged).
  split; [exact Hph|]. split; [apply length_map|]. split; [exact Hobs|].
  split; [unfold obs; rewrite length_map, range_length; lia|]. split.
  - unfold SubBRun.run_sub_b_single. rewrite Hph. cbn [bind].
    rewrite Hobs. cbn [bind].
    destruct (Z.eqb_spec k 0) as [|_]; [lia|]. cbn [bind].
    fold expected. fold merged.
    rewrite (mapM_some _ g); [reflexivity|].
    intros [s e] _. unfold SubBRun.recover, SubB.bins_to_phase_interval.
    destruct (Z.eqb_spec k 0) as [|_]; [lia|]. cbn [bind fst snd].
    destruct (coherence_unit phase (IZR s / IZR k) (IZR (e + 1) / IZR k))
      as (r & Hr & _).
    subst g. cbn [fst snd]. cbv zeta. rewrite Hr. reflexivity.
  - apply Forall2_map_r. intros [s e] _. cbn [fst snd].
    destruct (coherence_unit phase (IZR s / IZR k) (IZR (e + 1) / IZR k))
      as (r & Hr & Hunit).
    exists r. split; [assumption|].
    subst g. cbn [fst snd]. cbv zeta. now rewrite Hr.
Qed.

(** X22. For a positive bin count [run_sub_b_single] always returns.  The
    recovered intervals come in ascending order without overlap; each lies
    in [0, 1] with positive width, carries the label [classify_interval]
    gives it and a coherence in [0, 1], and counts between 0 and [n] events.
    A baseline is reported as surviving exactly when more than half of some
    recovered interval lies inside it. *)
Theorem run_sub_b_single_recovered (solar_secs : list R) (k : Z) :
  (0 < k)%Z ->
  let n := Z.of_nat (length solar_secs) in
  exists recovered survival,
    SubBRun.run_sub_b_single solar_secs k = Some (recovered, survival)
    /\ StronglySorted
         (fun a b => SubBRun.phase_end a < SubBRun.phase_start b) recovered
    /\ (forall ri, In ri recovered ->
          0 <= SubBRun.phase_start ri < SubBRun.phase_end ri
          /\ SubBRun.phase_end ri <= 1
          /\ SubBRun.classification ri
             = SubB.classify_interval (SubBRun.phase_start ri)
                                      (SubBRun.phase_end ri)
          /\ 0 <= SubBRun.R_coherence ri <= 1
          /\ (0 <= SubBRun.n_events ri <= n)%Z)
    /\ (forall b, In b SubB.A1B_BASELINE_INTERVALS ->
          exists sv,
            In (("interval_" ++ Np.str (SubB.id b))%string, sv) survival
            /\ (SubBRun.survives sv = true
                <-> exists ri, In ri recovered
                               /\ overlap_ratio (SubBRun.phase_start ri)
                                                (SubBRun.phase_end ri) b > 0.5)).
Proof.
  intros Hk n.
  assert (HK : 0 < IZR k) by now apply IZR_lt.
  assert (Hinv : 0 < / IZR k) by now apply Rinv_0_lt_compat.
  destruct (run_sub_b_single_some solar_secs k Hk)
    as (phase & obs & recovered & _ & Hlenp & _ & Hlen & Hrun & Hall2).
  cbv zeta in Hall2. fold n in Hall2.
  set (expected := IZR n / IZR k) in *.
  assert (HE : 0 <= expected).
  { unfold expected, Rdiv. apply Rmult_le_pos; [|lra].
    apply IZR_le. lia. }
  pose proof (merged_bins_runs obs k expected HE Hlen) as (Hruns & _ & Hsorted).
  set (merged := SubB.merge_adjacent_bins _ k) in *.
  assert (Hrec : forall ri, In ri recovered ->
            exists s e r,
              In (s, e) merged /\ 0 <= r <= 1
              /\ ri = SubBRun.mkRecovered
                        (IZR s / IZR k) (IZR (e + 1) / IZR k)
                        (SubB.classify_interval (IZR s / IZR k)
                                                (IZR (e + 1) / IZR k))
                        (Z.of_nat
                           (count_occ bool_dec
                              (map (fun p => Np.geb p (IZR s / IZR k)
                                             && NpMore.ltb p (IZR (e + 1) / IZR k))
                                   phase) true))
                        r).
  { intros ri Hri.
    destruct (Forall2_In_l _ _ _ _ Hall2 Hri) as ([s e] & Hin & r & Hr & Heq).
    exists s, e, r. cbn [fst snd] in Heq. repeat split; try assumption; tauto. }
  exists recovered, (map (SubBRun.survival_of recovered) SubB.A1B_BASELINE_INTERVALS).
  split; [exact Hrun|]. split; [|split].
  - refine (Forall2_sorted _ _ _ _ _ _ Hall2 Hsorted).
    intros a a' [s e] [s' e'] (r & _ & ->) (r' & _ & ->) Hlt.
    cbn [fst snd SubBRun.phase_start SubBRun.phase_end] in *.
    unfold Rdiv. apply Rmult_lt_compat_r; [assumption|].
    apply IZR_lt. lia.
  - intros ri Hri.
    destruct (Hrec ri Hri) as (s & e & r & Hin & Hr & ->).
    cbn [SubBRun.phase_start SubBRun.phase_end SubBRun.classification
         SubBRun.n_events SubBRun.R_coherence].
    destruct (Hruns s e Hin) as (Hse & Hall & _).
    assert (He : (e < k)%Z).
    { destruct (Hall e ltac:(lia)) as [Hb _]. lia. }
    assert (Hs0 : 0 <= IZR s) by (apply IZR_le; lia).
    assert (Hse' : IZR s < IZR (e + 1)) by (apply IZR_lt; lia).
    assert (Hek : IZR (e + 1) <= IZR k) by (apply IZR_le; lia).
    split; [unfold Rdiv; split;
            [now apply Rmult_le_pos; [|left]|now apply Rmult_lt_compat_r]|].
    split; [apply div_le_iff; [assumption|lra]|].
    split; [reflexivity|]. split; [assumption|].
    split; [lia|].
    apply Nat2Z.inj_le.
    etransitivity; [apply count_occ_le_length|].
    unfold n. now rewrite length_map, Hlenp.
  - intros b Hb.
    exists (snd (SubBRun.survival_of recovered b)). split.
    + apply in_map_iff. exists b. split; [reflexivity|assumption].
    + unfold SubBRun.survival_of. cbn [snd SubBRun.survives].
      set (matched := filter _ recovered).
      assert (Hm : (0 <? length matched)%nat = true <-> exists ri, In ri matched).
      { destruct matched as [|ri m]; cbn.
        - split; [discriminate|]. intros (ri & []).
        - split; [|reflexivity]. intros _. exists ri. now left. }
      rewrite Hm. subst matched.
      split; intros (ri & Hri); exists ri.
      * apply filter_In in Hri as [Hri Hcls]. split; [assumption|].
        apply String.eqb_eq in Hcls.
        destruct (Hrec ri Hri) as (s & e & r & _ & _ & ->).
        cbn [SubBRun.phase_start SubBRun.phase_end SubBRun.classification] in *.
        now apply classify_interval_matches in Hcls.
      * destruct Hri as [Hri Hov]. apply filter_In. split; [assumption|].
        apply String.eqb_eq.
        destruct (Hrec ri Hri) as (s & e & r & _ & _ & ->).
        cbn [SubBRun.phase_start SubBRun.phase_end SubBRun.classification] in *.
        now apply classify_interval_matches.
Qed.

(** X23. [run_sub_b_single] raises for every bin count that is not
    positive. *)
Theorem run_sub_b_single_needs_bins (solar_secs : list R) (k : Z) :
  (k <= 0)%Z -> SubBRun.run_sub_b_single solar_secs k = None.
Proof.
  intros Hk. unfold SubBRun.run_sub_b_single.
  destruct (SubBPhase.compute_phase solar_secs SubBPhase.SOLAR_YEAR_SECS)
    as [phase|]; [cbn [bind]|reflexivity].
  destruct (SubBRun.bin_counts phase k) as [obs|] eqn:Eb;
    [cbn [bind]|reflexivity].
  destruct (Z.eqb_spec k 0) as [->|Hne]; [reflexivity|].
  exfalso. assert (Hneg : (k < 0)%Z) by lia.
  unfold SubBRun.bin_counts, NpBins.bincount in Eb.
  replace (k <? 0)%Z with true in Eb by (symmetry; now apply Z.ltb_lt).
  cbn [orb bind] in Eb. discriminate Eb.
Qed.

(** X24. The binning shared by the phase-bin analyses ([np.floor (phase *
    k)], clipped to [0 .. k - 1], then [np.bincount] with [minlength = k])
    gives, for every positive [k] and any phases, exactly [k] counts, none
    negative, that add up to the number of events: the clipping leaves no
    event out and [minlength] no bin. *)
Theorem bin_counts_partition (phase : list R) (k : Z) :
  (0 < k)%Z ->
  exists obs,
    SubBRun.bin_counts phase k = Some obs
    /\ Z.of_nat (length obs) = k
    /\ (forall c, In c obs -> 0 <= c)
    /\ Np.sum obs = INR (length phase).
Proof.
  intros Hk.
  pose proof (bin_counts_clipped phase k Hk) as Hc.
  cbv zeta beta in Hc. destruct Hc as [Hf Hobs].
  set (f := fun p : R => NpBins.clip (Zfloor (p * IZR k)) 0 (k - 1)) in *.
  eexists. split; [exact Hobs|].
  split; [rewrite length_map, range_length; lia|].
  split.
  - intros c Hc. apply in_map_iff in Hc as (i & <- & _).
    apply IZR_le. lia.
  - replace k with (k - 1 + 1)%Z at 1 by lia.
    rewrite <- (count_in_bins f phase 0 (k - 1)).
    rewrite count_occ_all_true.
    + now rewrite <- INR_IZR_INZ.
    + intros p _. specialize (Hf p). unfold f.
      apply andb_true_iff. split; apply Z.leb_le; lia.
Qed.

(** ** Further worked instances *)

(** Two events tested at a half-day period. *)
Lemma compute_phases_in_range_witness :
  0 < 0.5
  /\ (forall t, In t sample_times -> 0 <= t)
  /\ exists phases,
      Schuster.compute_phases sample_times 0.5 = Some phases
      /\ length phases = length sample_times
      /\ forall x, In x phases -> 0 <= x < 2 * PI.
Proof.
  assert (Hp : 0 < 0.5) by lra.
  assert (Hpos : forall t, In t sample_times -> 0 <= t).
  { unfold sample_times. intros t [<-|[<-|[]]]; lra. }
  split; [exact Hp|]. split; [exact Hpos|].
  exact (compute_phases_in_range sample_times 0.5 Hp Hpos).
Defined.

(** Two events two days apart are two clusters. *)
Lemma schuster_counts_witness :
  exists r,
    Schuster.schuster_single_period sample_times 0.5 1 = Some r
    /\ Schuster.n_events r = Z.of_nat (length sample_times)
    /\ (0 <= Schuster.n_clusters r <= Schuster.n_events r)%Z.
Proof.
  assert (Hne : sample_times <> []) by (unfold sample_times; congruence).
  assert (Hp : 0.5 <> 0) by lra.
  pose proof (schuster_nonempty sample_times 0.5 1 Hne Hp) as Hr.
  cbv zeta in Hr. eexists. split; [exact Hr|].
  destruct (schuster_counts sample_times 0.5 1 _ Hr) as (H1 & H2 & _).
  split; assumption.
Defined.

(** Thresholds of one and of two days. *)
Lemma assign_clusters_threshold_monotone_witness :
  1 <= 2
  /\ Forall2 Z.le (Schuster.assign_clusters sample_times 2)
                  (Schuster.assign_clusters sample_times 1)
  /\ (last (Schuster.assign_clusters sample_times 2) 0
      <= last (Schuster.assign_clusters sample_times 1) 0)%Z.
Proof.
  split; [lra|]. apply (assign_clusters_threshold_monotone sample_times 1 2). lra.
Defined.

(** A five-point grid from a quarter of a day to a year and a half. *)
Lemma schuster_spectrum_agrees_witness :
  0 < 0.25 /\ 0 < 548
  /\ exists spectrum,
      fst (SchusterGrid.schuster_spectrum sample_times 1 5 0.25 548)
      = Some spectrum
      /\ length spectrum = 5%nat
      /\ map SchusterGrid.period_days spectrum
         = Np.logspace (Np.log10 0.25) (Np.log10 548) 5
      /\ Forall (entry_matches sample_times 1) spectrum.
Proof.
  split; [lra|]. split; [lra|].
  apply (schuster_spectrum_agrees sample_times 1 5 0.25 548); lra.
Defined.

Lemma schuster_d2_is_mfpa_power_witness :
  0.5 <> 0
  /\ exists r phases,
      Schuster.schuster_single_period sample_times 0.5 1 = Some r
      /\ Schuster.compute_phases sample_times 0.5 = Some phases
      /\ Schuster.D2 r = Mfpa.mfpa_power phases
      /\ Schuster.p_standard r = exp (- Mfpa.mfpa_power phases)
      /\ 0 <= Schuster.D2 r <= IZR (Schuster.n_events r).
Proof.
  assert (Hp : 0.5 <> 0) by lra.
  split; [exact Hp|]. exact (schuster_d2_is_mfpa_power sample_times 0.5 1 Hp).
Defined.

(** A scan of two events over three periods with two bootstrap
    replicates. *)
Lemma mfpa_scan_significant_witness :
  0 < 0.25 /\ 0 < 548
  /\ exists res w',
      Mfpa.mfpa_scan unit (fun _ => tt) sample_uniform sample_percentile
                     sample_times 3 0.25 548 2 42 sample_world
      = (Some res, w')
      /\ Mfpa.significant_periods res
         = map significant_of_entry (filter above_p95 (Mfpa.spectrum res))
      /\ forall e, In e (Mfpa.spectrum res) -> 0 <= Mfpa.p_mfpa e <= 1.
Proof.
  assert (Hlo : 0 < 0.25) by lra. assert (Hhi : 0 < 548) by lra.
  split; [exact Hlo|]. split; [exact Hhi|].
  destruct (mfpa_scan_run unit (fun _ => tt) sample_uniform sample_percentile
              sample_times 3 0.25 548 2 42 sample_world)
    as (rec1 & g' & Hrun).
  cbv zeta in Hrun.
  match type of Hrun with
  | match Mfpa.scan_loop ?ps 0 ?t ?m ?a ?b [] [] with _ => _ end =>
      destruct (scan_loop_success t m a b ps) with (j := 0%nat)
        (spectrum := @nil Mfpa.Entry) (significant := @nil Mfpa.Significant)
        as [out Hout]
  end.
  - cbn. congruence.
  - intros T HT.
    assert (H1 : 0 < 0.25) by lra. assert (H2 : 0.25 <= 548) by lra.
    destruct (logspace_grid 0.25 548 1 H1 H2) as (_ & _ & _ & Hin).
    apply Hin in HT. lra.
  - rewrite Hout in Hrun. destruct Hrun as [rec2 Hrun].
    eexists. eexists. split; [exact Hrun|].
    destruct (mfpa_scan_significant unit (fun _ => tt) sample_uniform
                sample_percentile sample_times 3 0.25 548 2 42 sample_world
                _ _ Hlo Hhi Hrun) as [Hsig Hall].
    split; [exact Hsig|]. intros e He. exact (proj1 (Hall e He)).
Defined.

(** Four bins, eight events, both end bins elevated. *)
Lemma detectors_agree_witness :
  (0 < 4)%Z /\ (0 <= 8)%Z /\ Z.of_nat (length sample_bin_counts) = 4%Z
  /\ B1.find_elevated_intervals sample_bin_counts 4 8
     = Some (map (fun r => B1.interval_of_run (1.0 / IZR 4) (fst r) (snd r + 1))
                 (SubB.merge_adjacent_bins
                    (SubB.identify_elevated_bins sample_bin_counts
                                                 (IZR 8 / IZR 4)) 4)).
Proof.
  assert (Hk : (0 < 4)%Z) by lia. assert (Hn : (0 <= 8)%Z) by lia.
  assert (Hlen : Z.of_nat (length sample_bin_counts) = 4%Z) by reflexivity.
  split; [exact Hk|]. split; [exact Hn|]. split; [exact Hlen|].
  exact (detectors_agree sample_bin_counts 4 8 Hk Hn Hlen).
Defined.

Lemma recovered_intervals_separated_witness :
  (0 < 4)%Z /\ 0 <= 2 /\ Z.of_nat (length sample_bin_counts) = 4%Z
  /\ exists intervals,
      mapM (fun r => SubB.bins_to_phase_interval (fst r) (snd r) 4)
           (SubB.merge_adjacent_bins
              (SubB.identify_elevated_bins sample_bin_counts 2) 4)
      = Some intervals
      /\ (forall iv, In iv intervals -> 0 <= fst iv < snd iv /\ snd iv <= 1)
      /\ StronglySorted (fun a b : R * R => snd a + 1 / IZR 4 <= fst b)
                        intervals.
Proof.
  assert (Hk : (0 < 4)%Z) by lia. assert (HE : 0 <= 2) by lra.
  assert (Hlen : Z.of_nat (length sample_bin_counts) = 4%Z) by reflexivity.
  split; [exact Hk|]. split; [exact HE|]. split; [exact Hlen|].
  destruct (recovered_intervals_separated sample_bin_counts 4 2 Hk HE Hlen)
    as (intervals & Hm & _ & Hin & Hs).
  exists intervals. split; [exact Hm|]. split; [exact Hin|exact Hs].
Defined.

(** The sample catalog, all of it within the first year. *)
Lemma compute_phase_in_range_witness :
  0 < SubBPhase.SOLAR_YEAR_SECS
  /\ (forall s, In s sample_solar_secs -> 0 <= s)
  /\ exists phases,
      SubBPhase.compute_phase sample_solar_secs SubBPhase.SOLAR_YEAR_SECS
      = Some phases
      /\ (forall p, In p phases -> 0 <= p < 1)
      /\ nth 1 phases 0 = nth 1 sample_solar_secs 0 / SubBPhase.SOLAR_YEAR_SECS.
Proof.
  assert (Hy : 0 < SubBPhase.SOLAR_YEAR_SECS)
    by (unfold SubBPhase.SOLAR_YEAR_SECS; lra).
  assert (Hpos : forall s, In s sample_solar_secs -> 0 <= s).
  { unfold sample_solar_secs. intros s [<-|[<-|[<-|[<-|[]]]]]; lra. }
  split; [exact Hy|]. split; [exact Hpos|].
  destruct (compute_phase_in_range sample_solar_secs
              SubBPhase.SOLAR_YEAR_SECS Hy Hpos) as (phases & H1 & _ & H2 & H3).
  exists phases. split; [exact H1|]. split; [exact H2|].
  apply H3.
  - unfold sample_solar_secs. cbn [length]. lia.
  - unfold sample_solar_secs, SubBPhase.SOLAR_YEAR_SECS. cbn [nth]. lra.
Defined.

Lemma rayleigh_statistics_witness :
  sample_phases <> []
  /\ exists R_ p m,
      B1.compute_rayleigh sample_phases = Some (R_, p, m)
      /\ 0 <= R_ <= 1
      /\ 0 <= m <= 1.
Proof.
  assert (Hne : sample_phases <> []) by (unfold sample_phases; congruence).
  split; [exact Hne|].
  destruct (rayleigh_statistics sample_phases Hne)
    as (R_ & p & m & H1 & H2 & H3 & _).
  exists R_, p, m. split; [exact H1|]. split; [exact H2|exact H3].
Defined.


(** A fourth interval that contains phase 0 raises at the annual period. *)
Lemma a1b_label_index_error_witness :
  365.25 <> 0
  /\ 1 / 1024 <= 365.25
  /\ Mfpa.a1b_consistency_label 365.25 (Some sample_four_intervals) = None.
Proof.
  assert (Hp : 365.25 <> 0) by lra.
  assert (Hlow : 1 / 1024 <= 365.25) by lra.
  split; [exact Hp|]. split; [exact Hlow|].
  destruct (a1b_label_index_error 365.25 sample_four_intervals Hp)
    as (_ & H).
  destruct (H Hlow) as (predicted & _ & H0 & Hiff & _).
  apply Hiff. exists 3%nat, (0, 0.05), 0.
  split; [lia|]. split; [reflexivity|]. split; [exact H0|].
  cbn [fst snd]. lra.
Defined.

(** Four events in the same bin out of four: the bin is elevated and one
    interval is recovered. *)
Lemma sample_clustered_phase :
  SubBPhase.compute_phase sample_clustered_secs SubBPhase.SOLAR_YEAR_SECS
  = Some [0.5; 0.5; 0.5; 0.5].
Proof.
  assert (H : Np.fmod (15778800 / SubBPhase.SOLAR_YEAR_SECS) 1.0 = 0.5).
  { rewrite fmod_1. unfold SubBPhase.SOLAR_YEAR_SECS.
    replace (15778800 / 31557600.0) with 0.5 by lra.
    rewrite (Zfloor_eq 0); lra. }
  unfold SubBPhase.compute_phase, sample_clustered_secs. cbn [mapM].
  destruct (Req_dec_T SubBPhase.SOLAR_YEAR_SECS 0) as [H0|_];
    [unfold SubBPhase.SOLAR_YEAR_SECS in H0; lra|].
  cbn [bind]. now rewrite H.
Qed.

Lemma sample_clustered_counts :
  SubBRun.bin_counts [0.5; 0.5; 0.5; 0.5] 4 = Some [0; 0; 4; 0].
Proof.
  assert (Hk : (0 < 4)%Z) by lia.
  pose proof (bin_counts_clipped [0.5; 0.5; 0.5; 0.5] 4 Hk) as H.
  cbv zeta beta in H. destruct H as [_ ->]. cbn [map].
  assert (Hf : Zfloor (0.5 * 4) = 2%Z) by (apply Zfloor_eq; lra).
  rewrite Hf. reflexivity.
Qed.

Lemma sample_clustered_recovers :
  exists recovered survival,
    SubBRun.run_sub_b_single sample_clustered_secs 4 = Some (recovered, survival)
    /\ recovered <> [].
Proof.
  assert (Hk : (0 < 4)%Z) by lia.
  destruct (run_sub_b_single_some sample_clustered_secs 4 Hk)
    as (phase & obs & recovered & Hph & _ & Hobs & Hlen & Hrun & Hall2).
  rewrite sample_clustered_phase in Hph. injection Hph as <-.
  rewrite sample_clustered_counts in Hobs. injection Hobs as <-.
  cbv zeta in Hall2.
  change (IZR (Z.of_nat (length sample_clustered_secs)) / 4) with (4 / 4)
    in Hall2.
  replace (4 / 4) with 1 in Hall2 by lra.
  destruct (merged_bins_runs [0; 0; 4; 0] 4 1 ltac:(lra) eq_refl)
    as (_ & Hcover & _).
  destruct (Hcover 2%Z) as (s & e & Hin & _).
  { split; [cbn; lia|].
    change (Z.to_nat 2) with 2%nat. cbn [nth]. rewrite sqrt_1. lra. }
  eexists. eexists. split; [exact Hrun|].
  set (merged := SubB.merge_adjacent_bins _ 4) in *. clearbody merged.
  intros ->. apply Forall2_length in Hall2.
  destruct merged; [contradiction|discriminate Hall2].
Qed.

Lemma run_sub_b_single_recovered_witness :
  (0 < 4)%Z
  /\ exists recovered survival,
      SubBRun.run_sub_b_single sample_clustered_secs 4
      = Some (recovered, survival)
      /\ recovered <> []
      /\ forall ri, In ri recovered ->
           0 <= SubBRun.phase_start ri < SubBRun.phase_end ri
           /\ SubBRun.phase_end ri <= 1
           /\ (0 <= SubBRun.n_events ri <= 4)%Z.
Proof.
  assert (Hk : (0 < 4)%Z) by lia.
  split; [exact Hk|].
  destruct (run_sub_b_single_recovered sample_clustered_secs 4 Hk)
    as (recovered & survival & Hrun & _ & Hrec & _).
  exists recovered, survival. split; [exact Hrun|]. split.
  - destruct sample_clustered_recovers as (rec' & sv' & Hrun' & Hne).
    rewrite Hrun in Hrun'. injection Hrun' as -> _. exact Hne.
  - intros ri Hri. destruct (Hrec ri Hri) as (H1 & H2 & _ & _ & H3).
    split; [exact H1|]. split; [exact H2|exact H3].
Defined.

Lemma run_sub_b_single_needs_bins_witness :
  (0 <= 0)%Z /\ SubBRun.run_sub_b_single sample_solar_secs 0 = None.
Proof.
  assert (Hk : (0 <= 0)%Z) by lia.
  split; [exact Hk|].
  exact (run_sub_b_single_needs_bins sample_solar_secs 0 Hk).
Defined.

(** The sample phases in four bins. *)
Lemma bin_counts_partition_witness :
  (0 < 4)%Z
  /\ exists obs,
      SubBRun.bin_counts sample_phases 4 = Some obs
      /\ Z.of_nat (length obs) = 4%Z
      /\ Np.sum obs = INR (length sample_phases).
Proof.
  assert (Hk : (0 < 4)%Z) by lia.
  split; [exact Hk|].
  destruct (bin_counts_partition sample_phases 4 Hk)
    as (obs & H1 & H2 & _ & H3).
  exists obs. split; [exact H1|]. split; [exact H2|exact H3].
Defined.
